(** * Inferno Bells: the timed playback scheduler and the bell trigger

    A shallow embedding of the React front end of the repository:

    - [MidiPlayer] (the playback scheduler): [stopPlayback], [playSequence],
      the closure armed for every event of the sequence, the completion
      callback armed by the last one, the unmount clean-up, and the number
      shown next to the progress bar;
    - [App]: [handleBellPlay], which stores the note in [activeNote], and
      [handleMidiProcessed], which stores the melody in [sequence];
    - [BellsContainer]: the effect that follows [activeNote],
      [handleBellClick], which rings a bell, and the layout editor
      ([handleMouseDown], [handleMouseMove], [handleMouseUp]);
    - [MidiUploader]: [handleFileUpload].

    The browser is modelled by a wall clock ([now], what [Date.now()]
    returns), a table of pending timers ([setTimeout], [clearTimeout]) and a
    list of actions that the environment may take (time passes, a due timer
    fires, the user clicks).  React state cells are fields of [World]; a
    [useRef] cell is a field as well, shared by every closure.

    What is assumed of the platform: the clock does not go back; a timer
    fires at most once, and not before its delay has elapsed on that same
    clock; timers that are due may fire in any order; callbacks run one at
    a time; a state update is committed, and the effects that depend on it
    run, before the next callback starts. *)

From Stdlib Require Import ZArith QArith Qround Lia List Ascii String.
From stdpp Require Import base decidable option list strings pretty gmap fin_maps.

Open Scope Z_scope.

(** ** JavaScript numbers

    [progress] is a JavaScript number.  The scheduler computes it from two
    integers (milliseconds) with one division, one multiplication and
    [Math.min].  Finite values are kept as exact rationals in lowest terms;
    the three special values that the division can produce are explicit.
    Rounding to binary64 is not modelled: it is monotone and leaves [0] and
    [100] fixed, so it changes neither a comparison with these bounds nor
    which of two readings is the larger one. *)

Inductive JSNum : Type :=
| JFin (q : Q)
| JPosInf
| JNegInf
| JNaN.

Definition js_of_Z (z : Z) : JSNum := JFin (inject_Z z).

(** [a / b] on numbers; a zero divisor is [+0]. *)
Definition js_div (a b : JSNum) : JSNum :=
  match a, b with
  | JNaN, _ | _, JNaN => JNaN
  | JFin x, JFin y =>
      if Qeq_bool y 0 then
        match Qcompare x 0 with
        | Eq => JNaN
        | Gt => JPosInf
        | Lt => JNegInf
        end
      else JFin (Qred (x / y))
  | JFin _, (JPosInf | JNegInf) => JFin 0
  | JPosInf, JFin y => if Qle_bool 0 y then JPosInf else JNegInf
  | JNegInf, JFin y => if Qle_bool 0 y then JNegInf else JPosInf
  | (JPosInf | JNegInf), (JPosInf | JNegInf) => JNaN
  end.

(** [a * b] on numbers. *)
Definition js_mul (a b : JSNum) : JSNum :=
  match a, b with
  | JNaN, _ | _, JNaN => JNaN
  | JFin x, JFin y => JFin (Qred (x * y))
  | JFin x, JPosInf | JPosInf, JFin x =>
      match Qcompare x 0 with Eq => JNaN | Gt => JPosInf | Lt => JNegInf end
  | JFin x, JNegInf | JNegInf, JFin x =>
      match Qcompare x 0 with Eq => JNaN | Gt => JNegInf | Lt => JPosInf end
  | JPosInf, JPosInf | JNegInf, JNegInf => JPosInf
  | JPosInf, JNegInf | JNegInf, JPosInf => JNegInf
  end.

(** [(elapsed / totalDuration) * 100] on two integers. *)
Definition percentage_of (elapsed totalDuration : Z) : JSNum :=
  js_mul (js_div (js_of_Z elapsed) (js_of_Z totalDuration)) (js_of_Z 100).

(** [Math.min(a, b)]: [NaN] as soon as one argument is [NaN]. *)
Definition js_min (a b : JSNum) : JSNum :=
  match a, b with
  | JNaN, _ | _, JNaN => JNaN
  | JNegInf, _ | _, JNegInf => JNegInf
  | JPosInf, y => y
  | x, JPosInf => x
  | JFin x, JFin y => if Qle_bool y x then JFin y else JFin x
  end.

(** The number lies in the closed interval [[lo, hi]]; false for the three
    special values. *)
Definition js_between (lo hi : Q) (a : JSNum) : Prop :=
  match a with
  | JFin q => (lo <= q)%Q /\ (q <= hi)%Q
  | _ => False
  end.

(** [a <= b] as JavaScript evaluates it: false when an argument is [NaN]. *)
Definition js_le (a b : JSNum) : Prop :=
  match a, b with
  | JNaN, _ | _, JNaN => False
  | JNegInf, _ | _, JPosInf => True
  | JFin x, JFin y => (x <= y)%Q
  | _, _ => False
  end.

(** ** Data *)

(** One element of the sequence: [{ note, time }], [time] in milliseconds
    from the start of the sequence. *)
Record NoteEvent : Type := mkEvent { note : string; time : Z }.

(** The keys of [bellPositions]; [audioRefs.current] has one clip for each.
    The second one is "Re" with an acute accent, in UTF-8. *)
Definition note_re : string :=
  String "R" (String (ascii_of_nat 195) (String (ascii_of_nat 169) EmptyString)).

Definition bell_notes : list string := ["Sol"; "Fa"; "Mi"; note_re; "Do"]%string.

(** What a pending timer runs.  A closure is represented by the values it
    captured.  [sid] numbers the call of [playSequence] that created the
    closure; it is not a value of the program and is only used to say which
    session a callback belongs to. *)
Inductive Callback : Type :=
| EventCb (sid : nat) (startTime totalDuration : Z) (event : NoteEvent)
          (index len : nat)
| StopCb (sid : nat)
| ClearFlagCb (n : string).

Record Timer : Type := mkTimer { tid : nat; due : Z; cb : Callback }.

(** What an outside observer sees, newest first in [trace]: a call of
    [onBellPlay] by the scheduler, a run of [handleBellClick] outside edit
    mode (the bell rings), a call of [audio.play()]. *)
Inductive Obs : Type :=
| ObsBellPlay (sid index : nat) (n : string) (at_ms : Z)
| ObsRing (n : string) (at_ms : Z)
| ObsAudio (n : string) (at_ms : Z).

Record World : Type := mkWorld {
  (* browser *)
  now : Z;
  nextHandle : nat;
  timers : list Timer;
  (* MidiPlayer *)
  isPlaying : bool;
  progress : JSNum;
  playerRef : option (list nat);
  mounted : bool;
  sessions : nat;
  (* App *)
  activeNote : option string;
  (* BellsContainer *)
  playingNotes : gmap string bool;
  editMode : bool;
  selectedBell : option string;
  (* observations *)
  trace : list Obs
}.

Definition init (t0 : Z) : World :=
  {| now := t0; nextHandle := 0%nat; timers := [];
     isPlaying := false; progress := JFin 0; playerRef := None;
     mounted := true; sessions := 0%nat;
     activeNote := None;
     playingNotes := ∅; editMode := false; selectedBell := None;
     trace := [] |}.

(** *** Field updates *)

Definition set_now (v : Z) (w : World) : World :=
  mkWorld v (nextHandle w) (timers w) (isPlaying w) (progress w)
    (playerRef w) (mounted w) (sessions w) (activeNote w) (playingNotes w)
    (editMode w) (selectedBell w) (trace w).

Definition set_nextHandle (v : nat) (w : World) : World :=
  mkWorld (now w) v (timers w) (isPlaying w) (progress w)
    (playerRef w) (mounted w) (sessions w) (activeNote w) (playingNotes w)
    (editMode w) (selectedBell w) (trace w).

Definition set_timers (v : list Timer) (w : World) : World :=
  mkWorld (now w) (nextHandle w) v (isPlaying w) (progress w)
    (playerRef w) (mounted w) (sessions w) (activeNote w) (playingNotes w)
    (editMode w) (selectedBell w) (trace w).

Definition setIsPlaying (v : bool) (w : World) : World :=
  mkWorld (now w) (nextHandle w) (timers w) v (progress w)
    (playerRef w) (mounted w) (sessions w) (activeNote w) (playingNotes w)
    (editMode w) (selectedBell w) (trace w).

Definition setProgress (v : JSNum) (w : World) : World :=
  mkWorld (now w) (nextHandle w) (timers w) (isPlaying w) v
    (playerRef w) (mounted w) (sessions w) (activeNote w) (playingNotes w)
    (editMode w) (selectedBell w) (trace w).

Definition set_playerRef (v : option (list nat)) (w : World) : World :=
  mkWorld (now w) (nextHandle w) (timers w) (isPlaying w) (progress w)
    v (mounted w) (sessions w) (activeNote w) (playingNotes w)
    (editMode w) (selectedBell w) (trace w).

Definition set_mounted (v : bool) (w : World) : World :=
  mkWorld (now w) (nextHandle w) (timers w) (isPlaying w) (progress w)
    (playerRef w) v (sessions w) (activeNote w) (playingNotes w)
    (editMode w) (selectedBell w) (trace w).

Definition set_sessions (v : nat) (w : World) : World :=
  mkWorld (now w) (nextHandle w) (timers w) (isPlaying w) (progress w)
    (playerRef w) (mounted w) v (activeNote w) (playingNotes w)
    (editMode w) (selectedBell w) (trace w).

Definition setActiveNote (v : option string) (w : World) : World :=
  mkWorld (now w) (nextHandle w) (timers w) (isPlaying w) (progress w)
    (playerRef w) (mounted w) (sessions w) v (playingNotes w)
    (editMode w) (selectedBell w) (trace w).

Definition setPlayingNotes (v : gmap string bool) (w : World) : World :=
  mkWorld (now w) (nextHandle w) (timers w) (isPlaying w) (progress w)
    (playerRef w) (mounted w) (sessions w) (activeNote w) v
    (editMode w) (selectedBell w) (trace w).

Definition setEditMode (v : bool) (w : World) : World :=
  mkWorld (now w) (nextHandle w) (timers w) (isPlaying w) (progress w)
    (playerRef w) (mounted w) (sessions w) (activeNote w) (playingNotes w)
    v (selectedBell w) (trace w).

Definition setSelectedBell (v : option string) (w : World) : World :=
  mkWorld (now w) (nextHandle w) (timers w) (isPlaying w) (progress w)
    (playerRef w) (mounted w) (sessions w) (activeNote w) (playingNotes w)
    (editMode w) v (trace w).

Definition observe (o : Obs) (w : World) : World :=
  mkWorld (now w) (nextHandle w) (timers w) (isPlaying w) (progress w)
    (playerRef w) (mounted w) (sessions w) (activeNote w) (playingNotes w)
    (editMode w) (selectedBell w) (o :: trace w).

(** ** The browser's timers *)

(** [setTimeout(callback, delay)]: the handle and the new world.  A negative
    delay counts as zero. *)
Definition setTimeout (c : Callback) (delay : Z) (w : World) : nat * World :=
  let h := nextHandle w in
  (h, set_nextHandle (S h)
        (set_timers (timers w ++ [mkTimer h (now w + Z.max 0 delay) c]) w)).

(** [clearTimeout(handle)]: nothing happens when the timer has fired or was
    cleared before. *)
Definition clearTimeout (h : nat) (w : World) : World :=
  set_timers (filter (fun t => tid t ≠ h) (timers w)) w.

(** ** Results of a step

    A step ends normally, or an exception escapes from it, or the action
    cannot happen in this world (a timer that is not pending or not yet
    due, a click on a component that is gone). *)

Inductive Outcome : Type :=
| Ok (w : World)
| Threw (msg : string)
| NotEnabled.

(** ** BellsContainer *)

(** The part of a click event that [handleBellClick] reads:
    [e.target.classList.contains('resize-handle')]. *)
Record ClickEvent : Type := mkClick { on_resize_handle : bool }.

(** [audioRefs.current[note]].  The object is a plain object literal with
    one audio clip under each of the five names; as for every JavaScript
    object, looking up one of the names that it inherits from
    [Object.prototype] gives a function or an object that is not a clip,
    and any other name gives [undefined]. *)
Definition object_prototype_keys : list string :=
  ["constructor"; "__defineGetter__"; "__defineSetter__"; "hasOwnProperty";
   "__lookupGetter__"; "__lookupSetter__"; "isPrototypeOf";
   "propertyIsEnumerable"; "toString"; "valueOf"; "__proto__";
   "toLocaleString"]%string.

Inductive AudioRef : Type := Clip | Inherited | Undefined.

Definition audioRefs (n : string) : AudioRef :=
  if bool_decide (n ∈ bell_notes) then Clip
  else if bool_decide (n ∈ object_prototype_keys) then Inherited
  else Undefined.

(** Lines 82 to 85: the flag is set, and a timer is armed that clears it. *)
Definition light (n : string) (w : World) : World :=
  snd (setTimeout (ClearFlagCb n) 200
         (setPlayingNotes (<[n := true]> (playingNotes w)) w)).

(** [handleBellClick(note, e)].  In edit mode the function reads [e.target],
    which throws when [e] is [undefined].  Otherwise a truthy
    [audioRefs.current[note]] is rewound and played, which throws when the
    value has no [play] method. *)
Definition handleBellClick (n : string) (e : option ClickEvent) (w : World)
  : Outcome :=
  if editMode w then
    match e with
    | None => Threw "TypeError: e is undefined"
    | Some ev =>
        if on_resize_handle ev then Ok w
        else Ok (setSelectedBell (Some n) w)
    end
  else
    let w0 := observe (ObsRing n (now w)) w in
    match audioRefs n with
    | Clip => Ok (light n (observe (ObsAudio n (now w0)) w0))
    | Inherited => Threw "TypeError: audio.play is not a function"
    | Undefined => Ok (light n w0)
    end.

(** A string is truthy unless it is empty. *)
Definition truthy (s : string) : bool := negb (String.eqb s "").

(** The effect with dependency list [[activeNote]]: React runs it again
    only when [activeNote] differs from its value at the previous commit,
    and then it calls [handleBellClick(activeNote)] without an event. *)
Definition activeNote_effect (prev : option string) (w : World) : Outcome :=
  if decide (activeNote w = prev) then Ok w
  else
    match activeNote w with
    | Some n => if truthy n then handleBellClick n None w else Ok w
    | None => Ok w
    end.

(** The visual flag that [Bell] receives: [playingNotes[note]], where
    [undefined] is falsy. *)
Definition flag (n : string) (w : World) : bool :=
  match playingNotes w !! n with
  | Some b => b
  | None => false
  end.

(** ** App *)

Definition handleBellPlay (n : string) (w : World) : World :=
  setActiveNote (Some n) w.

(** ** MidiPlayer *)

Definition stopPlayback (w : World) : World :=
  let w1 :=
    match playerRef w with
    | Some handles =>
        set_playerRef None
          (fold_left (fun acc timeout => clearTimeout timeout acc) handles w)
    | None => w
    end in
  setProgress (JFin 0) (setIsPlaying false w1).

(** [playerRef.current.push(timeout)]; the list was assigned just before
    the loop, so that it is never null here. *)
Definition push_playerRef (timeout : nat) (w : World) : World :=
  match playerRef w with
  | Some handles => set_playerRef (Some (handles ++ [timeout])) w
  | None => w
  end.

(** The body of [sequence.forEach((event, index) => ...)], from [index] on. *)
Fixpoint arm (sid : nat) (startTime totalDuration : Z) (len index : nat)
    (events : list NoteEvent) (w : World) : World :=
  match events with
  | [] => w
  | event :: rest =>
      let '(timeout, w1) :=
        setTimeout (EventCb sid startTime totalDuration event index len)
          (time event) w in
      arm sid startTime totalDuration len (S index) rest
        (push_playerRef timeout w1)
  end.

Definition playSequence (sequence : option (list NoteEvent)) (w : World)
  : World :=
  match sequence with
  | None => w
  | Some [] => w
  | Some (first :: others) =>
      let sequence := first :: others in
      let w1 := stopPlayback w in
      let w2 := setIsPlaying true w1 in
      let startTime := now w2 in
      let totalDuration := time (List.last sequence first) in
      let w3 := set_playerRef (Some []) w2 in
      let sid := sessions w3 in
      arm sid startTime totalDuration (length sequence) 0 sequence
        (set_sessions (S sid) w3)
  end.

(** The callback of one event, lines 29 to 39.  [Date.now()] is read in
    the millisecond in which the callback started. *)
Definition event_callback (sid : nat) (startTime totalDuration : Z)
    (event : NoteEvent) (index len : nat) (w : World) : World :=
  let w1 :=
    handleBellPlay (note event)
      (observe (ObsBellPlay sid index (note event) (now w)) w) in
  let elapsed := now w1 - startTime in
  let percentage := percentage_of elapsed totalDuration in
  let w2 := setProgress (js_min percentage (js_of_Z 100)) w1 in
  if Z.of_nat index =? Z.of_nat len - 1
  then snd (setTimeout (StopCb sid) 500 w2)
  else w2.

(** A timer callback runs to its end; then React commits the state that
    it changed, and the effects whose dependencies changed run.  Only the
    callback of an event changes a dependency ([activeNote]).  An
    exception that escapes is the end of what the model follows. *)
Definition run_callback (c : Callback) (w : World) : Outcome :=
  match c with
  | EventCb sid startTime totalDuration event index len =>
      activeNote_effect (activeNote w)
        (event_callback sid startTime totalDuration event index len w)
  | StopCb _ => Ok (stopPlayback w)
  | ClearFlagCb n =>
      Ok (setPlayingNotes (<[n := false]> (playingNotes w)) w)
  end.

(** The clean-up of the mount effect: [() => stopPlayback()]. *)
Definition unmount (w : World) : World := set_mounted false (stopPlayback w).

(** ** What the environment does

    Time passes ([Tick]); a pending timer whose delay has elapsed fires
    ([Fire]); the user clicks the play/stop button, which calls
    [stopPlayback] when [isPlaying] and [playSequence] otherwise, with the
    [sequence] that the component received; [playSequence] and
    [stopPlayback] are called directly; the component is unmounted; the
    user clicks a bell or the edit toggle. *)

Inductive Action : Type :=
| Tick (d : Z)
| Fire (h : nat)
| ClickButton (sequence : option (list NoteEvent))
| CallPlay (sequence : option (list NoteEvent))
| CallStop
| Unmount
| ClickBell (n : string) (e : ClickEvent)
| ToggleEdit.

Definition pending (h : nat) (w : World) : option Timer :=
  find (fun t => bool_decide (tid t = h)) (timers w).

Definition do_action (a : Action) (w : World) : Outcome :=
  match a with
  | Tick d => if 0 <=? d then Ok (set_now (now w + d) w) else NotEnabled
  | Fire h =>
      match pending h w with
      | Some t =>
          if due t <=? now w
          then run_callback (cb t) (clearTimeout h w)
          else NotEnabled
      | None => NotEnabled
      end
  | ClickButton sequence =>
      if mounted w then
        Ok (if isPlaying w then stopPlayback w else playSequence sequence w)
      else NotEnabled
  | CallPlay sequence =>
      if mounted w then Ok (playSequence sequence w) else NotEnabled
  | CallStop => if mounted w then Ok (stopPlayback w) else NotEnabled
  | Unmount => if mounted w then Ok (unmount w) else NotEnabled
  | ClickBell n e => handleBellClick n (Some e) w
  | ToggleEdit => Ok (setEditMode (negb (editMode w)) w)
  end.

Fixpoint run (acts : list Action) (w : World) : Outcome :=
  match acts with
  | [] => Ok w
  | a :: rest =>
      match do_action a w with
      | Ok w' => run rest w'
      | other => other
      end
  end.

(** Observations in the order in which they happened. *)
Definition history (w : World) : list Obs := rev (trace w).

Definition is_ring (o : Obs) : bool :=
  match o with ObsRing _ _ => true | _ => false end.

Definition is_bellplay (o : Obs) : bool :=
  match o with ObsBellPlay _ _ _ _ => true | _ => false end.

Definition rings (w : World) : list Obs := List.filter is_ring (history w).
Definition bellplays (w : World) : list Obs :=
  List.filter is_bellplay (history w).


(** ** Reading a run *)

(** The world in which a run ends, when no step was refused or threw. *)
Definition final (o : Outcome) : option World :=
  match o with Ok w => Some w | _ => None end.

Definition world_of (o : Outcome) : World :=
  match o with Ok w => w | _ => init 0 end.

(** What is read off a run that starts in the initial world at time 0. *)
Definition after {A : Type} (f : World -> A) (acts : list Action) : option A :=
  option_map f (final (run acts (init 0))).

(** The handles of the pending timers whose callback belongs to an event. *)
Definition is_event (t : Timer) : bool :=
  match cb t with EventCb _ _ _ _ _ _ => true | _ => false end.

Definition event_timers (w : World) : list Timer :=
  List.filter is_event (timers w).

(** The pending timers that session [sid] armed: its event timers and its
    completion timer. *)
Definition of_session (sid : nat) (t : Timer) : bool :=
  match cb t with
  | EventCb s _ _ _ _ _ => Nat.eqb s sid
  | StopCb s => Nat.eqb s sid
  | ClearFlagCb _ => false
  end.

Definition session_timers (sid : nat) (w : World) : list Timer :=
  List.filter (of_session sid) (timers w).

(** ** A well-formedness invariant of reachable worlds

    Every pending timer has a handle below [nextHandle]; a pending event
    timer has its handle stored in [playerRef.current], belongs to a
    session that was already counted, and was started in the past. *)

Definition cb_ok (w : World) (h : nat) (c : Callback) : Prop :=
  match c with
  | EventCb sid startTime _ _ _ _ =>
      (exists handles, playerRef w = Some handles /\ h ∈ handles)
      /\ (sid < sessions w)%nat /\ startTime <= now w
  | _ => True
  end.

Definition timer_ok (w : World) (t : Timer) : Prop :=
  (tid t < nextHandle w)%nat /\ cb_ok w (tid t) (cb t).

Definition wf (w : World) : Prop := Forall (timer_ok w) (timers w).

(** Sessions numbered below [n] have no pending event timer, and [n]
    sessions or more were started. *)
Definition cb_from (n : nat) (c : Callback) : Prop :=
  match c with
  | EventCb sid _ _ _ _ _ => (n <= sid)%nat
  | _ => True
  end.

Definition quiet (n : nat) (w : World) : Prop :=
  (n <= sessions w)%nat /\ Forall (fun t => cb_from n (cb t)) (timers w).

Definition obs_from (n : nat) (o : Obs) : Prop :=
  match o with
  | ObsBellPlay sid _ _ _ => (n <= sid)%nat
  | _ => True
  end.

(** ** BellsContainer: the layout editor

    In edit mode a bell is dragged, or resized by one of its four corner
    handles.  [bellPositions] maps the name of a bell to its CSS box; the
    lengths [`${n}px`] are kept as the number [n], which is what
    [parseInt] reads back from [left] and [top].  Pointer coordinates are
    whole CSS pixels.  Widths and heights are finite numbers, kept as exact
    rationals. *)

(** [{ top, left, width, height }].  An entry that a move creates under a
    name that had none has no [width] and no [height]. *)
Record Position : Type := mkPosition {
  top_px : Z;
  left_px : Z;
  width_px : option Q;
  height_px : option Q
}.

(** The initial value of [bellPositions], lines 33 to 39. *)
Definition initial_positions : gmap string Position :=
  <["Sol"%string := mkPosition 86 310 (Some 64.93333435058594%Q)
                      (Some 79.63333129882812%Q)]>
  (<["Fa"%string := mkPosition 59 402 (Some 74.06666564941406%Q)
                      (Some 143.81666564941406%Q)]>
  (<["Mi"%string := mkPosition 86 497 (Some 90.06666564941406%Q)
                      (Some 98.96665954589844%Q)]>
  (<[note_re := mkPosition 81 593 (Some 93.45001220703125%Q)
                  (Some 118.39999389648438%Q)]>
  (<["Do"%string := mkPosition 87 685 (Some 112.59999084472656%Q)
                      (Some 128.60000610351562%Q)]> ∅)))).

(** The values of [data-handle] on the four handles that [Bell] renders
    in edit mode. *)
Definition resize_handles : list string :=
  ["top-left"; "top-right"; "bottom-left"; "bottom-right"]%string.

(** [s.includes(sub)]. *)
Definition includes (sub s : string) : bool :=
  match String.index 0 sub s with Some _ => true | None => false end.

(** [dragRef.current].  The object has one of three shapes: neither flag
    set (the initial object and the one that [handleMouseUp] stores),
    [isDragging] with the offset of the pointer inside the bell, or
    [isResizing] with the handle and the geometry at the start.  The
    fields that a shape lacks are never read. *)
Inductive Drag : Type :=
| Idle
| Dragging (startX startY : Z)
| Resizing (handle : string) (startX startY : Z) (startWidth startHeight : Q)
           (startLeft startTop : Z).

(** What the handlers read from a mouse event: the pointer, whether
    [e.target] is a resize handle and then its [dataset.handle], and the
    size of [e.currentTarget.getBoundingClientRect()]. *)
Record MouseEvent : Type := mkMouse {
  clientX : Z;
  clientY : Z;
  target_handle : option string;
  rect_width : Q;
  rect_height : Q
}.

(** The component: the state that the bell trigger uses ([playingNotes],
    [editMode] and [selectedBell], in [world]), [bellPositions] and
    [dragRef]. *)
Record Container : Type := mkContainer {
  world : World;
  bellPositions : gmap string Position;
  dragRef : Drag
}.

Definition container_init (t0 : Z) : Container :=
  mkContainer (init t0) initial_positions Idle.

Definition set_world (w : World) (c : Container) : Container :=
  mkContainer w (bellPositions c) (dragRef c).

Definition setBellPositions (v : gmap string Position) (c : Container)
  : Container :=
  mkContainer (world c) v (dragRef c).

Definition set_dragRef (v : Drag) (c : Container) : Container :=
  mkContainer (world c) (bellPositions c) v.

(** How a step on the page ends: normally, or with an exception, or the
    step cannot happen. *)
Inductive Result (A : Type) : Type :=
| Done (a : A)
| Raised (msg : string)
| Refused.

Arguments Done {A} a.
Arguments Raised {A} msg.
Arguments Refused {A}.

(** [Math.max(a, b)] on finite numbers. *)
Definition js_max (a b : Q) : Q := if Qle_bool a b then b else a.

(** [handleMouseDown(e, note)], lines 88 to 116.  Reading
    [bellPositions[note].left] throws when the name has no entry. *)
Definition handleMouseDown (e : MouseEvent) (note : string) (c : Container)
  : Result Container :=
  if negb (editMode (world c)) then Done c
  else
    match bellPositions c !! note with
    | None => Raised "TypeError: bellPositions[note] is undefined"
    | Some p =>
        let d :=
          match target_handle e with
          | Some handle =>
              Resizing handle (clientX e) (clientY e)
                (rect_width e) (rect_height e) (left_px p) (top_px p)
          | None =>
              Dragging (clientX e - left_px p) (clientY e - top_px p)
          end in
        Done (set_world (setSelectedBell (Some note) (world c))
                (set_dragRef d c))
    end.

(** The box that a resize stores, lines 123 to 155. *)
Definition resized (handle : string) (startX startY : Z)
    (startWidth startHeight : Q) (startLeft startTop : Z) (e : MouseEvent)
  : Position :=
  let deltaX := clientX e - startX in
  let deltaY := clientY e - startY in
  let newWidth := startWidth in
  let newHeight := startHeight in
  let newLeft := startLeft in
  let newTop := startTop in
  let newWidth :=
    if includes "right" handle then (startWidth + inject_Z deltaX)%Q
    else newWidth in
  let '(newWidth, newLeft) :=
    if includes "left" handle
    then ((startWidth - inject_Z deltaX)%Q, startLeft + deltaX)
    else (newWidth, newLeft) in
  let newHeight :=
    if includes "bottom" handle then (startHeight + inject_Z deltaY)%Q
    else newHeight in
  let '(newHeight, newTop) :=
    if includes "top" handle
    then ((startHeight - inject_Z deltaY)%Q, startTop + deltaY)
    else (newHeight, newTop) in
  mkPosition newTop newLeft (Some (js_max 50 newWidth))
    (Some (js_max 50 newHeight)).

(** [handleMouseMove(e)], lines 118 to 170.  [!selectedBell] holds for
    [null] and for the empty string. *)
Definition handleMouseMove (e : MouseEvent) (c : Container) : Container :=
  if negb (editMode (world c)) then c
  else
    match selectedBell (world c) with
    | None => c
    | Some selected =>
        if negb (truthy selected) then c
        else
          match dragRef c with
          | Resizing handle startX startY startWidth startHeight
                     startLeft startTop =>
              setBellPositions
                (<[selected :=
                     resized handle startX startY startWidth startHeight
                       startLeft startTop e]> (bellPositions c)) c
          | Dragging startX startY =>
              let prev := bellPositions c !! selected in
              setBellPositions
                (<[selected :=
                     mkPosition (clientY e - startY) (clientX e - startX)
                       (prev ≫= width_px) (prev ≫= height_px)]>
                   (bellPositions c)) c
          | Idle => c
          end
    end.

(** [handleMouseUp()], lines 172 to 174. *)
Definition handleMouseUp (c : Container) : Container := set_dragRef Idle c.

(** What happens on the page of the container: an action of the world
    (a click on a bell needs a bell that is rendered, that is, a name
    with an entry in [bellPositions]); a press of the mouse button on a
    rendered bell; a move or a release of the mouse anywhere in the
    window, which reach [handleMouseMove] and [handleMouseUp] only while
    the listeners of lines 180 to 189 are attached, that is, in edit
    mode. *)
Inductive UiAction : Type :=
| Plain (a : Action)
| MouseDown (e : MouseEvent) (note : string)
| MouseMove (e : MouseEvent)
| MouseUp.

(** A bell is rendered for every entry of [bellPositions], line 211. *)
Definition rendered (note : string) (c : Container) : bool :=
  bool_decide (is_Some (bellPositions c !! note)).

Definition do_ui (a : UiAction) (c : Container) : Result Container :=
  match a with
  | Plain a =>
      let enabled :=
        match a with
        | ClickBell n _ => rendered n c
        | _ => true
        end in
      if enabled then
        match do_action a (world c) with
        | Ok w => Done (set_world w c)
        | Threw msg => Raised msg
        | NotEnabled => Refused
        end
      else Refused
  | MouseDown e note =>
      if rendered note c then handleMouseDown e note c else Refused
  | MouseMove e =>
      Done (if editMode (world c) then handleMouseMove e c else c)
  | MouseUp =>
      Done (if editMode (world c) then handleMouseUp c else c)
  end.

Fixpoint run_ui (acts : list UiAction) (c : Container) : Result Container :=
  match acts with
  | [] => Done c
  | a :: rest =>
      match do_ui a c with
      | Done c' => run_ui rest c'
      | other => other
      end
  end.

(** Every box has a width and a height, of at least 50 pixels. *)
Definition at_least_50 (p : Position) : Prop :=
  (exists q, width_px p = Some q /\ (50 <= q)%Q) /\
  (exists q, height_px p = Some q /\ (50 <= q)%Q).

(** The bells on the page are the five bells, and the selected bell, if
    any, is one of them. *)
Definition five_bells (c : Container) : Prop :=
  (forall n, is_Some (bellPositions c !! n) <-> n ∈ bell_notes) /\
  (forall n, selectedBell (world c) = Some n -> n ∈ bell_notes).


(** A pointer position, for a move. *)
Definition pointer (x y : Z) : MouseEvent := mkMouse x y None 0 0.

(** ** MidiUploader

    [handleFileUpload] is an async function: it runs up to
    [await fetch(...)], and goes on when the request has settled.  The
    two parts are two functions; between them anything else may happen
    on the page.  The state updates of one part are committed together,
    when the part has run. *)

Module MidiUploader.

(** [event.target.files[0]], of which only [size] (in bytes) is read. *)
Record File : Type := mkFile { size : Z }.

(** What [await response.json()] gives: the promise rejects, or the data
    are an object, with a field [error] (a string) or without, and with a
    field [sequence] (an array of objects with a string [note] and a whole
    number [time]) or without. *)
Inductive Json : Type :=
| JsonRejects (message : string)
| JsonData (error : option string) (sequence : option (list NoteEvent)).

(** What [await fetch(...)] gives: the promise rejects (no connection, a
    refused cross-origin request), or there is a response. *)
Inductive Fetched : Type :=
| FetchRejects (message : string)
| Response (ok : bool) (status : nat) (statusText : string) (body : Json).

(** The three state cells of the component. *)
Record State : Type := mkState {
  error : string;
  loading : bool;
  progress : Z
}.

Definition init : State := mkState "" false 0.

Definition setError (v : string) (u : State) : State :=
  mkState v (loading u) (progress u).
Definition setLoading (v : bool) (u : State) : State :=
  mkState (error u) v (progress u).
Definition setProgress (v : Z) (u : State) : State :=
  mkState (error u) (loading u) v.

Definition too_large : string :=
  "File is too large. Please choose a smaller MIDI file (max 5MB).".

(** The message of the TypeError that [data.sequence.map] raises when
    [data.sequence] is undefined; the text is the engine's. *)
Definition map_of_undefined : string :=
  "Cannot read properties of undefined (reading 'map')".

(** Lines 12 to 25: the new state, and whether the request is sent. *)
Definition handleFileUpload_begin (file : option File) (u : State)
  : State * bool :=
  match file with
  | None => (u, false)
  | Some f =>
      if 5000000 <? size f then (setError too_large u, false)
      else (setProgress 10 (setError "" (setLoading true u)), true)
  end.

(** Lines 48 to 51: [data.sequence.map(...)], which throws when
    [data.sequence] is undefined. *)
Definition mapped (sequence : option (list NoteEvent))
  : string + list NoteEvent :=
  match sequence with
  | None => inl map_of_undefined
  | Some notes => inr (map (fun n => mkEvent (note n) (time n)) notes)
  end.

(** The [try] block, lines 28 to 51: the message of what is thrown, or
    [bellSequence]. *)
Definition received (r : Fetched) : string + list NoteEvent :=
  match r with
  | FetchRejects message => inl message
  | Response ok status statusText body =>
      if negb ok then
        inl ("Server returned " +:+ pretty status +:+ ": " +:+ statusText)
      else
        match body with
        | JsonRejects message => inl message
        | JsonData error sequence =>
            match error with
            | Some message =>
                if truthy message then inl message else mapped sequence
            | None => mapped sequence
            end
        end
  end.

(** Lines 53 to 62: the new state, and the argument of [onMidiProcessed]
    when it is called. *)
Definition handleFileUpload_settle (r : Fetched) (u : State)
  : State * option (list NoteEvent) :=
  match received r with
  | inr bellSequence =>
      (setProgress 0 (setLoading false (setProgress 100 u)), Some bellSequence)
  | inl message =>
      (setProgress 0
         (setLoading false (setError ("Upload failed: " +:+ message) u)),
       None)
  end.

End MidiUploader.

(** ** The page

    [App] holds [sequence] and renders the uploader, the bells and,
    once [sequence] is not null, the player with the button.  The state
    of the player is in the world from the start; nothing reads or writes
    it before the button is there. *)

Module App.

Record State : Type := mkState {
  uploader : MidiUploader.State;
  (** the requests that have not settled, and the number of the next *)
  in_flight : list nat;
  next_request : nat;
  sequence : option (list NoteEvent);
  container : Container
}.

Definition init (t0 : Z) : State :=
  mkState MidiUploader.init [] 0%nat None (container_init t0).

Definition set_container (c : Container) (s : State) : State :=
  mkState (uploader s) (in_flight s) (next_request s) (sequence s) c.

(** [handleMidiProcessed(bellSequence)]. *)
Definition handleMidiProcessed (bellSequence : list NoteEvent) (s : State)
  : State :=
  mkState (uploader s) (in_flight s) (next_request s) (Some bellSequence)
    (container s).

(** What happens on the page: something on the bells or in the browser
    ([OnPage], but not the actions that stand for the button and the
    life cycle of the player); a file is chosen, or the file dialog is
    closed without one; a request settles; the button of the player is
    clicked, which is there once [sequence] is not null. *)
Inductive Action : Type :=
| OnPage (a : UiAction)
| ChooseFile (file : option MidiUploader.File)
| Settle (request : nat) (r : MidiUploader.Fetched)
| PressButton.

Definition on_page (a : UiAction) : bool :=
  match a with
  | Plain (ClickButton _) | Plain (CallPlay _) | Plain CallStop
  | Plain Unmount => false
  | _ => true
  end.

Definition lift (s : State) (o : Result Container) : Result State :=
  match o with
  | Done c => Done (set_container c s)
  | Raised msg => Raised msg
  | Refused => Refused
  end.

Definition do_app (a : Action) (s : State) : Result State :=
  match a with
  | OnPage a =>
      if on_page a then lift s (do_ui a (container s)) else Refused
  | ChooseFile file =>
      let '(u, sent) := MidiUploader.handleFileUpload_begin file (uploader s) in
      Done (mkState u
              (if sent then in_flight s ++ [next_request s] else in_flight s)
              (if sent then S (next_request s) else next_request s)
              (sequence s) (container s))
  | Settle request r =>
      if bool_decide (request ∈ in_flight s) then
        let '(u, delivered) :=
          MidiUploader.handleFileUpload_settle r (uploader s) in
        let s1 :=
          mkState u (filter (fun k => k ≠ request) (in_flight s))
            (next_request s) (sequence s) (container s) in
        Done match delivered with
             | Some bellSequence => handleMidiProcessed bellSequence s1
             | None => s1
             end
      else Refused
  | PressButton =>
      match sequence s with
      | Some notes =>
          lift s (do_ui (Plain (ClickButton (Some notes))) (container s))
      | None => Refused
      end
  end.

Fixpoint run_app (acts : list Action) (s : State) : Result State :=
  match acts with
  | [] => Done s
  | a :: rest =>
      match do_app a s with
      | Done s' => run_app rest s'
      | other => other
      end
  end.


End App.

(** * Vocabulary of the statements *)

(** ** What the loop of [playSequence] arms *)

(** The timers that the loop arms, in order: the timer of the event at
    [index] gets handle [h] and is due [time] milliseconds after [t0]. *)
Fixpoint armed (sid : nat) (startTime totalDuration : Z) (len index h : nat)
    (t0 : Z) (events : list NoteEvent) : list Timer :=
  match events with
  | [] => []
  | event :: rest =>
      mkTimer h (t0 + Z.max 0 (time event))
        (EventCb sid startTime totalDuration event index len)
      :: armed sid startTime totalDuration len (S index) (S h) t0 rest
  end.

(** The event timers of a call of [playSequence] with this sequence. *)
Definition armed_by (sequence : option (list NoteEvent)) (w : World) : list Timer :=
  match sequence with
  | Some (first :: others) =>
      armed (sessions w) (now w) (time (List.last (first :: others) first))
        (length (first :: others)) 0 (nextHandle w) (now w) (first :: others)
  | _ => []
  end.

(** The sequence, if any, that comes with an action. *)
Definition seq_of (a : Action) : option (list NoteEvent) :=
  match a with
  | CallPlay sequence | ClickButton sequence => sequence
  | _ => None
  end.

(** The sequence that an action hands to [playSequence], if it calls it. *)
Definition played (a : Action) (w : World) : option (list NoteEvent) :=
  match a with
  | CallPlay sequence => sequence
  | ClickButton sequence => if isPlaying w then None else sequence
  | _ => None
  end.

(** ** Steps that leave the player alone

    [handleBellClick], the [activeNote] effect and the flag-clearing
    callback only add timers that are not event timers and observations
    that are not calls of [onBellPlay]; they read and write no field of
    the player. *)
Record bells_step (w w' : World) : Prop := {
  bs_now : now w' = now w;
  bs_isPlaying : isPlaying w' = isPlaying w;
  bs_progress : progress w' = progress w;
  bs_playerRef : playerRef w' = playerRef w;
  bs_mounted : mounted w' = mounted w;
  bs_sessions : sessions w' = sessions w;
  bs_next : (nextHandle w <= nextHandle w')%nat;
  bs_timers :
    exists extra,
      timers w' = timers w ++ extra /\
      Forall (fun t => is_event t = false /\
                       (nextHandle w <= tid t < nextHandle w')%nat) extra;
  bs_trace :
    exists ext,
      trace w' = ext ++ trace w /\ Forall (fun o => is_bellplay o = false) ext
}.

(** ** More invariants *)

(** An event timer is due no earlier than [time] milliseconds after the
    start of its session, and the last event of the sequence is the one
    whose [time] is [totalDuration]. *)
Definition cb_timed (t : Timer) : Prop :=
  match cb t with
  | EventCb _ startTime totalDuration event index len =>
      startTime + time event <= due t /\
      (Z.of_nat index = Z.of_nat len - 1 -> time event = totalDuration)
  | _ => True
  end.

(** The last event of the sequence has a positive [time]. *)
Definition positive_duration (a : Action) : Prop :=
  match seq_of a with
  | Some (first :: others) => 0 < time (List.last (first :: others) first)
  | _ => True
  end.

(** The session of an event timer has a positive duration. *)
Definition cb_positive (t : Timer) : Prop :=
  match cb t with
  | EventCb _ _ totalDuration _ _ _ => 0 < totalDuration
  | _ => True
  end.

(** The player is unmounted and no event timer is pending. *)
Definition silent (w : World) : Prop :=
  mounted w = false /\ Forall (fun t => is_event t = false) (timers w).

(** [playerRef.current] only ever holds handles returned for event timers:
    they are below [nextHandle], and no pending timer of another kind has
    one of them. *)
Definition handles_ok (w : World) : Prop :=
  forall handles,
    playerRef w = Some handles ->
    Forall (fun h => (h < nextHandle w)%nat) handles /\
    Forall (fun t => is_event t = false -> tid t ∉ handles) (timers w).

(** The names under which [audioRefs.current] holds a clip or nothing. *)
Definition plain_name (n : string) : Prop := n ∉ object_prototype_keys.

(** ** Progress *)

(** What an event callback stores in [progress] after [elapsed]
    milliseconds of a session of length [totalDuration]. *)
Definition progress_at (elapsed totalDuration : Z) : JSNum :=
  js_min (percentage_of elapsed totalDuration) (js_of_Z 100).

(** ** A whole session on a browser whose timers fire when due *)

(** Times that do not decrease, starting at or after [prev]. *)
Fixpoint sorted_from (prev : Z) (events : list NoteEvent) : Prop :=
  match events with
  | [] => True
  | ev :: rest => prev <= time ev /\ sorted_from (time ev) rest
  end.

(** No note equals the note of the event before it, and no note is the
    empty string. *)
Fixpoint no_repeat (prev : option string) (events : list NoteEvent) : Prop :=
  match events with
  | [] => True
  | ev :: rest =>
      Some (note ev) <> prev /\ truthy (note ev) = true /\
      no_repeat (Some (note ev)) rest
  end.

(** The timers of the events fire in turn, each at the very millisecond at
    which it is due; [h] is the handle of the first one and [prev] the
    time of the event before it. *)
Fixpoint on_time (h : nat) (prev : Z) (events : list NoteEvent) : list Action :=
  match events with
  | [] => []
  | ev :: rest => Tick (time ev - prev) :: Fire h :: on_time (S h) (time ev) rest
  end.

(** The session that starts in the initial world and in which every timer
    fires when it is due. *)
Definition play_through (sequence : list NoteEvent) : list Action :=
  CallPlay (Some sequence) :: on_time 0 0 sequence.

(** One call of [onBellPlay] for each event, at its time. *)
Fixpoint bellplay_obs (sid : nat) (st : Z) (index : nat) (events : list NoteEvent)
  : list Obs :=
  match events with
  | [] => []
  | ev :: rest =>
      ObsBellPlay sid index (note ev) (st + time ev)
      :: bellplay_obs sid st (S index) rest
  end.

(** The ring, if any, that follows a call of [onBellPlay] for note [n]
    when [activeNote] held [prev]: none when the note is the same, or is
    the empty string. *)
Definition ring_of (prev : option string) (n : string) (at_ms : Z) : list Obs :=
  if decide (Some n = prev) then []
  else if truthy n then [ObsRing n at_ms] else [].

(** One ring for each event whose note differs from the note before it. *)
Fixpoint ring_obs (prev : option string) (st : Z) (events : list NoteEvent)
  : list Obs :=
  match events with
  | [] => []
  | ev :: rest =>
      ring_of prev (note ev) (st + time ev) ++ ring_obs (Some (note ev)) st rest
  end.

(** ** Concrete sessions *)

Definition seq_demo : list NoteEvent :=
  [mkEvent "Do" 0; mkEvent "Mi" 500; mkEvent "Sol" 1000].

Definition seq_single_at_zero : list NoteEvent := [mkEvent "Do" 0].

Definition seq_repeated_note : list NoteEvent :=
  [mkEvent "Do" 0; mkEvent "Do" 500].

Definition seqA : list NoteEvent := [mkEvent "Do" 100].
Definition seqB : list NoteEvent := [mkEvent "Mi" 1000].

(** A click on a bell, away from its resize handles. *)
Definition click : ClickEvent := mkClick false.

(** The three-note example of the specification, up to the moment when
    the timer of "Sol" is due. *)
Definition demo_acts : list Action :=
  [CallPlay (Some seq_demo); Fire 0; Tick 500; Fire 1; Tick 500].
Definition demo_w : World := world_of (run demo_acts (init 0)).
Definition demo_last : Timer :=
  mkTimer 2 1000 (EventCb 0 0 1000 (mkEvent "Sol" 1000) 2 3).

(** ** More invariants of the player, the bells and the page *)

(** [isPlaying] is true exactly when [playerRef.current] holds a list, and
    an idle player is at 0 percent. *)
Definition player_coherent (w : World) : Prop :=
  if isPlaying w then playerRef w <> None
  else playerRef w = None /\ progress w = JFin 0.

(** Two event timers were armed by the same call of [playSequence]. *)
Definition same_session (t1 t2 : Timer) : Prop :=
  match cb t1, cb t2 with
  | EventCb s1 st1 td1 _ _ l1, EventCb s2 st2 td2 _ _ l2 =>
      s1 = s2 /\ st1 = st2 /\ td1 = td2 /\ l1 = l2
  | _, _ => True
  end.

(** An event timer belongs to the session that was started last. *)
Definition of_latest (w : World) (t : Timer) : Prop :=
  match cb t with
  | EventCb sid _ _ _ _ _ => S sid = sessions w
  | _ => True
  end.

(** All pending event timers belong to one session, the latest. *)
Definition one_session (w : World) : Prop :=
  Forall (of_latest w) (timers w) /\
  forall t1 t2, t1 ∈ timers w -> t2 ∈ timers w -> same_session t1 t2.

(** The timer clears the flag of [n] and is due within 200 ms. *)
Definition clears (n : string) (w : World) (t : Timer) : Prop :=
  cb t = ClearFlagCb n /\ due t <= now w + 200.

(** No two pending timers have the same handle. *)
Definition unique_handles (w : World) : Prop := NoDup (tid <$> timers w).

(** Every bell that is lit has a pending timer that unlights it. *)
Definition lit_bells_clear (w : World) : Prop :=
  forall n, flag n w = true -> exists t, t ∈ timers w /\ clears n w t.

(** [Math.round(x)]: the nearest integer, the larger one of two that are
    equally near. *)
Definition js_round (a : JSNum) : JSNum :=
  match a with
  | JFin q => js_of_Z (Qfloor (q + (1 # 2))%Q)
  | other => other
  end.

(** The number that the player renders in front of the percent sign,
    line 63. *)
Definition progress_text (w : World) : JSNum := js_round (progress w).

(** The five bells are on the page, none of them too small. *)
Definition layout_ok (c : Container) : Prop :=
  five_bells c /\
  forall n p, bellPositions c !! n = Some p -> at_least_50 p.

(** A click on the edit toggle. *)
Definition is_toggle (a : UiAction) : bool :=
  match a with Plain ToggleEdit => true | _ => false end.

(** While the bar of the uploader is shown it is at 10, and otherwise
    [progress] is 0. *)
Definition bar_inv (s : App.State) : Prop :=
  if MidiUploader.loading (App.uploader s)
  then MidiUploader.progress (App.uploader s) = 10 /\ App.in_flight s <> []
  else MidiUploader.progress (App.uploader s) = 0.


(** ** More concrete sessions *)

(** The three-note example played to its end, every timer on time. *)
Definition played_w : World := world_of (run (play_through seq_demo) (init 0)).
Definition completion_timer : Timer := mkTimer 5 1500 (StopCb 0).

(** The three-note example is stopped when "Sol" is due, and another
    sequence is played to its end. *)
Definition next_acts : list Action := [Tick 1000; Fire 5].
Definition restart_acts : list Action := CallPlay (Some seqB) :: next_acts.
Definition restarted_w : World :=
  world_of (run restart_acts (stopPlayback demo_w)).

(** The three-note example is unmounted when "Sol" is due; then a bell is
    clicked. *)
Definition unmounted_w : World :=
  world_of (run [ClickBell "Do" click] (unmount demo_w)).

(** The three-note example, up to the moment when the timer of "Mi" is
    due, and the two worlds after the timers of "Mi" and of "Sol". *)
Definition mi_due_w : World :=
  world_of (run [CallPlay (Some seq_demo); Fire 0; Tick 500] (init 0)).
Definition mi_timer : Timer :=
  mkTimer 1 500 (EventCb 0 0 1000 (mkEvent "Mi" 500) 1 3).
Definition mi_done_w : World := world_of (do_action (Fire 1) mi_due_w).
Definition sol_done_w : World := world_of (do_action (Fire 2) demo_w).

(** The three-note example is stopped when "Sol" is due. *)
Definition stopped_acts : list Action := demo_acts ++ [CallStop].
Definition stopped_w : World := world_of (run stopped_acts (init 0)).

(** One click on the bell "Do". *)
Definition clicked_w : World :=
  world_of (run [ClickBell "Do" click] (init 0)).

(** The page in edit mode, and a gesture on the bell "Do", whose box is
    at (685, 87): the button goes down at (700, 100). *)
Definition container_of (o : Result Container) : Container :=
  match o with Done c => c | _ => container_init 0 end.

Definition edit_c : Container :=
  container_of (run_ui [Plain ToggleEdit] (container_init 0)).

Definition do_position : Position :=
  mkPosition 87 685 (Some 112.59999084472656%Q) (Some 128.60000610351562%Q).

Definition press : MouseEvent := mkMouse 700 100 None 0 0.
Definition press_handle : MouseEvent :=
  mkMouse 685 87 (Some "top-left"%string) 100 120.

Definition gesture : list UiAction :=
  [Plain ToggleEdit; MouseDown press "Do"; MouseMove (pointer 710 105);
   MouseMove (pointer 720 130); MouseUp].
Definition after_gesture : Container :=
  container_of (run_ui gesture (container_init 0)).


Definition outside_acts : list UiAction :=
  [MouseDown press "Do"; MouseMove (pointer 710 105); MouseUp;
   Plain (ClickBell "Do" click)].

(** A page on which two files were chosen: the first upload succeeds,
    the second one fails. *)
Definition page_of (o : Result App.State) : App.State :=
  match o with Done s => s | _ => App.init 0 end.

Definition small_file : MidiUploader.File := MidiUploader.mkFile 1000.

Definition answer_ok (notes : list NoteEvent) : MidiUploader.Fetched :=
  MidiUploader.Response true 200 "OK"
    (MidiUploader.JsonData None (Some notes)).

Definition loading_page : App.State :=
  page_of (App.run_app [App.ChooseFile (Some small_file)] (App.init 0)).


(** A melody is started in edit mode. *)
Definition edit_play_acts : list Action :=
  [ToggleEdit; CallPlay (Some seq_demo)].
Definition edit_play_w : World := world_of (run edit_play_acts (init 0)).
Definition do_timer : Timer :=
  mkTimer 0 0 (EventCb 0 0 1000 (mkEvent "Do" 0) 0 3).

(** A page on which a melody was uploaded and started, and a bell was
    pressed in edit mode. *)
Definition busy_acts : list App.Action :=
  [App.ChooseFile (Some small_file); App.Settle 0 (answer_ok seq_demo);
   App.PressButton; App.OnPage (Plain (Fire 0));
   App.OnPage (Plain ToggleEdit); App.OnPage (MouseDown press "Mi");
   App.OnPage (MouseMove (pointer 0 0))].
Definition busy_page : App.State :=
  page_of (App.run_app busy_acts (App.init 0)).

(** * Proofs *)

Arguments stopPlayback : simpl never.
Arguments playSequence : simpl never.

(** Strips the guard of an action of the button or of the component. *)
Ltac guarded :=
  match goal with
  | |- context [if mounted ?w then _ else _] =>
      destruct (mounted w); [|discriminate]
  | H : context [if mounted ?w then _ else _] |- _ =>
      destruct (mounted w); [|discriminate H]
  end.

Create HintDb player.

(** ** Numbers *)

Lemma Qred_le_r (x y : Q) : (x <= y)%Q -> (x <= Qred y)%Q.
Proof. intros H. now rewrite Qred_correct. Qed.

Lemma percentage_of_pos (e d : Z) :
  0 < d ->
  percentage_of e d = JFin (Qred (Qred (inject_Z e / inject_Z d) * inject_Z 100)).
Proof.
  intros Hd. unfold percentage_of, js_div, js_of_Z.
  destruct (Qeq_bool (inject_Z d) 0) eqn:E.
  - apply Qeq_bool_eq in E. unfold Qeq in E. simpl in E. lia.
  - reflexivity.
Qed.

Lemma ratio_nonneg (e d : Z) :
  0 <= e -> 0 < d -> (0 <= inject_Z e / inject_Z d)%Q.
Proof.
  intros He Hd. apply Qle_shift_div_l.
  - change 0%Q with (inject_Z 0). rewrite <- Zlt_Qlt. exact Hd.
  - rewrite Qmult_0_l. change 0%Q with (inject_Z 0). rewrite <- Zle_Qle. exact He.
Qed.

Lemma ratio_ge_1 (e d : Z) :
  d <= e -> 0 < d -> (1 <= inject_Z e / inject_Z d)%Q.
Proof.
  intros He Hd. apply Qle_shift_div_l.
  - change 0%Q with (inject_Z 0). rewrite <- Zlt_Qlt. exact Hd.
  - rewrite Qmult_1_l. rewrite <- Zle_Qle. exact He.
Qed.

Lemma ratio_mono (e1 e2 d : Z) :
  e1 <= e2 -> 0 < d -> (inject_Z e1 / inject_Z d <= inject_Z e2 / inject_Z d)%Q.
Proof.
  intros He Hd. unfold Qdiv. apply Qmult_le_compat_r.
  - rewrite <- Zle_Qle. exact He.
  - apply Qinv_le_0_compat. change 0%Q with (inject_Z 0).
    rewrite <- Zle_Qle. lia.
Qed.

(** ** Timers and [stopPlayback] *)

Lemma set_timers_id (w : World) : set_timers (timers w) w = w.
Proof. destruct w; reflexivity. Qed.

(** Two worlds with the same fields are the same world. *)
Lemma World_ext (w w' : World) :
  now w = now w' -> nextHandle w = nextHandle w' -> timers w = timers w' ->
  isPlaying w = isPlaying w' -> progress w = progress w' ->
  playerRef w = playerRef w' -> mounted w = mounted w' ->
  sessions w = sessions w' -> activeNote w = activeNote w' ->
  playingNotes w = playingNotes w' -> editMode w = editMode w' ->
  selectedBell w = selectedBell w' -> trace w = trace w' ->
  w = w'.
Proof. destruct w, w'; simpl; intros; subst; reflexivity. Qed.

(** Clearing a list of handles removes exactly the timers with these
    handles and touches nothing else. *)
Lemma clear_all (handles : list nat) (w : World) :
  fold_left (fun acc timeout => clearTimeout timeout acc) handles w
  = set_timers (filter (fun t => tid t ∉ handles) (timers w)) w.
Proof.
  revert w. induction handles as [|h hs IH]; intros w; simpl.
  - rewrite <- (set_timers_id w) at 1. f_equal.
    induction (timers w) as [|t l IHl]; [reflexivity|].
    rewrite filter_cons_True by apply not_elem_of_nil. now f_equal.
  - rewrite IH. unfold clearTimeout, set_timers; simpl. f_equal.
    rewrite list_filter_filter. apply list_filter_iff.
    intros t. rewrite not_elem_of_cons. tauto.
Qed.

Lemma stopPlayback_unfold (w : World) :
  stopPlayback w =
  setProgress (JFin 0)
    (setIsPlaying false
       match playerRef w with
       | Some handles =>
           set_playerRef None
             (set_timers (filter (fun t => tid t ∉ handles) (timers w)) w)
       | None => w
       end).
Proof.
  unfold stopPlayback. destruct (playerRef w); [rewrite clear_all|]; reflexivity.
Qed.

Lemma stopPlayback_isPlaying (w : World) : isPlaying (stopPlayback w) = false.
Proof. reflexivity. Qed.

Lemma stopPlayback_progress (w : World) : progress (stopPlayback w) = JFin 0.
Proof. reflexivity. Qed.

Lemma stopPlayback_playerRef (w : World) : playerRef (stopPlayback w) = None.
Proof. rewrite stopPlayback_unfold. destruct (playerRef w) eqn:E; simpl; auto. Qed.

Lemma stopPlayback_timers (w : World) :
  timers (stopPlayback w) =
  match playerRef w with
  | Some handles => filter (fun t => tid t ∉ handles) (timers w)
  | None => timers w
  end.
Proof. rewrite stopPlayback_unfold. destruct (playerRef w) eqn:E; simpl; auto. Qed.

Lemma stopPlayback_frame (w : World) :
  now (stopPlayback w) = now w /\ nextHandle (stopPlayback w) = nextHandle w
  /\ sessions (stopPlayback w) = sessions w /\ trace (stopPlayback w) = trace w
  /\ mounted (stopPlayback w) = mounted w
  /\ activeNote (stopPlayback w) = activeNote w
  /\ playingNotes (stopPlayback w) = playingNotes w
  /\ editMode (stopPlayback w) = editMode w.
Proof. rewrite stopPlayback_unfold. destruct (playerRef w); simpl; tauto. Qed.

Lemma stopPlayback_subset (w : World) (t : Timer) :
  t ∈ timers (stopPlayback w) -> t ∈ timers w.
Proof.
  rewrite stopPlayback_timers. destruct (playerRef w); [|tauto].
  rewrite list_elem_of_filter. tauto.
Qed.

(** [stopPlayback] twice is [stopPlayback] once. *)
Lemma stopPlayback_idempotent (w : World) :
  stopPlayback (stopPlayback w) = stopPlayback w.
Proof.
  rewrite (stopPlayback_unfold (stopPlayback w)), stopPlayback_playerRef.
  rewrite stopPlayback_unfold. destruct (playerRef w); reflexivity.
Qed.

(** In a world without a session, [stopPlayback] changes nothing. *)
Lemma stopPlayback_idle (w : World) :
  playerRef w = None -> isPlaying w = false -> progress w = JFin 0 ->
  stopPlayback w = w.
Proof.
  intros H1 H2 H3. unfold stopPlayback. rewrite H1.
  destruct w; simpl in *. now subst.
Qed.

(** In a well-formed world every pending event timer is cleared. *)
Lemma stopPlayback_no_event (w : World) (t : Timer) :
  wf w -> t ∈ timers (stopPlayback w) -> is_event t = false.
Proof.
  intros Hwf Ht. pose proof (stopPlayback_subset _ _ Ht) as Hin.
  unfold wf in Hwf. rewrite Forall_forall in Hwf.
  destruct (Hwf _ Hin) as [_ Hcb]. unfold is_event.
  destruct (cb t) eqn:E; try reflexivity.
  simpl in Hcb. destruct Hcb as [[hs [Hp Hh]] _].
  rewrite stopPlayback_timers, Hp, list_elem_of_filter in Ht. tauto.
Qed.

Lemma wf_init (t0 : Z) : wf (init t0).
Proof. constructor. Qed.

Lemma wf_stopPlayback (w : World) : wf w -> wf (stopPlayback w).
Proof.
  intros Hwf. unfold wf. rewrite Forall_forall. intros t Ht.
  pose proof (stopPlayback_no_event _ _ Hwf Ht) as Hne.
  pose proof (stopPlayback_subset _ _ Ht) as Hin.
  unfold wf in Hwf. rewrite Forall_forall in Hwf.
  destruct (Hwf _ Hin) as [Hlt _].
  destruct (stopPlayback_frame w) as (_ & Hn & _).
  split; [now rewrite Hn|].
  unfold is_event in Hne. unfold cb_ok. now destruct (cb t).
Qed.

(** ** [playSequence] *)

Section Arming.

  (** The values that every closure of one session captures. *)
  Variables (sid : nat) (st td : Z) (len : nat).

Lemma arm_eq (events : list NoteEvent) :
  forall index w handles,
    playerRef w = Some handles ->
    arm sid st td len index events w =
    set_playerRef (Some (handles ++ seq (nextHandle w) (length events)))
      (set_nextHandle (nextHandle w + length events)%nat
         (set_timers
            (timers w ++ armed sid st td len index (nextHandle w) (now w) events)
            w)).
Proof.
  induction events as [|ev rest IH]; intros index w handles Hp.
  - apply World_ext; cbn; try reflexivity.
    + lia.
    + now rewrite app_nil_r.
    + now rewrite app_nil_r.
  - cbn [arm setTimeout]. unfold push_playerRef.
    cbn [playerRef set_nextHandle set_timers]. rewrite Hp.
    erewrite IH by reflexivity.
    apply World_ext; cbn; try reflexivity.
    + lia.
    + now rewrite <- app_assoc.
    + now rewrite <- app_assoc.
Qed.

Lemma armed_spec (events : list NoteEvent) :
  forall index h t0 t,
    t ∈ armed sid st td len index h t0 events ->
    exists k ev,
      events !! k = Some ev /\
      t = mkTimer (h + k) (t0 + Z.max 0 (time ev))
            (EventCb sid st td ev (index + k) len).
Proof.
  induction events as [|e rest IH]; intros index h t0 t Ht; simpl in Ht.
  - now apply elem_of_nil in Ht.
  - apply elem_of_cons in Ht as [->|Ht].
    + exists 0%nat, e. rewrite !Nat.add_0_r. now split.
    + destruct (IH _ _ _ _ Ht) as (k & ev & Hk & ->).
      exists (S k), ev. split; [exact Hk|].
      now rewrite <- !Nat.add_succ_comm.
Qed.

Lemma armed_handles (events : list NoteEvent) index h t0 :
  Forall (fun t => (h <= tid t)%nat)
    (armed sid st td len index h t0 events).
Proof.
  rewrite Forall_forall. intros t Ht.
  apply armed_spec in Ht as (k & ev & _ & ->). simpl. lia.
Qed.

End Arming.

Lemma playSequence_unfold (first : NoteEvent) (others : list NoteEvent) (w : World) :
  let sequence := first :: others in
  let s := stopPlayback w in
  playSequence (Some sequence) w =
  set_playerRef (Some (seq (nextHandle w) (length sequence)))
    (set_nextHandle (nextHandle w + length sequence)%nat
       (set_timers
          (timers s ++
           armed (sessions w) (now w) (time (List.last sequence first))
             (length sequence) 0 (nextHandle w) (now w) sequence)
          (set_sessions (S (sessions w))
             (set_playerRef (Some []) (setIsPlaying true s))))).
Proof.
  intros sequence s. subst sequence s. unfold playSequence. cbv zeta.
  destruct (stopPlayback_frame w) as (Hnow & Hnext & Hsess & _).
  erewrite arm_eq by reflexivity.
  apply World_ext;
    cbn [now nextHandle timers isPlaying progress playerRef mounted sessions
         activeNote playingNotes editMode selectedBell trace
         set_playerRef set_nextHandle set_timers set_sessions setIsPlaying];
    rewrite ?Hnow, ?Hnext, ?Hsess; reflexivity.
Qed.

Lemma wf_playSequence (sequence : option (list NoteEvent)) (w : World) :
  wf w -> wf (playSequence sequence w).
Proof.
  intros Hwf. destruct sequence as [[|first others]|]; try exact Hwf.
  rewrite playSequence_unfold. cbv zeta.
  remember (first :: others) as sequence eqn:Hseq.
  assert (Hlen : length sequence = S (length others)) by now subst.
  clear Hseq. unfold wf.
  cbn [timers set_playerRef set_nextHandle set_timers]. rewrite Forall_app. split.
  - rewrite Forall_forall. intros t Ht.
    pose proof (stopPlayback_no_event _ _ Hwf Ht) as Hne.
    pose proof (stopPlayback_subset _ _ Ht) as Hin.
    unfold wf in Hwf. rewrite Forall_forall in Hwf.
    destruct (Hwf _ Hin) as [Hlt _].
    split; [simpl; lia|].
    unfold is_event in Hne. unfold cb_ok. now destruct (cb t).
  - rewrite Forall_forall. intros t Ht.
    apply armed_spec in Ht as (k & ev & Hk & ->).
    apply lookup_lt_Some in Hk.
    destruct (stopPlayback_frame w) as (Hnow & _).
    split; [cbn; lia|]. cbn. split; [|lia].
    eexists; split; [reflexivity|].
    apply elem_of_seq. lia.
Qed.

(** ** The bells leave the player alone *)

Lemma bells_step_refl (w : World) : bells_step w w.
Proof.
  constructor; try reflexivity.
  - exists []. now rewrite app_nil_r.
  - exists []. now split.
Qed.

Lemma handleBellClick_bells (n : string) (e : option ClickEvent) (w w' : World) :
  handleBellClick n e w = Ok w' -> bells_step w w'.
Proof.
  unfold handleBellClick. destruct (editMode w).
  - destruct e as [ev|]; [|discriminate].
    destruct (on_resize_handle ev); intros [= <-].
    + apply bells_step_refl.
    + constructor; try reflexivity.
      * exists []. simpl. now rewrite app_nil_r.
      * exists []. now split.
  - destruct (audioRefs n); [|discriminate|]; intros [= <-];
      constructor; simpl; try reflexivity; try lia.
    + eexists. split; [reflexivity|].
      constructor; [|constructor]. split; [reflexivity|simpl; lia].
    + exists [ObsAudio n (now w); ObsRing n (now w)]. split; [reflexivity|].
      now repeat constructor.
    + eexists. split; [reflexivity|].
      constructor; [|constructor]. split; [reflexivity|simpl; lia].
    + exists [ObsRing n (now w)]. split; [reflexivity|]. now repeat constructor.
Qed.

Lemma wf_bells_step (w w' : World) : bells_step w w' -> wf w -> wf w'.
Proof.
  intros [Hnow _ _ Hp _ Hs Hn (extra & Ht & Hex) _] Hwf.
  unfold wf in *. rewrite Ht, Forall_app. split.
  - eapply Forall_impl; [exact Hwf|]. intros t [Hlt Hcb]. split; [lia|].
    unfold cb_ok in *. destruct (cb t); auto. now rewrite Hp, Hs, Hnow.
  - eapply Forall_impl; [exact Hex|]. intros t [Hne Hr]. split; [lia|].
    unfold is_event in Hne. unfold cb_ok. now destruct (cb t).
Qed.

Lemma quiet_bells_step (n : nat) (w w' : World) :
  bells_step w w' -> quiet n w -> quiet n w'.
Proof.
  intros [_ _ _ _ _ Hs _ (extra & Ht & Hex) _] [Hq1 Hq2].
  split; [now rewrite Hs|]. rewrite Ht, Forall_app. split; [exact Hq2|].
  eapply Forall_impl; [exact Hex|]. intros t [Hne _].
  unfold is_event in Hne. unfold cb_from. now destruct (cb t).
Qed.

Lemma activeNote_effect_bells (prev : option string) (w w' : World) :
  activeNote_effect prev w = Ok w' -> bells_step w w'.
Proof.
  unfold activeNote_effect. destruct (decide (activeNote w = prev)) as [Heq|Hne].
  - intros [= <-]. apply bells_step_refl.
  - destruct (activeNote w) as [a|]; [|intros [= <-]; apply bells_step_refl].
    destruct (truthy a); [apply handleBellClick_bells|].
    intros [= <-]. apply bells_step_refl.
Qed.

(** ** The callback of an event *)

Lemma event_callback_fields sid st td ev index len (w : World) :
  let w' := event_callback sid st td ev index len w in
  now w' = now w /\ isPlaying w' = isPlaying w /\ playerRef w' = playerRef w
  /\ mounted w' = mounted w /\ sessions w' = sessions w
  /\ activeNote w' = Some (note ev)
  /\ playingNotes w' = playingNotes w /\ editMode w' = editMode w
  /\ progress w' = js_min (percentage_of (now w - st) td) (js_of_Z 100)
  /\ trace w' = ObsBellPlay sid index (note ev) (now w) :: trace w.
Proof.
  unfold event_callback, percentage_of.
  destruct (Z.of_nat index =? Z.of_nat len - 1); simpl; tauto.
Qed.

Lemma event_callback_timers sid st td ev index len (w : World) :
  let w' := event_callback sid st td ev index len w in
  if Z.of_nat index =? Z.of_nat len - 1 then
    timers w' = timers w ++ [mkTimer (nextHandle w) (now w + 500) (StopCb sid)]
    /\ nextHandle w' = S (nextHandle w)
  else timers w' = timers w /\ nextHandle w' = nextHandle w.
Proof.
  unfold event_callback.
  destruct (Z.of_nat index =? Z.of_nat len - 1); simpl; tauto.
Qed.

Lemma wf_event_callback sid st td ev index len (w : World) :
  wf w -> wf (event_callback sid st td ev index len w).
Proof.
  intros Hwf.
  destruct (event_callback_fields sid st td ev index len w)
    as (Hnow & _ & Hp & _ & Hs & _).
  pose proof (event_callback_timers sid st td ev index len w) as Ht.
  cbv zeta in *. unfold wf in *.
  assert (Hold : Forall (timer_ok (event_callback sid st td ev index len w))
                   (timers w)).
  { eapply Forall_impl; [exact Hwf|]. intros t [Hlt Hcb]. split.
    - destruct (Z.of_nat index =? Z.of_nat len - 1); destruct Ht as [_ ->]; lia.
    - unfold cb_ok in *. destruct (cb t); auto. now rewrite Hp, Hs, Hnow. }
  destruct (Z.of_nat index =? Z.of_nat len - 1); destruct Ht as [-> Hn];
    [|exact Hold].
  rewrite Forall_app. split; [exact Hold|].
  repeat constructor. simpl. lia.
Qed.

Lemma quiet_event_callback n sid st td ev index len (w : World) :
  quiet n w -> quiet n (event_callback sid st td ev index len w).
Proof.
  intros [Hq1 Hq2].
  destruct (event_callback_fields sid st td ev index len w)
    as (_ & _ & _ & _ & Hs & _).
  pose proof (event_callback_timers sid st td ev index len w) as Ht.
  cbv zeta in *. split; [lia|].
  destruct (Z.of_nat index =? Z.of_nat len - 1); destruct Ht as [-> _];
    [|exact Hq2].
  rewrite Forall_app. split; [exact Hq2|]. now repeat constructor.
Qed.

(** ** Every action preserves the invariants *)

Lemma pending_Some (h : nat) (w : World) (t : Timer) :
  pending h w = Some t -> t ∈ timers w /\ tid t = h.
Proof.
  unfold pending. intros H. apply find_some in H as [Hin Hb].
  apply bool_decide_eq_true in Hb. split; [now apply list_elem_of_In|exact Hb].
Qed.

Lemma clearTimeout_subset (h : nat) (w : World) (t : Timer) :
  t ∈ timers (clearTimeout h w) -> t ∈ timers w.
Proof. simpl. rewrite list_elem_of_filter. tauto. Qed.

Lemma wf_clearTimeout (h : nat) (w : World) : wf w -> wf (clearTimeout h w).
Proof.
  unfold wf. rewrite !Forall_forall. intros Hwf t Ht.
  apply (Hwf t), (clearTimeout_subset h). exact Ht.
Qed.

Lemma quiet_clearTimeout (n h : nat) (w : World) :
  quiet n w -> quiet n (clearTimeout h w).
Proof.
  intros [Hq1 Hq2]. split; [exact Hq1|]. rewrite Forall_forall in *.
  intros t Ht. apply Hq2, (clearTimeout_subset h). exact Ht.
Qed.

Lemma clearFlag_bells (n : string) (w : World) :
  bells_step w (setPlayingNotes (<[n := false]> (playingNotes w)) w).
Proof.
  constructor; try reflexivity.
  - exists []. simpl. now rewrite app_nil_r.
  - exists []. now split.
Qed.

Lemma toggle_bells (w : World) : bells_step w (setEditMode (negb (editMode w)) w).
Proof.
  constructor; try reflexivity.
  - exists []. simpl. now rewrite app_nil_r.
  - exists []. now split.
Qed.

Lemma wf_run_callback (c : Callback) (w w' : World) :
  wf w -> run_callback c w = Ok w' -> wf w'.
Proof.
  intros Hwf. destruct c as [sid st td ev index len|sid|n]; simpl.
  - intros H. apply activeNote_effect_bells in H.
    eapply wf_bells_step; [exact H|]. now apply wf_event_callback.
  - intros [= <-]. now apply wf_stopPlayback.
  - intros [= <-]. eapply wf_bells_step; [apply clearFlag_bells|exact Hwf].
Qed.

Lemma wf_tick (d : Z) (w : World) : 0 <= d -> wf w -> wf (set_now (now w + d) w).
Proof.
  intros Hd Hwf. unfold wf in *. simpl.
  eapply Forall_impl; [exact Hwf|]. intros t [Hlt Hcb]. split; [exact Hlt|].
  unfold cb_ok in *. destruct (cb t); auto. simpl.
  destruct Hcb as (H1 & H2 & H3). repeat split; auto. lia.
Qed.

Lemma wf_set_mounted (b : bool) (w : World) : wf w -> wf (set_mounted b w).
Proof.
  intros Hwf. unfold wf in *. simpl.
  eapply Forall_impl; [exact Hwf|]. intros t [Hlt Hcb]. split; [exact Hlt|].
  unfold cb_ok in *. now destruct (cb t).
Qed.

#[local] Hint Resolve wf_stopPlayback wf_playSequence wf_clearTimeout
  wf_event_callback wf_set_mounted : player.

Lemma wf_do_action (a : Action) (w w' : World) :
  wf w -> do_action a w = Ok w' -> wf w'.
Proof.
  intros Hwf. destruct a as [d|h|s|s|  | |n e| ]; simpl.
  - destruct (0 <=? d) eqn:E; [|discriminate]. intros [= <-].
    apply wf_tick; [lia|exact Hwf].
  - destruct (pending h w) as [t|]; [|discriminate].
    destruct (due t <=? now w); [|discriminate].
    apply wf_run_callback. auto with player.
  - guarded. intros [= <-]. destruct (isPlaying w); auto with player.
  - guarded. intros [= <-]. auto with player.
  - guarded. intros [= <-]. auto with player.
  - guarded. intros [= <-]. unfold unmount. auto with player.
  - intros H. eapply wf_bells_step; [eapply handleBellClick_bells, H|exact Hwf].
  - intros [= <-]. eapply wf_bells_step; [apply toggle_bells|exact Hwf].
Qed.

Lemma wf_run (acts : list Action) :
  forall w w', wf w -> run acts w = Ok w' -> wf w'.
Proof.
  induction acts as [|a rest IH]; intros w w' Hwf; simpl.
  - now intros [= <-].
  - destruct (do_action a w) as [w1| |] eqn:E; try discriminate.
    apply IH. eapply wf_do_action; eauto.
Qed.

(** Every world that a run reaches from the initial one is well formed. *)
Lemma wf_reachable (t0 : Z) (acts : list Action) (w : World) :
  run acts (init t0) = Ok w -> wf w.
Proof. apply wf_run, wf_init. Qed.

(** ** Sessions that were cancelled stay silent *)

Lemma quiet_stopPlayback (n : nat) (w : World) :
  quiet n w -> quiet n (stopPlayback w).
Proof.
  intros [Hq1 Hq2]. destruct (stopPlayback_frame w) as (_ & _ & Hs & _).
  split; [now rewrite Hs|]. rewrite Forall_forall in *.
  intros t Ht. apply Hq2, stopPlayback_subset, Ht.
Qed.

Lemma playSequence_trace (sequence : option (list NoteEvent)) (w : World) :
  trace (playSequence sequence w) = trace w.
Proof.
  destruct sequence as [[|first others]|]; try reflexivity.
  rewrite playSequence_unfold. cbv zeta.
  destruct (stopPlayback_frame w) as (_ & _ & _ & Ht & _). exact Ht.
Qed.

Lemma quiet_playSequence (n : nat) (sequence : option (list NoteEvent)) (w : World) :
  quiet n w -> quiet n (playSequence sequence w).
Proof.
  intros Hq. destruct sequence as [[|first others]|]; try exact Hq.
  rewrite playSequence_unfold. cbv zeta.
  remember (first :: others) as sequence eqn:Hseq. clear Hseq.
  destruct (quiet_stopPlayback _ _ Hq) as [Hs1 Hs2]. destruct Hq as [Hq1 _].
  split; [simpl; lia|].
  cbn [timers set_playerRef set_nextHandle set_timers].
  rewrite Forall_app. split; [exact Hs2|].
  rewrite Forall_forall. intros t Ht.
  apply armed_spec in Ht as (k & ev & _ & ->). simpl. exact Hq1.
Qed.

(** After [stopPlayback], no session started so far has a pending event
    timer. *)
Lemma stopPlayback_quiet (w : World) : wf w -> quiet (sessions w) (stopPlayback w).
Proof.
  intros Hwf. destruct (stopPlayback_frame w) as (_ & _ & Hs & _).
  split; [now rewrite Hs|]. rewrite Forall_forall. intros t Ht.
  pose proof (stopPlayback_no_event _ _ Hwf Ht) as Hne.
  unfold is_event in Hne. unfold cb_from. now destruct (cb t).
Qed.

Lemma quiet_do_action (n : nat) (a : Action) (w w' : World) :
  quiet n w -> do_action a w = Ok w' ->
  quiet n w' /\
  exists ext, trace w' = ext ++ trace w /\ Forall (obs_from n) ext.
Proof.
  assert (Hbells : forall v v', quiet n v -> bells_step v v' ->
            quiet n v' /\
            exists ext, trace v' = ext ++ trace v /\ Forall (obs_from n) ext).
  { intros v v' Hq Hb. split; [eapply quiet_bells_step; eauto|].
    destruct (bs_trace _ _ Hb) as (ext & He & Hf). exists ext. split; [exact He|].
    eapply Forall_impl; [exact Hf|]. intros o Ho. now destruct o. }
  assert (Hnil : forall v v', trace v' = trace v ->
            exists ext, trace v' = ext ++ trace v /\ Forall (obs_from n) ext).
  { intros v v' H. exists []. split; [exact H|constructor]. }
  intros Hq. destruct a as [d|h|s|s|  | |m e| ]; simpl.
  - destruct (0 <=? d); [|discriminate]. intros [= <-].
    split; [exact Hq|]. now apply Hnil.
  - destruct (pending h w) as [t|] eqn:Hp; [|discriminate].
    destruct (due t <=? now w); [|discriminate].
    apply pending_Some in Hp as [Hin _].
    pose proof (quiet_clearTimeout n h w Hq) as Hq'.
    destruct Hq as [_ Hq2]. rewrite Forall_forall in Hq2.
    specialize (Hq2 t Hin).
    destruct (cb t) as [sid st td ev index len|sid|m]; simpl.
    + intros H. apply activeNote_effect_bells in H.
      pose proof (quiet_event_callback n sid st td ev index len _ Hq') as Hq3.
      destruct (Hbells _ _ Hq3 H) as [Hq4 (ext & He & Hf)].
      split; [exact Hq4|].
      destruct (event_callback_fields sid st td ev index len (clearTimeout h w))
        as (_ & _ & _ & _ & _ & _ & _ & _ & _ & Htr).
      exists (ext ++ [ObsBellPlay sid index (note ev) (now (clearTimeout h w))]).
      rewrite He, Htr. simpl. rewrite <- app_assoc. split; [reflexivity|].
      rewrite Forall_app. split; [exact Hf|]. repeat constructor. exact Hq2.
    + intros [= <-]. split; [now apply quiet_stopPlayback|].
      apply Hnil. now destruct (stopPlayback_frame (clearTimeout h w)) as (_&_&_&?&_).
    + intros [= <-].
      exact (Hbells (clearTimeout h w) _ Hq' (clearFlag_bells m (clearTimeout h w))).
  - guarded. intros [= <-].
    destruct (isPlaying w).
    + split; [now apply quiet_stopPlayback|].
      apply Hnil. now destruct (stopPlayback_frame w) as (_&_&_&?&_).
    + split; [now apply quiet_playSequence|]. apply Hnil, playSequence_trace.
  - guarded. intros [= <-].
    split; [now apply quiet_playSequence|]. apply Hnil, playSequence_trace.
  - guarded. intros [= <-].
    split; [now apply quiet_stopPlayback|].
    apply Hnil. now destruct (stopPlayback_frame w) as (_&_&_&?&_).
  - guarded. intros [= <-].
    destruct (quiet_stopPlayback _ _ Hq) as [Hs1 Hs2].
    split; [split; [exact Hs1|exact Hs2]|].
    apply Hnil. simpl. now destruct (stopPlayback_frame w) as (_&_&_&?&_).
  - intros H. apply Hbells; [exact Hq|eapply handleBellClick_bells, H].
  - intros [= <-]. apply Hbells; [exact Hq|apply toggle_bells].
Qed.

Lemma quiet_run (n : nat) (acts : list Action) :
  forall w w',
    quiet n w -> run acts w = Ok w' ->
    quiet n w' /\
    exists ext, trace w' = ext ++ trace w /\ Forall (obs_from n) ext.
Proof.
  induction acts as [|a rest IH]; intros w w' Hq; simpl.
  - intros [= <-]. split; [exact Hq|]. exists []. split; [reflexivity|constructor].
  - destruct (do_action a w) as [w1| |] eqn:E; try discriminate.
    intros Hrun.
    destruct (quiet_do_action _ _ _ _ Hq E) as [Hq1 (e1 & He1 & Hf1)].
    destruct (IH _ _ Hq1 Hrun) as [Hq2 (e2 & He2 & Hf2)].
    split; [exact Hq2|]. exists (e2 ++ e1).
    rewrite He2, He1, app_assoc. split; [reflexivity|].
    rewrite Forall_app. now split.
Qed.

(** X1.  Whatever happens after [stopPlayback] returned (time passing,
    timers firing, clicks, new calls of [playSequence]), no event callback
    of a session that existed before the call runs: every later call of
    [onBellPlay] belongs to a session started afterwards. *)
Theorem stopPlayback_silences (t0 : Z) (before after : list Action) (w w' : World) :
  run before (init t0) = Ok w ->
  run after (stopPlayback w) = Ok w' ->
  exists ext,
    trace w' = ext ++ trace w /\
    Forall (obs_from (sessions w)) ext.
Proof.
  intros Hb Ha. apply wf_reachable in Hb.
  destruct (quiet_run _ _ _ _ (stopPlayback_quiet _ Hb) Ha) as [_ (ext & He & Hf)].
  exists ext. split; [|exact Hf].
  rewrite He. now destruct (stopPlayback_frame w) as (_&_&_&->&_).
Qed.

(** X1, an instance.  The three-note example is stopped at 1000 ms and
    [seqB] is played to its end: the only call of [onBellPlay] after the
    stop is the one of the new session. *)
Lemma stopPlayback_silences_witness :
  (run demo_acts (init 0) = Ok demo_w /\
   run restart_acts (stopPlayback demo_w) = Ok restarted_w) /\
  (sessions demo_w = 1%nat /\
   trace restarted_w = ObsBellPlay 1 0 "Mi" 2000 :: trace demo_w) /\
  exists ext,
    trace restarted_w = ext ++ trace demo_w /\
    Forall (obs_from (sessions demo_w)) ext.
Proof.
  assert (H1 : run demo_acts (init 0) = Ok demo_w) by (vm_compute; reflexivity).
  assert (H2 : run restart_acts (stopPlayback demo_w) = Ok restarted_w)
    by (vm_compute; reflexivity).
  split; [exact (conj H1 H2)|]. split; [split; vm_compute; reflexivity|].
  exact (stopPlayback_silences 0 demo_acts restart_acts demo_w restarted_w H1 H2).
Defined.

(** ** Where pending timers come from *)

Lemma bells_step_timers (w w' : World) (t : Timer) :
  bells_step w w' -> t ∈ timers w' -> t ∈ timers w \/ is_event t = false.
Proof.
  intros Hb Ht. destruct (bs_timers _ _ Hb) as (extra & He & Hf).
  rewrite He, elem_of_app in Ht. destruct Ht as [Ht|Ht]; [now left|right].
  rewrite Forall_forall in Hf. now apply Hf.
Qed.

Lemma timers_run_callback (c : Callback) (w w' : World) (t : Timer) :
  run_callback c w = Ok w' -> t ∈ timers w' ->
  t ∈ timers w \/ is_event t = false.
Proof.
  destruct c as [sid st td ev index len|sid|n]; simpl.
  - intros H Ht. apply activeNote_effect_bells in H.
    destruct (bells_step_timers _ _ _ H Ht) as [Hin|Hne]; [|now right].
    pose proof (event_callback_timers sid st td ev index len w) as Hw.
    cbv zeta in Hw.
    destruct (Z.of_nat index =? Z.of_nat len - 1); destruct Hw as [Hw _];
      rewrite Hw in Hin; [|now left].
    apply elem_of_app in Hin as [Hin|Hin]; [now left|right].
    apply list_elem_of_singleton in Hin. now subst.
  - intros [= <-] Ht. left. now apply stopPlayback_subset.
  - intros [= <-] Ht. now left.
Qed.

Lemma timers_playSequence (sequence : option (list NoteEvent)) (w : World) (t : Timer) :
  t ∈ timers (playSequence sequence w) ->
  t ∈ timers w \/ t ∈ armed_by sequence w.
Proof.
  destruct sequence as [[|first others]|]; try (now left).
  rewrite playSequence_unfold. cbv zeta.
  cbn [timers set_playerRef set_nextHandle set_timers].
  rewrite elem_of_app. intros [Ht|Ht]; [left|now right].
  now apply stopPlayback_subset.
Qed.

Lemma timers_do_action (a : Action) (w w' : World) (t : Timer) :
  do_action a w = Ok w' -> t ∈ timers w' ->
  t ∈ timers w \/ is_event t = false \/ t ∈ armed_by (played a w) w.
Proof.
  destruct a as [d|h|s|s|  | |n e| ]; simpl.
  - destruct (0 <=? d); [|discriminate]. intros [= <-] Ht. now left.
  - destruct (pending h w) as [p|]; [|discriminate].
    destruct (due p <=? now w); [|discriminate]. intros H Ht.
    destruct (timers_run_callback _ _ _ _ H Ht) as [Hin|Hne]; [left|tauto].
    now apply (clearTimeout_subset h).
  - guarded. intros [= <-].
    destruct (isPlaying w).
    + intros Ht. left. now apply stopPlayback_subset.
    + intros Ht. apply timers_playSequence in Ht. tauto.
  - guarded. intros [= <-] Ht.
    apply timers_playSequence in Ht. tauto.
  - guarded. intros [= <-] Ht.
    left. now apply stopPlayback_subset.
  - guarded. intros [= <-] Ht.
    left. now apply stopPlayback_subset.
  - intros H Ht. apply handleBellClick_bells in H.
    destruct (bells_step_timers _ _ _ H Ht); tauto.
  - intros [= <-] Ht. now left.
Qed.

Lemma last_lookup (l : list NoteEvent) (d : NoteEvent) (k : nat) (ev : NoteEvent) :
  l !! k = Some ev -> Z.of_nat k = Z.of_nat (length l) - 1 -> List.last l d = ev.
Proof.
  revert k. induction l as [|x l IH]; intros k Hk Hlen; [discriminate|].
  destruct l as [|y l].
  - destruct k; simpl in *; [congruence|]. discriminate.
  - destruct k as [|k]; [simpl in Hlen; lia|].
    change (List.last (x :: y :: l) d) with (List.last (y :: l) d).
    apply (IH k); [exact Hk|]. simpl length in *. lia.
Qed.

Lemma armed_by_timed (sequence : option (list NoteEvent)) (w : World) (t : Timer) :
  t ∈ armed_by sequence w -> cb_timed t.
Proof.
  destruct sequence as [[|first others]|]; unfold armed_by;
    try (intros H; now apply elem_of_nil in H).
  intros Ht. apply armed_spec in Ht as (k & ev & Hk & ->).
  unfold cb_timed. cbn [cb due]. split; [lia|].
  intros Hlast. symmetry. f_equal. eapply last_lookup; eauto.
Qed.

Lemma timed_run (acts : list Action) :
  forall w w',
    Forall cb_timed (timers w) -> run acts w = Ok w' ->
    Forall cb_timed (timers w').
Proof.
  induction acts as [|a rest IH]; intros w w' Hw; simpl.
  - now intros [= <-].
  - destruct (do_action a w) as [w1| |] eqn:E; try discriminate.
    apply IH. rewrite Forall_forall in *. intros t Ht.
    destruct (timers_do_action _ _ _ _ E Ht) as [Hin|[Hne|Harm]].
    + now apply Hw.
    + unfold is_event in Hne. unfold cb_timed. now destruct (cb t).
    + eapply armed_by_timed, Harm.
Qed.

(** ** The progress value *)

Lemma percent_nonneg (e d : Z) :
  0 <= e -> 0 < d ->
  (0 <= Qred (Qred (inject_Z e / inject_Z d) * inject_Z 100))%Q.
Proof.
  intros He Hd. apply Qred_le_r. apply Qmult_le_0_compat; [|discriminate].
  apply Qred_le_r. now apply ratio_nonneg.
Qed.

Lemma percent_mono (e1 e2 d : Z) :
  e1 <= e2 -> 0 < d ->
  (Qred (Qred (inject_Z e1 / inject_Z d) * inject_Z 100)
   <= Qred (Qred (inject_Z e2 / inject_Z d) * inject_Z 100))%Q.
Proof.
  intros He Hd. rewrite !Qred_correct.
  apply Qmult_le_compat_r; [|discriminate]. now apply ratio_mono.
Qed.

Lemma percent_full (e d : Z) :
  d <= e -> 0 < d ->
  (inject_Z 100 <= Qred (Qred (inject_Z e / inject_Z d) * inject_Z 100))%Q.
Proof.
  intros He Hd. rewrite !Qred_correct.
  rewrite <- (Qmult_1_l (inject_Z 100)) at 1.
  apply Qmult_le_compat_r; [|discriminate]. now apply ratio_ge_1.
Qed.

(** With a positive duration the stored value lies in [[0, 100]]. *)
Lemma progress_at_range (e d : Z) :
  0 <= e -> 0 < d -> js_between 0 100 (progress_at e d).
Proof.
  intros He Hd. unfold progress_at. rewrite percentage_of_pos by exact Hd.
  unfold js_min, js_of_Z.
  destruct (Qle_bool _ _) eqn:E; simpl.
  - split; [discriminate|apply Qle_refl].
  - split; [now apply percent_nonneg|].
    destruct (Qlt_le_dec (Qred (Qred (inject_Z e / inject_Z d) * inject_Z 100))
                (inject_Z 100)) as [Hlt|Hle].
    + now apply Qlt_le_weak.
    + apply Qle_bool_iff in Hle. congruence.
Qed.

(** Once the whole duration has elapsed the stored value is exactly 100. *)
Lemma progress_at_full (e d : Z) :
  d <= e -> 0 < d -> progress_at e d = js_of_Z 100.
Proof.
  intros He Hd. unfold progress_at. rewrite percentage_of_pos by exact Hd.
  unfold js_min, js_of_Z.
  destruct (Qle_bool _ _) eqn:E; [reflexivity|].
  pose proof (percent_full e d He Hd) as H. apply Qle_bool_iff in H. congruence.
Qed.

(** A later reading is not smaller. *)
Lemma progress_at_mono (e1 e2 d : Z) :
  e1 <= e2 -> 0 < d -> js_le (progress_at e1 d) (progress_at e2 d).
Proof.
  intros He Hd. unfold progress_at. rewrite !percentage_of_pos by exact Hd.
  unfold js_min, js_of_Z.
  pose proof (percent_mono e1 e2 d He Hd) as Hm.
  destruct (Qle_bool (inject_Z 100) (Qred (Qred (inject_Z e1 / _) * _))) eqn:E1;
  destruct (Qle_bool (inject_Z 100) (Qred (Qred (inject_Z e2 / _) * _))) eqn:E2;
    simpl.
  - apply Qle_refl.
  - apply Qle_bool_iff in E1.
    assert (H : Qle_bool (inject_Z 100)
                  (Qred (Qred (inject_Z e2 / inject_Z d) * inject_Z 100)) = true).
    { apply Qle_bool_iff. eapply Qle_trans; eauto. }
    congruence.
  - destruct (Qlt_le_dec (Qred (Qred (inject_Z e1 / inject_Z d) * inject_Z 100))
                (inject_Z 100)) as [Hlt|Hle].
    + now apply Qlt_le_weak.
    + apply Qle_bool_iff in Hle. congruence.
  - exact Hm.
Qed.

(** With a duration of zero the division has no finite result: the stored
    value is [NaN] when no millisecond has elapsed, and 100 afterwards. *)
Lemma progress_at_zero_duration (e : Z) :
  progress_at e 0 = if e =? 0 then JNaN else if 0 <? e then js_of_Z 100 else JNegInf.
Proof.
  unfold progress_at, percentage_of, js_div, js_of_Z.
  change (Qeq_bool (inject_Z 0) 0) with true. cbv iota.
  destruct (Z.compare_spec e 0) as [->|Hlt|Hgt].
  - reflexivity.
  - replace (e =? 0) with false by lia. replace (0 <? e) with false by lia.
    replace (inject_Z e ?= 0)%Q with Lt; [reflexivity|].
    symmetry. unfold Qcompare. simpl. rewrite Z.mul_1_r. now apply Z.compare_lt_iff.
  - replace (e =? 0) with false by lia. replace (0 <? e) with true by lia.
    replace (inject_Z e ?= 0)%Q with Gt; [reflexivity|].
    symmetry. unfold Qcompare. simpl. rewrite Z.mul_1_r. now apply Z.compare_gt_iff.
Qed.

Lemma event_callback_progress sid st td ev index len (w : World) :
  progress (event_callback sid st td ev index len w) = progress_at (now w - st) td.
Proof.
  now destruct (event_callback_fields sid st td ev index len w)
    as (_ & _ & _ & _ & _ & _ & _ & _ & H & _).
Qed.

Lemma playSequence_progress (sequence : option (list NoteEvent)) (w : World) :
  progress (playSequence sequence w) =
  match sequence with
  | Some (_ :: _) => JFin 0
  | _ => progress w
  end.
Proof.
  destruct sequence as [[|first others]|]; try reflexivity.
  now rewrite playSequence_unfold.
Qed.

Lemma armed_by_positive (a : Action) (w : World) (t : Timer) :
  positive_duration a -> t ∈ armed_by (played a w) w -> cb_positive t.
Proof.
  intros Hpos Ht.
  assert (Hs : played a w = seq_of a \/ played a w = None).
  { destruct a; simpl; auto. destruct (isPlaying w); auto. }
  destruct Hs as [Hs|Hs]; rewrite Hs in Ht;
    [|now apply elem_of_nil in Ht].
  unfold positive_duration in Hpos.
  destruct (seq_of a) as [[|first others]|]; unfold armed_by in Ht;
    try (now apply elem_of_nil in Ht).
  apply armed_spec in Ht as (k & ev & _ & ->). exact Hpos.
Qed.

Lemma range_do_action (a : Action) (w w' : World) :
  wf w -> positive_duration a ->
  Forall cb_positive (timers w) -> js_between 0 100 (progress w) ->
  do_action a w = Ok w' ->
  Forall cb_positive (timers w') /\ js_between 0 100 (progress w').
Proof.
  intros Hwf Hpos Hcb Hpr Hstep.
  assert (Hzero : js_between 0 100 (JFin 0)) by (split; discriminate).
  split.
  - rewrite Forall_forall in *. intros t Ht.
    destruct (timers_do_action _ _ _ _ Hstep Ht) as [Hin|[Hne|Harm]].
    + now apply Hcb.
    + unfold is_event in Hne. unfold cb_positive. now destruct (cb t).
    + eapply armed_by_positive; eauto.
  - destruct a as [d|h|s|s|  | |n e| ]; simpl in Hstep.
    + destruct (0 <=? d); [|discriminate]. now injection Hstep as <-.
    + destruct (pending h w) as [t|] eqn:Hp; [|discriminate].
      destruct (due t <=? now w); [|discriminate].
      apply pending_Some in Hp as [Hin _].
      unfold wf in Hwf. rewrite Forall_forall in Hwf, Hcb.
      destruct (Hwf t Hin) as [_ Hok]. specialize (Hcb t Hin).
      unfold cb_positive in Hcb. unfold cb_ok in Hok.
      destruct (cb t) as [sid st td ev index len|sid|m]; simpl in Hstep.
      * apply activeNote_effect_bells in Hstep.
        rewrite (bs_progress _ _ Hstep), event_callback_progress.
        apply progress_at_range; [|exact Hcb]. simpl. lia.
      * now injection Hstep as <-.
      * now injection Hstep as <-.
    + guarded. injection Hstep as <-.
      destruct (isPlaying w); [exact Hzero|].
      rewrite playSequence_progress. now destruct s as [[|? ?]|].
    + guarded. injection Hstep as <-.
      rewrite playSequence_progress. now destruct s as [[|? ?]|].
    + guarded. now injection Hstep as <-.
    + guarded. now injection Hstep as <-.
    + apply handleBellClick_bells in Hstep. now rewrite (bs_progress _ _ Hstep).
    + now injection Hstep as <-.
Qed.

(** X5.  As long as every sequence that is played ends at a positive time,
    [progress] is a number between 0 and 100 in every reachable world. *)
Theorem progress_in_range (t0 : Z) (acts : list Action) (w : World) :
  Forall positive_duration acts ->
  run acts (init t0) = Ok w ->
  js_between 0 100 (progress w).
Proof.
  intros Hpos Hrun.
  enough (H : forall acts v v', wf v -> Forall positive_duration acts ->
            Forall cb_positive (timers v) -> js_between 0 100 (progress v) ->
            run acts v = Ok v' -> js_between 0 100 (progress v')).
  { apply (H acts (init t0) w (wf_init t0) Hpos);
      [constructor|split; discriminate|exact Hrun]. }
  clear. induction acts as [|a rest IH]; intros v v' Hwf Hpos Hcb Hpr; simpl.
  - now intros [= <-].
  - destruct (do_action a v) as [v1| |] eqn:E; try discriminate.
    inversion Hpos as [|? ? Ha Hrest]; subst.
    destruct (range_do_action _ _ _ Hwf Ha Hcb Hpr E) as [Hcb1 Hpr1].
    apply IH; eauto using wf_do_action.
Qed.

(** X5, an instance.  The three-note example at 1000 ms: [progress] is 50. *)
Lemma progress_in_range_witness :
  (Forall positive_duration demo_acts /\ run demo_acts (init 0) = Ok demo_w) /\
  progress demo_w = JFin 50 /\
  js_between 0 100 (progress demo_w).
Proof.
  assert (H0 : Forall positive_duration demo_acts).
  { unfold demo_acts. repeat (apply Forall_cons; split; [|]);
      [reflexivity|exact I|exact I|exact I|exact I|apply Forall_nil_2]. }
  assert (H1 : run demo_acts (init 0) = Ok demo_w) by (vm_compute; reflexivity).
  split; [exact (conj H0 H1)|]. split; [vm_compute; reflexivity|].
  exact (progress_in_range 0 demo_acts demo_w H0 H1).
Defined.

(** The clock never goes back. *)
Lemma now_do_action (a : Action) (w w' : World) :
  do_action a w = Ok w' -> now w <= now w'.
Proof.
  destruct a as [d|h|s|s|  | |n e| ]; simpl.
  - destruct (0 <=? d) eqn:E; [|discriminate]. intros [= <-]. simpl. lia.
  - destruct (pending h w) as [t|]; [|discriminate].
    destruct (due t <=? now w); [|discriminate].
    destruct (cb t) as [sid st td ev index len|sid|m]; simpl.
    + intros H. apply activeNote_effect_bells in H. rewrite (bs_now _ _ H).
      destruct (event_callback_fields sid st td ev index len (clearTimeout h w))
        as (-> & _). simpl. lia.
    + intros [= <-]. pose proof (stopPlayback_frame (clearTimeout h w)) as (Hn & _).
      simpl in *. lia.
    + intros [= <-]. simpl. lia.
  - guarded. intros [= <-].
    destruct (isPlaying w).
    + pose proof (stopPlayback_frame w) as (Hn & _). simpl in *. lia.
    + destruct s as [[|first others]|]; try (unfold playSequence; lia).
     
      rewrite playSequence_unfold. cbv zeta. simpl.
      pose proof (stopPlayback_frame w) as (Hn & _). simpl in *. lia.
  - guarded. intros [= <-].
    destruct s as [[|first others]|]; try (unfold playSequence; lia).
     
    rewrite playSequence_unfold. cbv zeta. simpl.
    pose proof (stopPlayback_frame w) as (Hn & _). simpl in *. lia.
  - guarded. intros [= <-].
    pose proof (stopPlayback_frame w) as (Hn & _). simpl in *. lia.
  - guarded. intros [= <-]. simpl.
    pose proof (stopPlayback_frame w) as (Hn & _). simpl in *. lia.
  - intros H. apply handleBellClick_bells in H. rewrite (bs_now _ _ H). lia.
  - intros [= <-]. simpl. lia.
Qed.

Lemma now_run (acts : list Action) :
  forall w w', run acts w = Ok w' -> now w <= now w'.
Proof.
  induction acts as [|a rest IH]; intros w w'; simpl.
  - intros [= <-]. lia.
  - destruct (do_action a w) as [w1| |] eqn:E; try discriminate.
    intros H. apply now_do_action in E. apply IH in H. lia.
Qed.

Lemma timed_reachable (t0 : Z) (acts : list Action) (w : World) :
  run acts (init t0) = Ok w -> Forall cb_timed (timers w).
Proof. apply timed_run. constructor. Qed.

Lemma fire_event (h : nat) (w w' : World) (t : Timer) sid st td ev index len :
  pending h w = Some t ->
  cb t = EventCb sid st td ev index len ->
  do_action (Fire h) w = Ok w' ->
  due t <= now w /\
  bells_step (event_callback sid st td ev index len (clearTimeout h w)) w'.
Proof.
  intros Hp Hcb. simpl. rewrite Hp.
  destruct (due t <=? now w) eqn:E; [|discriminate].
  rewrite Hcb. simpl. intros H. split; [lia|].
  eapply activeNote_effect_bells, H.
Qed.

(** X6.  When the callback of the last event of a sequence with a positive
    duration runs, [progress] becomes exactly 100. *)
Theorem final_event_progress (t0 : Z) (acts : list Action) (w w' : World)
    (h : nat) (t : Timer) sid st td ev index len :
  run acts (init t0) = Ok w ->
  pending h w = Some t ->
  cb t = EventCb sid st td ev index len ->
  Z.of_nat index = Z.of_nat len - 1 ->
  0 < td ->
  do_action (Fire h) w = Ok w' ->
  progress w' = js_of_Z 100.
Proof.
  intros Hrun Hp Hcb Hlast Hpos Hfire.
  destruct (fire_event _ _ _ _ _ _ _ _ _ _ Hp Hcb Hfire) as [Hdue Hb].
  rewrite (bs_progress _ _ Hb), event_callback_progress.
  apply pending_Some in Hp as [Hin _].
  pose proof (timed_reachable _ _ _ Hrun) as Ht.
  rewrite Forall_forall in Ht. specialize (Ht t Hin).
  unfold cb_timed in Ht. rewrite Hcb in Ht. destruct Ht as [H1 H2].
  specialize (H2 Hlast). apply progress_at_full; [|exact Hpos]. simpl. lia.
Qed.

(** X6, an instance.  The timer of "Sol", the last event of the three-note
    example. *)
Lemma final_event_progress_witness :
  (run demo_acts (init 0) = Ok demo_w /\ pending 2 demo_w = Some demo_last /\
   do_action (Fire 2) demo_w = Ok sol_done_w) /\
  progress sol_done_w = js_of_Z 100.
Proof.
  assert (H1 : run demo_acts (init 0) = Ok demo_w) by (vm_compute; reflexivity).
  assert (H2 : pending 2 demo_w = Some demo_last) by (vm_compute; reflexivity).
  assert (H3 : do_action (Fire 2) demo_w = Ok sol_done_w)
    by (vm_compute; reflexivity).
  split; [exact (conj H1 (conj H2 H3))|].
  exact (final_event_progress 0 demo_acts demo_w sol_done_w 2 demo_last
           0 0 1000 (mkEvent "Sol" 1000) 2 3 H1 H2 eq_refl eq_refl eq_refl H3).
Defined.

(** When the callback of an event of a session of duration zero runs,
    [progress] is [NaN] if the clock still shows the start of the session,
    and 100 afterwards. *)
Theorem zero_duration_progress (w w' : World) (h : nat) (t : Timer)
    sid st ev index len :
  pending h w = Some t ->
  cb t = EventCb sid st 0 ev index len ->
  st <= now w ->
  do_action (Fire h) w = Ok w' ->
  progress w' = if now w =? st then JNaN else js_of_Z 100.
Proof.
  intros Hp Hcb Hst Hfire.
  destruct (fire_event _ _ _ _ _ _ _ _ _ _ Hp Hcb Hfire) as [_ Hb].
  rewrite (bs_progress _ _ Hb), event_callback_progress, progress_at_zero_duration.
  cbn [now clearTimeout set_timers].
  destruct (Z.eqb_spec (now w) st) as [->|Hne].
  - now rewrite Z.sub_diag.
  - replace (now w - st =? 0) with false by lia.
    now replace (0 <? now w - st) with true by lia.
Qed.

(** X7.  Two callbacks of one session (same start, same positive duration):
    the one that runs later stores a value that is not smaller. *)
Theorem progress_nondecreasing (w1 w1' w2 w2' : World) (mid : list Action)
    (h1 h2 : nat) (t1 t2 : Timer) sid st td ev1 i1 ev2 i2 len :
  0 < td ->
  pending h1 w1 = Some t1 -> cb t1 = EventCb sid st td ev1 i1 len ->
  do_action (Fire h1) w1 = Ok w1' ->
  run mid w1' = Ok w2 ->
  pending h2 w2 = Some t2 -> cb t2 = EventCb sid st td ev2 i2 len ->
  do_action (Fire h2) w2 = Ok w2' ->
  js_le (progress w1') (progress w2').
Proof.
  intros Hpos Hp1 Hc1 Hf1 Hmid Hp2 Hc2 Hf2.
  destruct (fire_event _ _ _ _ _ _ _ _ _ _ Hp1 Hc1 Hf1) as [_ Hb1].
  destruct (fire_event _ _ _ _ _ _ _ _ _ _ Hp2 Hc2 Hf2) as [_ Hb2].
  rewrite (bs_progress _ _ Hb1), (bs_progress _ _ Hb2), !event_callback_progress.
  apply progress_at_mono; [|exact Hpos].
  pose proof (now_do_action _ _ _ Hf1). pose proof (now_run _ _ _ Hmid).
  simpl. lia.
Qed.

(** X7, an instance.  "Mi" at 500 ms and "Sol" at 1000 ms: 50, then 100. *)
Lemma progress_nondecreasing_witness :
  (pending 1 mi_due_w = Some mi_timer /\
   do_action (Fire 1) mi_due_w = Ok mi_done_w /\
   run [Tick 500] mi_done_w = Ok demo_w /\
   pending 2 demo_w = Some demo_last /\
   do_action (Fire 2) demo_w = Ok sol_done_w) /\
  (progress mi_done_w = JFin 50 /\ progress sol_done_w = JFin 100) /\
  js_le (progress mi_done_w) (progress sol_done_w).
Proof.
  assert (H1 : pending 1 mi_due_w = Some mi_timer) by (vm_compute; reflexivity).
  assert (H2 : do_action (Fire 1) mi_due_w = Ok mi_done_w)
    by (vm_compute; reflexivity).
  assert (H3 : run [Tick 500] mi_done_w = Ok demo_w) by (vm_compute; reflexivity).
  assert (H4 : pending 2 demo_w = Some demo_last) by (vm_compute; reflexivity).
  assert (H5 : do_action (Fire 2) demo_w = Ok sol_done_w)
    by (vm_compute; reflexivity).
  split; [exact (conj H1 (conj H2 (conj H3 (conj H4 H5))))|].
  split; [split; vm_compute; reflexivity|].
  exact (progress_nondecreasing mi_due_w mi_done_w demo_w sol_done_w [Tick 500]
           1 2 mi_timer demo_last 0 0 1000 (mkEvent "Mi" 500) 1
           (mkEvent "Sol" 1000) 2 3 eq_refl H1 eq_refl H2 H3 H4 eq_refl H5).
Defined.

(** ** A timer armed with a fresh handle *)

Lemma find_fresh (h : nat) (l l' : list Timer) (g : Timer) :
  Forall (fun t => tid t <> h) l -> tid g = h ->
  find (fun t => bool_decide (tid t = h)) (l ++ g :: l') = Some g.
Proof.
  intros Hl Hg. induction Hl as [|t l Ht _ IH]; simpl.
  - now rewrite bool_decide_eq_true_2.
  - now rewrite bool_decide_eq_false_2.
Qed.

Lemma wf_handles_below (w : World) :
  wf w -> Forall (fun t => tid t <> nextHandle w) (timers w).
Proof.
  intros Hwf. eapply Forall_impl; [exact Hwf|]. intros t [Hlt _]. lia.
Qed.

(** A timer can only fire once its delay has elapsed. *)
Lemma fire_not_before (h : nat) (w : World) (t : Timer) :
  pending h w = Some t -> now w < due t -> do_action (Fire h) w = NotEnabled.
Proof.
  intros Hp Hlt. simpl. rewrite Hp.
  destruct (due t <=? now w) eqn:E; [lia|reflexivity].
Qed.

Lemma fire_when_due (h : nat) (w : World) (t : Timer) :
  pending h w = Some t -> due t <= now w ->
  do_action (Fire h) w = run_callback (cb t) (clearTimeout h w).
Proof.
  intros Hp Hle. simpl. rewrite Hp.
  destruct (due t <=? now w) eqn:E; [reflexivity|lia].
Qed.

Lemma bells_step_pending_fresh (w w' : World) (l : list Timer) (g : Timer) :
  bells_step w w' ->
  timers w = l ++ [g] ->
  Forall (fun t => tid t <> tid g) l ->
  pending (tid g) w' = Some g.
Proof.
  intros Hb Ht Hl. destruct (bs_timers _ _ Hb) as (extra & He & _).
  unfold pending. rewrite He, Ht, <- app_assoc. simpl.
  now apply find_fresh.
Qed.

Lemma filter_none {A : Type} (f : A -> bool) (l : list A) :
  (forall x, x ∈ l -> f x = false) -> List.filter f l = [].
Proof.
  induction l as [|x l IH]; intros H; simpl; [reflexivity|].
  rewrite (H x) by apply list_elem_of_here.
  apply IH. intros y Hy. apply H. now apply list_elem_of_further.
Qed.

Lemma stopPlayback_event_timers (w : World) :
  wf w -> event_timers (stopPlayback w) = [].
Proof.
  intros Hwf. unfold event_timers. apply filter_none.
  intros t Ht. eapply stopPlayback_no_event; eauto.
Qed.

(** [playSequence] starts with [stopPlayback]: calling it in a world or in
    the same world after [stopPlayback] gives the same result. *)
Lemma playSequence_after_stop (sequence : option (list NoteEvent)) (w : World) :
  playSequence sequence (stopPlayback w) =
  match sequence with
  | Some (_ :: _) => playSequence sequence w
  | _ => stopPlayback w
  end.
Proof.
  destruct sequence as [[|first others]|]; try reflexivity.
  unfold playSequence. now rewrite stopPlayback_idempotent.
Qed.

(** X2.  Whatever happens after [playSequence] started a new session, no
    event callback of an earlier session runs. *)
Theorem playSequence_silences_previous (t0 : Z) (before after : list Action)
    (first : NoteEvent) (others : list NoteEvent) (w w' : World) :
  run before (init t0) = Ok w ->
  run after (playSequence (Some (first :: others)) w) = Ok w' ->
  exists ext,
    trace w' = ext ++ trace w /\
    Forall (obs_from (sessions w)) ext.
Proof.
  intros Hb Ha. apply wf_reachable in Hb.
  pose proof (quiet_playSequence _ (Some (first :: others)) _
                (stopPlayback_quiet _ Hb)) as Hq.
  rewrite playSequence_after_stop in Hq.
  destruct (quiet_run _ _ _ _ Hq Ha) as [_ (ext & He & Hf)].
  exists ext. split; [|exact Hf].
  now rewrite He, playSequence_trace.
Qed.

(** X2, an instance.  The same, with [playSequence] called while the first
    session is playing. *)
Lemma playSequence_silences_previous_witness :
  (run demo_acts (init 0) = Ok demo_w /\
   run next_acts (playSequence (Some (mkEvent "Mi" 1000 :: [])) demo_w)
   = Ok restarted_w) /\
  exists ext,
    trace restarted_w = ext ++ trace demo_w /\
    Forall (obs_from (sessions demo_w)) ext.
Proof.
  assert (H1 : run demo_acts (init 0) = Ok demo_w) by (vm_compute; reflexivity).
  assert (H2 : run next_acts (playSequence (Some (mkEvent "Mi" 1000 :: [])) demo_w)
               = Ok restarted_w) by (vm_compute; reflexivity).
  split; [exact (conj H1 H2)|].
  exact (playSequence_silences_previous 0 demo_acts next_acts (mkEvent "Mi" 1000)
           [] demo_w restarted_w H1 H2).
Defined.

(** ** After the component was unmounted *)

Lemma silent_do_action (a : Action) (w w' : World) :
  silent w -> do_action a w = Ok w' ->
  silent w' /\
  exists ext, trace w' = ext ++ trace w /\ Forall (fun o => is_bellplay o = false) ext.
Proof.
  intros [Hm Hs] Hstep.
  assert (Hnil : forall v, trace v = trace w ->
            exists ext, trace v = ext ++ trace w /\
                        Forall (fun o => is_bellplay o = false) ext).
  { intros v H. exists []. split; [exact H|constructor]. }
  rewrite Forall_forall in Hs.
  destruct a as [d|h|s|s|  | |n e| ]; simpl in Hstep; rewrite ?Hm in Hstep;
    try discriminate.
  - destruct (0 <=? d); [|discriminate]. injection Hstep as <-.
    split; [split; [exact Hm|now rewrite Forall_forall]|now apply Hnil].
  - destruct (pending h w) as [t|] eqn:Hp; [|discriminate].
    destruct (due t <=? now w); [|discriminate].
    apply pending_Some in Hp as [Hin _]. specialize (Hs t Hin) as Hne.
    assert (Hc : Forall (fun t => is_event t = false) (timers (clearTimeout h w))).
    { rewrite Forall_forall. intros x Hx. apply Hs, (clearTimeout_subset h), Hx. }
    unfold is_event in Hne.
    destruct (cb t) as [sid st td ev index len|sid|m]; [discriminate| |];
      simpl in Hstep; injection Hstep as <-.
    + destruct (stopPlayback_frame (clearTimeout h w)) as (_&_&_&Ht&Hmo&_).
      split; [split; [now rewrite Hmo|]|now apply Hnil].
      rewrite Forall_forall in *. intros x Hx. apply Hc, stopPlayback_subset, Hx.
    + split; [split; [exact Hm|exact Hc]|now apply Hnil].
  - pose proof (handleBellClick_bells _ _ _ _ Hstep) as Hb. split.
    + split; [now rewrite (bs_mounted _ _ Hb)|].
      rewrite Forall_forall. intros t Ht.
      destruct (bells_step_timers _ _ _ Hb Ht); auto.
    + apply (bs_trace _ _ Hb).
  - injection Hstep as <-.
    split; [split; [exact Hm|now rewrite Forall_forall]|now apply Hnil].
Qed.

Lemma unmount_silent (w : World) : wf w -> silent (unmount w).
Proof.
  intros Hwf. split; [reflexivity|]. rewrite Forall_forall. intros t Ht.
  eapply stopPlayback_no_event; eauto.
Qed.

(** X3.  After the clean-up of the mount effect ran, the scheduler never
    calls [onBellPlay] again, whatever the environment does; [progress] is 0
    and no event timer is pending. *)
Theorem unmount_silences (t0 : Z) (before after : list Action) (w w' : World) :
  run before (init t0) = Ok w ->
  progress (unmount w) = JFin 0 /\ isPlaying (unmount w) = false /\
  event_timers (unmount w) = [] /\
  (run after (unmount w) = Ok w' ->
   exists ext,
     trace w' = ext ++ trace w /\ Forall (fun o => is_bellplay o = false) ext).
Proof.
  intros Hb. apply wf_reachable in Hb.
  split; [reflexivity|]. split; [reflexivity|]. split.
  { apply (stopPlayback_event_timers w Hb). }
  pose proof (unmount_silent w Hb) as Hs.
  assert (Ht : trace (unmount w) = trace w).
  { simpl. now destruct (stopPlayback_frame w) as (_&_&_&?&_). }
  rewrite <- Ht. clear Ht. revert Hs. generalize (unmount w). clear.
  induction after as [|a rest IH]; intros v Hs; simpl.
  - intros [= <-]. exists []. split; [reflexivity|constructor].
  - destruct (do_action a v) as [v1| |] eqn:E; try discriminate. intros Hrun.
    destruct (silent_do_action _ _ _ Hs E) as [Hs1 (e1 & He1 & Hf1)].
    destruct (IH _ Hs1 Hrun) as (e2 & He2 & Hf2).
    exists (e2 ++ e1). rewrite He2, He1, app_assoc. split; [reflexivity|].
    rewrite Forall_app. now split.
Qed.

(** X3, an instance.  The three-note example is unmounted at 1000 ms, with
    the timer of "Sol" pending. *)
Lemma unmount_silences_witness :
  run demo_acts (init 0) = Ok demo_w /\
  event_timers demo_w = [demo_last] /\
  (progress (unmount demo_w) = JFin 0 /\ isPlaying (unmount demo_w) = false /\
   event_timers (unmount demo_w) = [] /\
   (run [ClickBell "Do" click] (unmount demo_w) = Ok unmounted_w ->
    exists ext,
      trace unmounted_w = ext ++ trace demo_w /\
      Forall (fun o => is_bellplay o = false) ext)).
Proof.
  assert (H1 : run demo_acts (init 0) = Ok demo_w) by (vm_compute; reflexivity).
  split; [exact H1|]. split; [vm_compute; reflexivity|].
  exact (unmount_silences 0 demo_acts [ClickBell "Do" click] demo_w unmounted_w H1).
Defined.

(** ** The handles kept in [playerRef.current] *)

Lemma handles_ok_none (w : World) : playerRef w = None -> handles_ok w.
Proof. intros H hs. rewrite H. discriminate. Qed.

Lemma handles_ok_bells_step (w w' : World) :
  bells_step w w' -> handles_ok w -> handles_ok w'.
Proof.
  intros Hb Hok hs Hp. rewrite (bs_playerRef _ _ Hb) in Hp.
  destruct (Hok hs Hp) as [H1 H2]. pose proof (bs_next _ _ Hb) as Hn.
  destruct (bs_timers _ _ Hb) as (extra & -> & Hex). split.
  - eapply Forall_impl; [exact H1|]. intros h Hh. simpl in Hh. lia.
  - rewrite Forall_app. split; [exact H2|].
    eapply Forall_impl; [exact Hex|]. intros t [_ Hr] _ Hin.
    rewrite Forall_forall in H1. specialize (H1 _ Hin). simpl in H1. lia.
Qed.

Lemma handles_ok_clearTimeout (h : nat) (w : World) :
  handles_ok w -> handles_ok (clearTimeout h w).
Proof.
  intros Hok hs Hp. destruct (Hok hs Hp) as [H1 H2]. split; [exact H1|].
  rewrite Forall_forall in *. intros t Ht. apply H2, (clearTimeout_subset h), Ht.
Qed.

Lemma handles_ok_event_callback sid st td ev index len (w : World) :
  handles_ok w -> handles_ok (event_callback sid st td ev index len w).
Proof.
  intros Hok hs Hp.
  destruct (event_callback_fields sid st td ev index len w)
    as (_ & _ & Hpr & _).
  pose proof (event_callback_timers sid st td ev index len w) as Ht.
  cbv zeta in *. rewrite Hpr in Hp. destruct (Hok hs Hp) as [H1 H2].
  destruct (Z.of_nat index =? Z.of_nat len - 1); destruct Ht as [-> ->].
  - split.
    + eapply Forall_impl; [exact H1|]. intros h Hh. simpl in Hh. lia.
    + rewrite Forall_app. split; [exact H2|]. repeat constructor.
      intros _ Hin. rewrite Forall_forall in H1. specialize (H1 _ Hin).
      simpl in H1. lia.
  - now split.
Qed.

Lemma handles_ok_playSequence (sequence : option (list NoteEvent)) (w : World) :
  wf w -> handles_ok w -> handles_ok (playSequence sequence w).
Proof.
  intros Hwf Hok. destruct sequence as [[|first others]|]; try exact Hok.
  rewrite playSequence_unfold. cbv zeta.
  remember (first :: others) as sequence eqn:Hseq. clear Hseq.
  intros hs Hp. cbn in Hp. injection Hp as <-. split.
  - rewrite Forall_forall. intros h Hh. apply elem_of_seq in Hh. cbn. lia.
  - cbn [timers set_playerRef set_nextHandle set_timers].
    rewrite Forall_app. split.
    + rewrite Forall_forall. intros t Ht _ Hin.
      apply stopPlayback_subset in Ht.
      unfold wf in Hwf. rewrite Forall_forall in Hwf.
      destruct (Hwf _ Ht) as [Hlt _]. apply elem_of_seq in Hin. lia.
    + rewrite Forall_forall. intros t Ht Hne.
      apply armed_spec in Ht as (k & ev & _ & ->). discriminate.
Qed.

Lemma handles_ok_do_action (a : Action) (w w' : World) :
  wf w -> handles_ok w -> do_action a w = Ok w' -> handles_ok w'.
Proof.
  intros Hwf Hok. destruct a as [d|h|s|s|  | |n e| ]; simpl.
  - destruct (0 <=? d); [|discriminate]. now intros [= <-].
  - destruct (pending h w) as [t|]; [|discriminate].
    destruct (due t <=? now w); [|discriminate].
    pose proof (handles_ok_clearTimeout h w Hok) as Hc.
    destruct (cb t) as [sid st td ev index len|sid|m]; simpl.
    + intros H. apply activeNote_effect_bells in H.
      eapply handles_ok_bells_step; [exact H|].
      now apply handles_ok_event_callback.
    + intros [= <-]. apply handles_ok_none, stopPlayback_playerRef.
    + intros [= <-].
      exact (handles_ok_bells_step _ _ (clearFlag_bells m (clearTimeout h w)) Hc).
  - guarded. intros [= <-].
    destruct (isPlaying w).
    + apply handles_ok_none, stopPlayback_playerRef.
    + now apply handles_ok_playSequence.
  - guarded. intros [= <-].
    now apply handles_ok_playSequence.
  - guarded. intros [= <-].
    apply handles_ok_none, stopPlayback_playerRef.
  - guarded. intros [= <-].
    apply handles_ok_none. apply stopPlayback_playerRef.
  - intros H. eapply handles_ok_bells_step; [eapply handleBellClick_bells, H|exact Hok].
  - intros [= <-]. eapply handles_ok_bells_step; [apply toggle_bells|exact Hok].
Qed.

Lemma handles_ok_reachable (t0 : Z) (acts : list Action) (w : World) :
  run acts (init t0) = Ok w -> handles_ok w.
Proof.
  enough (H : forall v, wf v -> handles_ok v -> run acts v = Ok w -> handles_ok w).
  { apply H; [apply wf_init|now apply handles_ok_none]. }
  induction acts as [|a rest IH]; intros v Hwf Hok; simpl.
  - now intros [= <-].
  - destruct (do_action a v) as [v1| |] eqn:E; try discriminate.
    apply IH; eauto using wf_do_action, handles_ok_do_action.
Qed.

Lemma handles_keep (w : World) (t : Timer) :
  handles_ok w -> t ∈ timers w -> is_event t = false ->
  t ∈ timers (stopPlayback w).
Proof.
  intros Hok Hin Hne.
  rewrite stopPlayback_timers. destruct (playerRef w) as [hs|] eqn:Hp; [|exact Hin].
  apply list_elem_of_filter. split; [|exact Hin].
  destruct (Hok hs Hp) as [_ H2]. rewrite Forall_forall in H2. now apply H2.
Qed.

(** X4.  [stopPlayback] clears event timers only: every other pending timer,
    the completion timer of a session in particular, is still pending when
    it returns. *)
Theorem stopPlayback_keeps_other_timers (t0 : Z) (acts : list Action)
    (w : World) (t : Timer) :
  run acts (init t0) = Ok w ->
  t ∈ timers w -> is_event t = false ->
  t ∈ timers (stopPlayback w).
Proof.
  intros Hrun Hin Hne. apply handles_ok_reachable in Hrun.
  rewrite stopPlayback_timers. destruct (playerRef w) as [hs|] eqn:Hp; [|exact Hin].
  apply list_elem_of_filter. split; [|exact Hin].
  destruct (Hrun hs Hp) as [_ H2]. rewrite Forall_forall in H2. now apply H2.
Qed.

(** X4, an instance.  After the three-note example was played to its end,
    the completion timer is pending, and [stopPlayback] leaves it pending. *)
Lemma stopPlayback_keeps_other_timers_witness :
  (run (play_through seq_demo) (init 0) = Ok played_w /\
   completion_timer ∈ timers played_w /\ is_event completion_timer = false) /\
  completion_timer ∈ timers (stopPlayback played_w).
Proof.
  assert (H1 : run (play_through seq_demo) (init 0) = Ok played_w)
    by (vm_compute; reflexivity).
  assert (H2 : completion_timer ∈ timers played_w).
  { apply list_elem_of_In.
    assert (Ht : timers played_w
                 = [mkTimer 3 200 (ClearFlagCb "Do"); mkTimer 4 700 (ClearFlagCb "Mi");
                    completion_timer; mkTimer 6 1200 (ClearFlagCb "Sol")])
      by (vm_compute; reflexivity).
    rewrite Ht. right. right. left. reflexivity. }
  assert (H3 : is_event completion_timer = false) by reflexivity.
  split; [exact (conj H1 (conj H2 H3))|].
  exact (stopPlayback_keeps_other_timers 0 (play_through seq_demo) played_w
           completion_timer H1 H2 H3).
Defined.

(** Neither does [playSequence], which starts with [stopPlayback]: the
    completion timer of the session before is pending next to the timers
    of the new session. *)
Theorem playSequence_keeps_other_timers (t0 : Z) (acts : list Action)
    (w : World) (sequence : option (list NoteEvent)) (t : Timer) :
  run acts (init t0) = Ok w ->
  t ∈ timers w -> is_event t = false ->
  t ∈ timers (playSequence sequence w).
Proof.
  intros Hrun Hin Hne.
  destruct sequence as [[|first others]|]; try exact Hin.
  rewrite playSequence_unfold. cbv zeta.
  cbn [timers set_playerRef set_nextHandle set_timers].
  apply elem_of_app. left. apply handles_keep; try assumption.
  now apply handles_ok_reachable in Hrun.
Qed.

(** ** A whole session on a browser whose timers fire when due *)

Lemma bell_notes_plain (n : string) : n ∈ bell_notes -> plain_name n.
Proof.
  unfold bell_notes, note_re, plain_name, object_prototype_keys. intros H.
  repeat (apply elem_of_cons in H as [->|H];
          [rewrite !not_elem_of_cons; repeat split;
           try discriminate; apply not_elem_of_nil|]).
  now apply elem_of_nil in H.
Qed.

Lemma audioRefs_plain (n : string) : plain_name n -> audioRefs n <> Inherited.
Proof.
  unfold audioRefs, plain_name. intros H.
  destruct (bool_decide (n ∈ bell_notes)); [discriminate|].
  now rewrite bool_decide_eq_false_2.
Qed.

Lemma handleBellClick_normal (n : string) (e : option ClickEvent) (w : World) :
  editMode w = false -> plain_name n ->
  exists w',
    handleBellClick n e w = Ok w' /\ editMode w' = false /\
    activeNote w' = activeNote w /\
    List.filter is_ring (trace w') = ObsRing n (now w) :: List.filter is_ring (trace w).
Proof.
  intros He Hn. apply audioRefs_plain in Hn.
  unfold handleBellClick. rewrite He.
  destruct (audioRefs n); [|contradiction|];
    (eexists; split; [reflexivity|]); cbn; auto.
Qed.

Lemma run_event_normal sid st td ev index len (v : World) :
  editMode v = false -> plain_name (note ev) ->
  exists v',
    run_callback (EventCb sid st td ev index len) v = Ok v' /\
    (exists extra,
       timers v' = timers v ++ extra /\
       Forall (fun t => is_event t = false /\ (nextHandle v <= tid t)%nat) extra) /\
    (nextHandle v <= nextHandle v')%nat /\
    now v' = now v /\ editMode v' = false /\ activeNote v' = Some (note ev) /\
    List.filter is_bellplay (trace v')
    = ObsBellPlay sid index (note ev) (now v) :: List.filter is_bellplay (trace v) /\
    List.filter is_ring (trace v')
    = ring_of (activeNote v) (note ev) (now v) ++ List.filter is_ring (trace v).
Proof.
  intros He Hplain. cbn [run_callback].
  set (c := event_callback sid st td ev index len v).
  destruct (event_callback_fields sid st td ev index len v)
    as (Hnow & _ & _ & _ & _ & Hact & _ & Hedit & _ & Htr).
  pose proof (event_callback_timers sid st td ev index len v) as Ht.
  cbv zeta in Hnow, Hact, Hedit, Htr, Ht. fold c in Hnow, Hact, Hedit, Htr, Ht.
  assert (Hc : exists extra0,
             timers c = timers v ++ extra0 /\
             Forall (fun t => is_event t = false /\ (nextHandle v <= tid t)%nat) extra0 /\
             (nextHandle v <= nextHandle c)%nat).
  { destruct (Z.of_nat index =? Z.of_nat len - 1); destruct Ht as [Ht1 Ht2].
    - eexists. split; [exact Ht1|]. split; [|lia].
      constructor; [|constructor]. split; [reflexivity|simpl; lia].
    - exists []. rewrite app_nil_r. split; [exact Ht1|]. split; [constructor|lia]. }
  destruct Hc as (extra0 & Hc1 & Hc2 & Hc3).
  assert (Hout : exists v',
             activeNote_effect (activeNote v) c = Ok v' /\ bells_step c v' /\
             editMode v' = false /\ activeNote v' = activeNote c /\
             List.filter is_ring (trace v')
             = ring_of (activeNote v) (note ev) (now v) ++ List.filter is_ring (trace c)).
  { assert (Hec : editMode c = false) by congruence.
    unfold activeNote_effect, ring_of. rewrite Hact.
    destruct (decide (Some (note ev) = activeNote v)) as [Heq|Hne].
    - exists c. split; [reflexivity|]. split; [apply bells_step_refl|].
      split; [exact Hec|]. split; [exact Hact|reflexivity].
    - destruct (truthy (note ev)).
      + destruct (handleBellClick_normal (note ev) None c Hec Hplain)
          as (v' & H1 & H2 & H3 & H4).
        exists v'. rewrite H1, H4, Hnow. split; [reflexivity|].
        split; [eapply handleBellClick_bells, H1|].
        split; [exact H2|]. split; [congruence|reflexivity].
      + exists c. split; [reflexivity|]. split; [apply bells_step_refl|].
        split; [exact Hec|]. split; [exact Hact|reflexivity]. }
  destruct Hout as (v' & Ho & Hb & He' & Ha' & Hr').
  exists v'. split; [exact Ho|].
  destruct (bs_timers _ _ Hb) as (extra & Hx1 & Hx2).
  destruct (bs_trace _ _ Hb) as (ext & Hy1 & Hy2).
  pose proof (bs_next _ _ Hb) as Hn. split; [|split; [lia|]].
  { exists (extra0 ++ extra). rewrite Hx1, Hc1, <- app_assoc. split; [reflexivity|].
    rewrite Forall_app. split; [exact Hc2|].
    eapply Forall_impl; [exact Hx2|]. intros t [H1 H2]. split; [exact H1|lia]. }
  split; [now rewrite (bs_now _ _ Hb)|]. split; [exact He'|].
  split; [congruence|]. split.
  - rewrite Hy1, List.filter_app, Htr. cbn.
    rewrite (filter_none is_bellplay ext); [reflexivity|].
    intros o Ho'. rewrite Forall_forall in Hy2. now apply Hy2.
  - rewrite Hr', Htr. reflexivity.
Qed.

Lemma rev_ring_of (prev : option string) (n : string) (at_ms : Z) :
  rev (ring_of prev n at_ms) = ring_of prev n at_ms.
Proof. unfold ring_of. destruct (decide _); [reflexivity|]. now destruct (truthy n). Qed.

Lemma filter_all {A : Type} (P : A -> Prop) `{forall x, Decision (P x)} (l : list A) :
  Forall P l -> filter P l = l.
Proof.
  induction 1 as [|x l Hx _ IH]; [reflexivity|].
  rewrite filter_cons_True by exact Hx. now f_equal.
Qed.

Lemma on_time_run sid st td len (events : list NoteEvent) :
  forall index h prev w extras,
    sorted_from prev events -> 0 <= prev ->
    Forall (fun ev => plain_name (note ev)) events ->
    timers w = armed sid st td len index h st events ++ extras ->
    Forall (fun t => (h + length events <= tid t)%nat) extras ->
    (h + length events <= nextHandle w)%nat ->
    now w = st + prev -> editMode w = false ->
    exists w',
      run (on_time h prev events) w = Ok w' /\
      List.filter is_bellplay (trace w')
      = rev (bellplay_obs sid st index events) ++ List.filter is_bellplay (trace w) /\
      List.filter is_ring (trace w')
      = rev (ring_obs (activeNote w) st events) ++ List.filter is_ring (trace w).
Proof.
  induction events as [|ev rest IH];
    intros index h prev w extras Hs Hprev Hpl Ht Hex Hn Hnow Hedit.
  - exists w. now repeat split.
  - destruct Hs as [Hle Hs]. apply Forall_cons in Hpl as [Hpl1 Hpl].
    cbn [on_time run do_action length] in *.
    replace (0 <=? time ev - prev) with true by lia.
    set (w1 := set_now (now w + (time ev - prev)) w).
    set (T := mkTimer h (st + Z.max 0 (time ev))
                (EventCb sid st td ev index len)).
    assert (Hp : pending h w1 = Some T).
    { unfold pending. cbn. rewrite Ht. cbn. now rewrite bool_decide_eq_true_2. }
    rewrite Hp. cbn [due cb T].
    replace (st + Z.max 0 (time ev) <=? now w1) with true by (cbn; lia).
    assert (Hv : timers (clearTimeout h w1)
                 = armed sid st td len (S index) (S h) st rest ++ extras).
    { cbn. rewrite Ht. cbn [armed app]. fold T.
      rewrite filter_cons_False by (cbn; tauto).
      apply filter_all. rewrite Forall_app. split.
      - eapply Forall_impl; [apply armed_handles|]. intros t Hl. simpl in Hl. lia.
      - eapply Forall_impl; [exact Hex|]. intros t Hl. simpl in Hl. lia. }
    destruct (run_event_normal sid st td ev index len (clearTimeout h w1) Hedit Hpl1)
      as (v' & Hrun & (extra & Hx1 & Hx2) & Hn' & Hnow' & Hedit' & Hact' & Hbp & Hrg).
    rewrite Hrun.
    destruct (IH (S index) (S h) (time ev) v' (extras ++ extra))
      as (w' & Hrun' & Hbp' & Hrg'); try assumption.
    + lia.
    + now rewrite Hx1, Hv, <- app_assoc.
    + rewrite Forall_app. split.
      * eapply Forall_impl; [exact Hex|]. intros t Hl. simpl in Hl. lia.
      * eapply Forall_impl; [exact Hx2|]. intros t [_ Hl]. cbn in Hl. lia.
    + cbn in Hn'. lia.
    + rewrite Hnow'. cbn. lia.
    + exists w'. split; [exact Hrun'|]. split.
      * rewrite Hbp', Hbp. cbn [bellplay_obs rev now clearTimeout set_timers w1 set_now trace].
        rewrite <- app_assoc. cbn [app]. do 3 f_equal. lia.
      * rewrite Hrg', Hrg, Hact'.
        cbn [ring_obs now clearTimeout set_timers w1 set_now trace activeNote].
        rewrite rev_app_distr, rev_ring_of, <- app_assoc.
        do 2 f_equal. f_equal. lia.
Qed.

Lemma ring_obs_no_repeat (st : Z) (events : list NoteEvent) :
  forall prev,
    no_repeat prev events ->
    ring_obs prev st events
    = map (fun ev => ObsRing (note ev) (st + time ev)) events.
Proof.
  induction events as [|ev rest IH]; intros prev H; [reflexivity|].
  destruct H as (H1 & H2 & H3). cbn [ring_obs map]. unfold ring_of.
  rewrite decide_False by exact H1. rewrite H2. cbn. f_equal. now apply IH.
Qed.

Lemma play_through_trace (t0 : Z) (first : NoteEvent)
    (others : list NoteEvent) :
  let sequence := first :: others in
  sorted_from 0 sequence ->
  Forall (fun ev => note ev ∈ bell_notes) sequence ->
  exists w,
    run (play_through sequence) (init t0) = Ok w /\
    List.filter is_bellplay (trace w) = rev (bellplay_obs 0 t0 0 sequence) /\
    List.filter is_ring (trace w) = rev (ring_obs None t0 sequence).
Proof.
  intros sequence Hs Hbell.
  assert (Hpl : Forall (fun ev => plain_name (note ev)) sequence).
  { eapply Forall_impl; [exact Hbell|]. intros ev. apply bell_notes_plain. }
  unfold play_through. cbn [run do_action mounted init].
  set (w0 := playSequence (Some sequence) (init t0)).
  assert (H0 : timers w0
               = armed 0 t0 (time (List.last sequence first)) (length sequence)
                   0 0 t0 sequence ++ []
               /\ nextHandle w0 = length sequence /\ now w0 = t0
               /\ editMode w0 = false /\ trace w0 = [] /\ activeNote w0 = None).
  { subst w0 sequence. rewrite playSequence_unfold. cbv zeta.
    rewrite (stopPlayback_idle (init t0)) by reflexivity.
    rewrite app_nil_r. cbn. repeat split. }
  destruct H0 as (Ht & Hn & Hnow & He & Htr & Ha).
  destruct (on_time_run 0 t0 _ _ sequence 0 0 0 w0 [] Hs (Z.le_refl 0) Hpl Ht)
    as (w & Hrun & Hbp & Hrg); try assumption.
  - constructor.
  - rewrite Hn. cbn. lia.
  - rewrite Hnow. lia.
  - exists w. split; [exact Hrun|].
    rewrite Hbp, Hrg, Htr, Ha. cbn [List.filter]. now rewrite !app_nil_r.
Qed.



(** When, in addition, no two consecutive events have the same note, the
    bell rings exactly once for each event, at the time of the event. *)
Theorem play_through_rings_every_event (t0 : Z) (first : NoteEvent)
    (others : list NoteEvent) :
  let sequence := first :: others in
  sorted_from 0 sequence ->
  Forall (fun ev => note ev ∈ bell_notes) sequence ->
  no_repeat None sequence ->
  exists w,
    run (play_through sequence) (init t0) = Ok w /\
    rings w = map (fun ev => ObsRing (note ev) (t0 + time ev)) sequence.
Proof.
  intros sequence Hs Hb Hr.
  destruct (play_through_trace t0 first others Hs Hb) as (w & H1 & _ & H3).
  exists w. split; [exact H1|].
  unfold rings, history. rewrite List.filter_rev, H3, rev_involutive.
  now apply ring_obs_no_repeat.
Qed.

(** * The rest of the page

    More invariants of the player and of the bells, then the layout
    editor, the uploader, and the page as a whole. *)

(** A property that holds in the initial world and that every action
    preserves in a well-formed world holds in every reachable world. *)
Lemma reachable_ind (P : World -> Prop) (t0 : Z) :
  P (init t0) ->
  (forall a w w', wf w -> handles_ok w -> P w -> do_action a w = Ok w' -> P w') ->
  forall acts w, run acts (init t0) = Ok w -> P w.
Proof.
  intros H0 Hstep acts w.
  enough (H : forall v, wf v -> handles_ok v -> P v -> run acts v = Ok w -> P w).
  { apply H; [apply wf_init|now apply handles_ok_none|exact H0]. }
  induction acts as [|a rest IH]; intros v Hwf Hok HP; simpl.
  - now intros [= <-].
  - destruct (do_action a v) as [v1| |] eqn:E; try discriminate.
    apply IH; eauto using wf_do_action, handles_ok_do_action.
Qed.

(** ** The player is idle exactly when it holds no handles *)

Lemma coherent_bells_step (w w' : World) :
  bells_step w w' -> player_coherent w -> player_coherent w'.
Proof.
  intros Hb. unfold player_coherent.
  now rewrite (bs_isPlaying _ _ Hb), (bs_playerRef _ _ Hb), (bs_progress _ _ Hb).
Qed.

Lemma coherent_stopPlayback (w : World) : player_coherent (stopPlayback w).
Proof.
  unfold player_coherent.
  rewrite stopPlayback_isPlaying, stopPlayback_playerRef, stopPlayback_progress.
  now split.
Qed.

Lemma coherent_playSequence (sequence : option (list NoteEvent)) (w : World) :
  player_coherent w -> player_coherent (playSequence sequence w).
Proof.
  intros H. destruct sequence as [[|first others]|]; try exact H.
  rewrite playSequence_unfold. cbv zeta. unfold player_coherent. cbn. discriminate.
Qed.

Lemma coherent_do_action (a : Action) (w w' : World) :
  wf w -> player_coherent w -> do_action a w = Ok w' -> player_coherent w'.
Proof.
  intros Hwf Hc. destruct a as [d|h|s|s|  | |n e| ]; simpl.
  - destruct (0 <=? d); [|discriminate]. now intros [= <-].
  - destruct (pending h w) as [t|] eqn:Hp; [|discriminate].
    destruct (due t <=? now w); [|discriminate].
    apply pending_Some in Hp as [Hin _].
    destruct (cb t) as [sid st td ev index len|sid|m] eqn:Hcb; simpl.
    + intros H. apply activeNote_effect_bells in H.
      apply (coherent_bells_step _ _ H).
      destruct (event_callback_fields sid st td ev index len (clearTimeout h w))
        as (_ & Hi & Hr & _).
      cbv zeta in *. unfold player_coherent. rewrite Hi, Hr. cbn.
      unfold wf in Hwf. rewrite Forall_forall in Hwf.
      destruct (Hwf t Hin) as [_ Hok]. rewrite Hcb in Hok.
      destruct Hok as ((hs & Hhs & _) & _).
      unfold player_coherent in Hc. destruct (isPlaying w).
      * rewrite Hhs. discriminate.
      * destruct Hc as [Hn _]. congruence.
    + intros [= <-]. apply coherent_stopPlayback.
    + intros [= <-].
      exact (coherent_bells_step _ _ (clearFlag_bells m (clearTimeout h w)) Hc).
  - guarded. intros [= <-]. destruct (isPlaying w) eqn:E.
    + apply coherent_stopPlayback.
    + now apply coherent_playSequence.
  - guarded. intros [= <-]. now apply coherent_playSequence.
  - guarded. intros [= <-]. apply coherent_stopPlayback.
  - guarded. intros [= <-]. unfold unmount.
    pose proof (coherent_stopPlayback w) as H. exact H.
  - intros H. eapply coherent_bells_step; [eapply handleBellClick_bells, H|exact Hc].
  - intros [= <-]. eapply coherent_bells_step; [apply toggle_bells|exact Hc].
Qed.

Lemma coherent_reachable (t0 : Z) (acts : list Action) (w : World) :
  run acts (init t0) = Ok w -> player_coherent w.
Proof.
  revert acts w. apply reachable_ind.
  - unfold player_coherent. cbn. now split.
  - intros a v v' Hv _ Hc. now apply coherent_do_action.
Qed.

(** X9.  In every reachable world the button shows "Play" exactly when no
    handle list is kept; then the progress bar is at 0 and no timer of an
    event is pending. *)
Theorem idle_player_is_clean (t0 : Z) (acts : list Action) (w : World) :
  run acts (init t0) = Ok w ->
  (isPlaying w = false <-> playerRef w = None) /\
  (isPlaying w = false -> progress w = JFin 0 /\ event_timers w = []).
Proof.
  intros Hrun. pose proof (wf_reachable _ _ _ Hrun) as Hwf.
  pose proof (coherent_reachable _ _ _ Hrun) as Hc.
  unfold player_coherent in Hc.
  assert (Hnone : playerRef w = None -> event_timers w = []).
  { intros Hn. unfold event_timers. apply filter_none.
    unfold wf in Hwf. rewrite Forall_forall in Hwf.
    intros t Ht. destruct (Hwf t Ht) as [_ Hok]. unfold is_event.
    unfold cb_ok in Hok. destruct (cb t); try reflexivity.
    destruct Hok as ((hs & Hhs & _) & _). congruence. }
  destruct (isPlaying w).
  - split; [split; [discriminate|intros H; contradiction]|discriminate].
  - destruct Hc as [Hn Hp]. split; [tauto|]. intros _. split; [exact Hp|auto].
Qed.

(** X9, an instance.  The three-note example, stopped at 1000 ms. *)
Lemma idle_player_is_clean_witness :
  run stopped_acts (init 0) = Ok stopped_w /\
  isPlaying stopped_w = false /\
  ((isPlaying stopped_w = false <-> playerRef stopped_w = None) /\
   (isPlaying stopped_w = false ->
    progress stopped_w = JFin 0 /\ event_timers stopped_w = [])).
Proof.
  assert (H1 : run stopped_acts (init 0) = Ok stopped_w)
    by (vm_compute; reflexivity).
  split; [exact H1|]. split; [vm_compute; reflexivity|].
  exact (idle_player_is_clean 0 stopped_acts stopped_w H1).
Defined.

(** X10.  Stopping a player that is not playing changes nothing at all. *)
Theorem stop_when_idle_is_noop (t0 : Z) (acts : list Action) (w : World) :
  run acts (init t0) = Ok w ->
  isPlaying w = false ->
  stopPlayback w = w.
Proof.
  intros Hrun Hi. pose proof (coherent_reachable _ _ _ Hrun) as Hc.
  unfold player_coherent in Hc. rewrite Hi in Hc. destruct Hc as [Hn Hp].
  now apply stopPlayback_idle.
Qed.

(** X10, an instance.  The same world: a second stop changes nothing. *)
Lemma stop_when_idle_is_noop_witness :
  (run stopped_acts (init 0) = Ok stopped_w /\ isPlaying stopped_w = false) /\
  stopPlayback stopped_w = stopped_w.
Proof.
  assert (H1 : run stopped_acts (init 0) = Ok stopped_w)
    by (vm_compute; reflexivity).
  assert (H2 : isPlaying stopped_w = false) by (vm_compute; reflexivity).
  split; [exact (conj H1 H2)|].
  exact (stop_when_idle_is_noop 0 stopped_acts stopped_w H1 H2).
Defined.

(** ** One session at a time *)

Lemma one_session_sub (w w' : World) :
  sessions w' = sessions w ->
  (forall t, t ∈ timers w' -> t ∈ timers w \/ is_event t = false) ->
  one_session w -> one_session w'.
Proof.
  intros Hs Hsub [H1 H2]. rewrite Forall_forall in H1. split.
  - rewrite Forall_forall. intros t Ht. unfold of_latest. rewrite Hs.
    destruct (Hsub t Ht) as [Hin|Hne]; [exact (H1 t Hin)|].
    unfold is_event in Hne. now destruct (cb t).
  - intros t1 t2 Ht1 Ht2.
    destruct (Hsub t1 Ht1) as [Hin1|Hne1].
    + destruct (Hsub t2 Ht2) as [Hin2|Hne2]; [now apply H2|].
      unfold same_session, is_event in *. destruct (cb t1); auto.
      now destruct (cb t2).
    + unfold same_session, is_event in *. now destruct (cb t1).
Qed.

Lemma sessions_run_callback (c : Callback) (w w' : World) :
  run_callback c w = Ok w' -> sessions w' = sessions w.
Proof.
  destruct c as [sid st td ev index len|sid|n]; simpl.
  - intros H. apply activeNote_effect_bells in H. rewrite (bs_sessions _ _ H).
    now destruct (event_callback_fields sid st td ev index len w)
      as (_ & _ & _ & _ & Hs & _).
  - intros [= <-]. now destruct (stopPlayback_frame w) as (_ & _ & Hs & _).
  - now intros [= <-].
Qed.

Lemma one_session_stopPlayback (w : World) :
  one_session w -> one_session (stopPlayback w).
Proof.
  apply one_session_sub.
  - now destruct (stopPlayback_frame w) as (_ & _ & Hs & _).
  - intros t Ht. left. now apply stopPlayback_subset.
Qed.

Lemma one_session_playSequence (sequence : option (list NoteEvent)) (w : World) :
  wf w -> one_session w -> one_session (playSequence sequence w).
Proof.
  intros Hwf H. destruct sequence as [[|first others]|]; try exact H.
  rewrite playSequence_unfold. cbv zeta.
  remember (first :: others) as sequence eqn:Hseq. clear Hseq.
  unfold one_session, of_latest, same_session.
  cbn [timers sessions set_playerRef set_nextHandle set_timers set_sessions].
  split.
  - rewrite Forall_app. split.
    + rewrite Forall_forall. intros t Ht.
      apply (stopPlayback_no_event w t Hwf) in Ht.
      unfold is_event in Ht. now destruct (cb t).
    + rewrite Forall_forall. intros t Ht.
      now apply armed_spec in Ht as (k & ev & _ & ->).
  - intros t1 t2 Ht1 Ht2. apply elem_of_app in Ht1, Ht2.
    destruct Ht1 as [Ht1|Ht1].
    { apply (stopPlayback_no_event w t1 Hwf) in Ht1.
      unfold is_event in Ht1. now destruct (cb t1). }
    destruct Ht2 as [Ht2|Ht2].
    { apply (stopPlayback_no_event w t2 Hwf) in Ht2.
      unfold is_event in Ht2. destruct (cb t1); auto. now destruct (cb t2). }
    apply armed_spec in Ht1 as (k1 & ev1 & _ & ->).
    apply armed_spec in Ht2 as (k2 & ev2 & _ & ->). now cbn.
Qed.

Lemma one_session_do_action (a : Action) (w w' : World) :
  wf w -> one_session w -> do_action a w = Ok w' -> one_session w'.
Proof.
  intros Hwf Hc. destruct a as [d|h|s|s|  | |n e| ]; simpl.
  - destruct (0 <=? d); [|discriminate]. now intros [= <-].
  - destruct (pending h w) as [t|] eqn:Hp; [|discriminate].
    destruct (due t <=? now w); [|discriminate]. intros H.
    apply (one_session_sub w); [|  |exact Hc].
    + now rewrite (sessions_run_callback _ _ _ H).
    + intros u Hu. destruct (timers_run_callback _ _ _ u H Hu) as [Hin|Hne]; auto.
      left. now apply (clearTimeout_subset h).
  - guarded. intros [= <-]. destruct (isPlaying w).
    + now apply one_session_stopPlayback.
    + now apply one_session_playSequence.
  - guarded. intros [= <-]. now apply one_session_playSequence.
  - guarded. intros [= <-]. now apply one_session_stopPlayback.
  - guarded. intros [= <-]. unfold unmount.
    exact (one_session_stopPlayback w Hc).
  - intros H. apply handleBellClick_bells in H.
    apply (one_session_sub w); [exact (bs_sessions _ _ H)| |exact Hc].
    intros u Hu. exact (bells_step_timers _ _ u H Hu).
  - intros [= <-]. now apply (one_session_sub w); [| |exact Hc]; auto.
Qed.

(** X11.  Every pending timer of an event was armed by the most recent call
    of [playSequence] that started a session: two such timers carry the same
    start time, the same total duration and the same length. *)
Theorem pending_events_of_one_session (t0 : Z) (acts : list Action) (w : World) :
  run acts (init t0) = Ok w ->
  Forall (of_latest w) (timers w) /\
  forall t1 t2, t1 ∈ timers w -> t2 ∈ timers w -> same_session t1 t2.
Proof.
  revert acts w. apply (reachable_ind one_session).
  - split; [constructor|]. intros t1 t2 H. now apply elem_of_nil in H.
  - intros a v v' Hv _ Hc. now apply one_session_do_action.
Qed.

(** X11, an instance.  The three-note example at 1000 ms, with the timer of
    "Sol" pending. *)
Lemma pending_events_of_one_session_witness :
  run demo_acts (init 0) = Ok demo_w /\
  event_timers demo_w = [demo_last] /\
  (Forall (of_latest demo_w) (timers demo_w) /\
   forall t1 t2, t1 ∈ timers demo_w -> t2 ∈ timers demo_w -> same_session t1 t2).
Proof.
  assert (H1 : run demo_acts (init 0) = Ok demo_w) by (vm_compute; reflexivity).
  split; [exact H1|]. split; [vm_compute; reflexivity|].
  exact (pending_events_of_one_session 0 demo_acts demo_w H1).
Defined.

(** ** Handles are unique, and a lit bell has a timer that unlights it *)

Lemma handleBellClick_shape (n : string) (e : option ClickEvent) (w w' : World) :
  handleBellClick n e w = Ok w' ->
  now w' = now w /\
  ((timers w' = timers w /\ playingNotes w' = playingNotes w) \/
   (timers w' = timers w ++ [mkTimer (nextHandle w) (now w + 200) (ClearFlagCb n)]
    /\ playingNotes w' = <[n := true]> (playingNotes w))).
Proof.
  unfold handleBellClick. destruct (editMode w).
  - destruct e as [ev|]; [|discriminate].
    destruct (on_resize_handle ev); intros [= <-]; cbn; auto.
  - destruct (audioRefs n); [| discriminate |]; intros [= <-]; cbn; auto.
Qed.

Lemma activeNote_effect_shape (prev : option string) (w w' : World) :
  activeNote_effect prev w = Ok w' ->
  now w' = now w /\
  ((timers w' = timers w /\ playingNotes w' = playingNotes w) \/
   exists n,
     timers w' = timers w ++ [mkTimer (nextHandle w) (now w + 200) (ClearFlagCb n)]
     /\ playingNotes w' = <[n := true]> (playingNotes w)).
Proof.
  unfold activeNote_effect. destruct (decide (activeNote w = prev)).
  { intros [= <-]. auto. }
  destruct (activeNote w) as [m|]; [|intros [= <-]; auto].
  destruct (truthy m); [|intros [= <-]; auto].
  intros H. apply handleBellClick_shape in H as [Hn [H|H]]; eauto.
Qed.

Lemma unique_filter (P : Timer -> Prop) `{!forall t, Decision (P t)}
    (w w' : World) :
  timers w' = filter P (timers w) -> unique_handles w -> unique_handles w'.
Proof.
  unfold unique_handles. intros -> Hu. eapply sublist_NoDup; [exact Hu|].
  apply fmap_sublist, sublist_filter.
Qed.

Lemma unique_fresh (w w' : World) (d : Z) (c : Callback) :
  wf w -> timers w' = timers w ++ [mkTimer (nextHandle w) d c] ->
  unique_handles w -> unique_handles w'.
Proof.
  unfold unique_handles. intros Hwf -> H. rewrite fmap_app. apply NoDup_app.
  split; [exact H|]. split; [|apply NoDup_singleton].
  intros h Hh Hin. cbn in Hin. apply list_elem_of_singleton in Hin as ->.
  apply list_elem_of_fmap in Hh as (t & Ht & Hin).
  unfold wf in Hwf. rewrite Forall_forall in Hwf.
  destruct (Hwf t Hin) as [Hlt _]. lia.
Qed.

Lemma unique_stopPlayback (w : World) :
  unique_handles w -> unique_handles (stopPlayback w).
Proof.
  intros H. pose proof (stopPlayback_timers w) as Ht.
  destruct (playerRef w) as [hs|].
  - exact (unique_filter _ _ _ Ht H).
  - unfold unique_handles. now rewrite Ht.
Qed.

Lemma armed_tids sid st td len (events : list NoteEvent) :
  forall index h t0,
    tid <$> armed sid st td len index h t0 events = seq h (length events).
Proof.
  induction events as [|ev rest IH]; intros index h t0; cbn; [reflexivity|].
  f_equal. apply IH.
Qed.

Lemma unique_playSequence (sequence : option (list NoteEvent)) (w : World) :
  wf w -> unique_handles w -> unique_handles (playSequence sequence w).
Proof.
  intros Hwf H. destruct sequence as [[|first others]|]; try exact H.
  rewrite playSequence_unfold. cbv zeta.
  remember (first :: others) as sequence eqn:Hseq. clear Hseq.
  unfold unique_handles.
  cbn [timers set_playerRef set_nextHandle set_timers set_sessions].
  rewrite fmap_app, armed_tids. apply NoDup_app.
  split; [exact (unique_stopPlayback w H)|]. split; [|apply NoDup_seq].
  intros h Hh Hin. apply elem_of_seq in Hin.
  apply list_elem_of_fmap in Hh as (t & Ht & Hin').
  apply stopPlayback_subset in Hin'.
  unfold wf in Hwf. rewrite Forall_forall in Hwf.
  destruct (Hwf t Hin') as [Hlt _]. lia.
Qed.

Lemma unique_shape (w w' : World) :
  wf w ->
  (timers w' = timers w \/
   exists d c, timers w' = timers w ++ [mkTimer (nextHandle w) d c]) ->
  unique_handles w -> unique_handles w'.
Proof.
  intros Hwf [H|(d & c & H)] Hu.
  - unfold unique_handles. now rewrite H.
  - exact (unique_fresh w w' d c Hwf H Hu).
Qed.

Lemma unique_event_callback sid st td ev index len (w : World) :
  wf w -> unique_handles w ->
  unique_handles (event_callback sid st td ev index len w).
Proof.
  intros Hwf. apply (unique_shape _ _ Hwf).
  pose proof (event_callback_timers sid st td ev index len w) as Ht.
  cbv zeta in Ht. destruct (Z.of_nat index =? Z.of_nat len - 1).
  - right. destruct Ht as [Ht _]. eauto.
  - left. now destruct Ht.
Qed.

Lemma unique_do_action (a : Action) (w w' : World) :
  wf w -> unique_handles w -> do_action a w = Ok w' -> unique_handles w'.
Proof.
  intros Hwf Hu. destruct a as [d|h|s|s|  | |n e| ]; simpl.
  - destruct (0 <=? d); [|discriminate]. now intros [= <-].
  - destruct (pending h w) as [t|] eqn:Hp; [|discriminate].
    destruct (due t <=? now w); [|discriminate].
    assert (Hu1 : unique_handles (clearTimeout h w))
      by exact (unique_filter (fun t => tid t ≠ h) w (clearTimeout h w) eq_refl Hu).
    pose proof (wf_clearTimeout h w Hwf) as Hwf1.
    destruct (cb t) as [sid st td ev index len|sid|m]; simpl.
    + intros H. apply activeNote_effect_shape in H as [_ H].
      eapply unique_shape; [apply wf_event_callback, Hwf1| |].
      * destruct H as [[H _]|(n & H & _)]; [left; exact H|right; eauto].
      * now apply unique_event_callback.
    + intros [= <-]. now apply unique_stopPlayback.
    + now intros [= <-].
  - guarded. intros [= <-]. destruct (isPlaying w).
    + now apply unique_stopPlayback.
    + now apply unique_playSequence.
  - guarded. intros [= <-]. now apply unique_playSequence.
  - guarded. intros [= <-]. now apply unique_stopPlayback.
  - guarded. intros [= <-]. unfold unmount.
    exact (unique_stopPlayback w Hu).
  - intros H. apply handleBellClick_shape in H as [_ H].
    eapply unique_shape; [exact Hwf| |exact Hu].
    destruct H as [[H _]|[H _]]; [left; exact H|right; eauto].
  - now intros [= <-].
Qed.

Lemma unique_reachable (t0 : Z) (acts : list Action) (w : World) :
  run acts (init t0) = Ok w -> unique_handles w.
Proof.
  revert acts w. apply (reachable_ind unique_handles).
  - constructor.
  - intros a v v' Hv _ Hc. now apply unique_do_action.
Qed.

Lemma unique_same (w : World) (t u : Timer) :
  unique_handles w -> t ∈ timers w -> u ∈ timers w -> tid t = tid u -> t = u.
Proof.
  unfold unique_handles. induction (timers w) as [|x l IH]; intros Hu Ht Hv He.
  - now apply elem_of_nil in Ht.
  - cbn in Hu. apply NoDup_cons in Hu as [Hx Hl].
    apply elem_of_cons in Ht as [->|Ht]; apply elem_of_cons in Hv as [->|Hv];
      auto.
    + exfalso. apply Hx. rewrite He. apply list_elem_of_fmap. eauto.
    + exfalso. apply Hx. rewrite <- He. apply list_elem_of_fmap. eauto.
Qed.

Lemma pending_of_elem (w : World) (t : Timer) :
  unique_handles w -> t ∈ timers w -> pending (tid t) w = Some t.
Proof.
  intros Hu Ht. destruct (pending (tid t) w) as [u|] eqn:Hp.
  - apply pending_Some in Hp as [Hin He]. f_equal. now apply (unique_same w).
  - unfold pending in Hp. apply list_elem_of_In in Ht.
    apply (find_none _ _ Hp) in Ht. now rewrite bool_decide_eq_true_2 in Ht.
Qed.

Lemma lit_keep (w w' : World) :
  now w <= now w' ->
  (forall n, flag n w' = true -> flag n w = true) ->
  (forall t, t ∈ timers w -> is_event t = false -> t ∈ timers w') ->
  lit_bells_clear w -> lit_bells_clear w'.
Proof.
  intros Hn Hf Ht H n Hfl. destruct (H n (Hf n Hfl)) as (t & Hin & Hc & Hd).
  exists t. split; [|split; [exact Hc|lia]].
  apply Ht; [exact Hin|]. unfold is_event. now rewrite Hc.
Qed.

Lemma lit_shape (n : string) (w w' : World) :
  now w' = now w ->
  (timers w' = timers w /\ playingNotes w' = playingNotes w) \/
  (timers w' = timers w ++ [mkTimer (nextHandle w) (now w + 200) (ClearFlagCb n)]
   /\ playingNotes w' = <[n := true]> (playingNotes w)) ->
  lit_bells_clear w -> lit_bells_clear w'.
Proof.
  intros Hn [[Ht Hp]|[Ht Hp]] H.
  - apply (lit_keep w); [lia| |now rewrite Ht|exact H].
    intros m. unfold flag. now rewrite Hp.
  - intros m Hm. destruct (decide (m = n)) as [->|Hne].
    + exists (mkTimer (nextHandle w) (now w + 200) (ClearFlagCb n)).
      rewrite Ht. split; [apply elem_of_app; right; apply list_elem_of_here|].
      split; [reflexivity|cbn; lia].
    + unfold flag in Hm. rewrite Hp, lookup_insert_ne in Hm by congruence.
      destruct (H m Hm) as (t & Hin & Hc & Hd). exists t.
      rewrite Ht. split; [apply elem_of_app; now left|]. split; [exact Hc|lia].
Qed.

Lemma lit_stopPlayback (w : World) :
  handles_ok w -> lit_bells_clear w -> lit_bells_clear (stopPlayback w).
Proof.
  intros Hok. destruct (stopPlayback_frame w) as (Hn & _ & _ & _ & _ & _ & Hp & _).
  apply lit_keep.
  - lia.
  - intros n. unfold flag. now rewrite Hp.
  - intros t. now apply handles_keep.
Qed.

Lemma lit_playSequence (sequence : option (list NoteEvent)) (w : World) :
  handles_ok w -> lit_bells_clear w -> lit_bells_clear (playSequence sequence w).
Proof.
  intros Hok H. destruct sequence as [[|first others]|]; try exact H.
  apply (lit_keep (stopPlayback w)); [| | |now apply lit_stopPlayback];
    rewrite playSequence_unfold; cbv zeta.
  - cbn. lia.
  - intros n. unfold flag. now cbn.
  - intros t Ht _. cbn [timers set_playerRef set_nextHandle set_timers].
    apply elem_of_app. now left.
Qed.

Lemma lit_event_callback sid st td ev index len (w : World) :
  lit_bells_clear w -> lit_bells_clear (event_callback sid st td ev index len w).
Proof.
  destruct (event_callback_fields sid st td ev index len w)
    as (Hn & _ & _ & _ & _ & _ & Hp & _).
  pose proof (event_callback_timers sid st td ev index len w) as Ht.
  cbv zeta in *. apply lit_keep.
  - lia.
  - intros n. unfold flag. now rewrite Hp.
  - intros t Hin _. destruct (Z.of_nat index =? Z.of_nat len - 1);
      destruct Ht as [-> _]; [apply elem_of_app; now left|exact Hin].
Qed.

Lemma lit_do_action (a : Action) (w w' : World) :
  handles_ok w -> unique_handles w -> lit_bells_clear w ->
  do_action a w = Ok w' -> lit_bells_clear w'.
Proof.
  intros Hok Hu Hl. destruct a as [d|h|s|s|  | |n e| ]; simpl.
  - destruct (0 <=? d) eqn:Hd; [|discriminate]. intros [= <-].
    apply (lit_keep w); cbn; auto. lia.
  - destruct (pending h w) as [t|] eqn:Hp; [|discriminate].
    destruct (due t <=? now w); [|discriminate].
    apply pending_Some in Hp as [Hin Hh].
    assert (Hrest : forall n, flag n w = true -> cb t <> ClearFlagCb n ->
              exists u, u ∈ timers (clearTimeout h w) /\ clears n w u).
    { intros n Hn Hne. destruct (Hl n Hn) as (u & Hu1 & Hc & Hd).
      exists u. split; [|now split]. cbn. apply list_elem_of_filter.
      split; [|exact Hu1]. intros He. apply Hne.
      rewrite <- (unique_same w u t Hu Hu1 Hin); [exact Hc|congruence]. }
    pose proof (handles_ok_clearTimeout h w Hok) as Hok1.
    destruct (cb t) as [sid st td ev index len|sid|m]; simpl.
    + assert (Hl1 : lit_bells_clear (clearTimeout h w)).
      { intros n Hn. now apply Hrest. }
      intros H. apply activeNote_effect_shape in H as [Hn H].
      assert (Hl2 := lit_event_callback sid st td ev index len _ Hl1).
      destruct H as [H|(n & H)];
        [apply (lit_shape (note ev) (event_callback sid st td ev index len
                                       (clearTimeout h w)))
        |apply (lit_shape n (event_callback sid st td ev index len
                               (clearTimeout h w)))]; auto.
    + assert (Hl1 : lit_bells_clear (clearTimeout h w)).
      { intros n Hn. now apply Hrest. }
      intros [= <-]. now apply lit_stopPlayback.
    + intros [= <-]. intros n Hn. unfold flag in Hn. cbn in Hn.
      destruct (decide (n = m)) as [->|Hne].
      { now rewrite lookup_insert_eq in Hn. }
      rewrite lookup_insert_ne in Hn by congruence.
      apply (Hrest n Hn). congruence.
  - guarded. intros [= <-]. destruct (isPlaying w).
    + now apply lit_stopPlayback.
    + now apply lit_playSequence.
  - guarded. intros [= <-]. now apply lit_playSequence.
  - guarded. intros [= <-]. now apply lit_stopPlayback.
  - guarded. intros [= <-]. unfold unmount.
    exact (lit_stopPlayback w Hok Hl).
  - intros H. apply handleBellClick_shape in H as [Hn H].
    now apply (lit_shape n w).
  - intros [= <-]. apply (lit_keep w); cbn; auto. lia.
Qed.

(** X12.  A lit bell does not stay lit: whenever the flag of a note is set
    in a reachable world, a timer that clears it is pending and is due no
    later than 200 ms from now; when that timer fires, the flag is false. *)
Theorem lit_bell_has_clear_timer (t0 : Z) (acts : list Action) (w : World)
    (n : string) :
  run acts (init t0) = Ok w ->
  flag n w = true ->
  exists t,
    pending (tid t) w = Some t /\ cb t = ClearFlagCb n /\
    due t <= now w + 200 /\
    forall w', do_action (Fire (tid t)) w = Ok w' -> flag n w' = false.
Proof.
  intros Hrun Hn. pose proof (unique_reachable _ _ _ Hrun) as Hu.
  assert (Hl : unique_handles w /\ lit_bells_clear w).
  { clear Hn Hu. revert acts w Hrun.
    apply (reachable_ind (fun w => unique_handles w /\ lit_bells_clear w)).
    - split; [constructor|]. intros m Hm. discriminate.
    - intros a v v' Hv Hok [Hu Hl] Ha. split.
      + exact (unique_do_action a v v' Hv Hu Ha).
      + exact (lit_do_action a v v' Hok Hu Hl Ha). }
  destruct Hl as [_ Hl]. destruct (Hl n Hn) as (t & Hin & Hc & Hd).
  exists t. pose proof (pending_of_elem w t Hu Hin) as Hp.
  repeat split; try assumption.
  intros w'. cbn [do_action]. rewrite Hp, Hc.
  destruct (due t <=? now w); [|discriminate]. cbn. intros [= <-].
  unfold flag. cbn. now rewrite lookup_insert_eq.
Qed.

(** X12, an instance.  One click on "Do": the bell is lit and the timer with
    handle 0 is due at 200 ms. *)
Lemma lit_bell_has_clear_timer_witness :
  (run [ClickBell "Do" click] (init 0) = Ok clicked_w /\
   flag "Do" clicked_w = true) /\
  exists t,
    pending (tid t) clicked_w = Some t /\ cb t = ClearFlagCb "Do" /\
    due t <= now clicked_w + 200 /\
    forall w', do_action (Fire (tid t)) clicked_w = Ok w' -> flag "Do" w' = false.
Proof.
  assert (H1 : run [ClickBell "Do" click] (init 0) = Ok clicked_w)
    by (vm_compute; reflexivity).
  assert (H2 : flag "Do" clicked_w = true) by (vm_compute; reflexivity).
  split; [exact (conj H1 H2)|].
  exact (lit_bell_has_clear_timer 0 [ClickBell "Do" click] clicked_w "Do" H1 H2).
Defined.

(** ** What [playSequence] arms *)

Lemma armed_lookup sid st td len (events : list NoteEvent) :
  forall index h t0 k ev,
    events !! k = Some ev ->
    mkTimer (h + k) (t0 + Z.max 0 (time ev))
      (EventCb sid st td ev (index + k) len)
    ∈ armed sid st td len index h t0 events.
Proof.
  induction events as [|e rest IH]; intros index h t0 k ev Hk; [discriminate|].
  destruct k as [|k]; cbn in Hk |- *.
  - injection Hk as <-. rewrite !Nat.add_0_r. apply list_elem_of_here.
  - apply list_elem_of_further.
    replace (h + S k)%nat with (S h + k)%nat by lia.
    replace (index + S k)%nat with (S index + k)%nat by lia.
    now apply IH.
Qed.

(** X13.  What a call of [playSequence] with a non-empty sequence leaves
    behind in a reachable world: the player is playing, at 0 percent; the
    pending timers of events are exactly one for each event, in order, the
    one of the event at position [k] due [time] milliseconds from now (now,
    for a negative [time]); and [playerRef.current] holds exactly the
    handles of these timers. *)
Theorem playSequence_arms_every_event (t0 : Z) (acts : list Action)
    (w : World) (first : NoteEvent) (others : list NoteEvent) :
  run acts (init t0) = Ok w ->
  let sequence := first :: others in
  let w' := playSequence (Some sequence) w in
  isPlaying w' = true /\ progress w' = JFin 0 /\
  event_timers w' = armed_by (Some sequence) w /\
  playerRef w' = Some (tid <$> event_timers w') /\
  length (event_timers w') = length sequence /\
  forall k ev,
    sequence !! k = Some ev ->
    mkTimer (nextHandle w + k) (now w + Z.max 0 (time ev))
      (EventCb (sessions w) (now w) (time (List.last sequence first)) ev k
         (length sequence))
    ∈ timers w'.
Proof.
  intros Hrun sequence w'. apply wf_reachable in Hrun.
  assert (He : event_timers w' = armed_by (Some sequence) w).
  { subst w' sequence. rewrite playSequence_unfold. cbv zeta.
    unfold event_timers, armed_by.
    cbn [timers set_playerRef set_nextHandle set_timers].
    rewrite List.filter_app.
    change (List.filter is_event (timers (stopPlayback w)))
      with (event_timers (stopPlayback w)).
    rewrite (stopPlayback_event_timers w Hrun). cbn [app].
    apply forallb_filter_id. apply forallb_forall. intros t Ht.
    apply list_elem_of_In, armed_spec in Ht as (k & ev & _ & ->). reflexivity. }
  split; [|split; [|split; [exact He|split; [|split]]]].
  - subst w' sequence. rewrite playSequence_unfold. reflexivity.
  - subst w'. now rewrite playSequence_progress.
  - rewrite He. subst w' sequence. rewrite playSequence_unfold. cbv zeta.
    unfold armed_by. rewrite armed_tids. reflexivity.
  - rewrite He. unfold armed_by. subst sequence.
    rewrite <- (length_fmap tid), armed_tids. apply length_seq.
  - intros k ev Hk. subst w' sequence.
    rewrite playSequence_unfold. cbv zeta.
    cbn [timers set_playerRef set_nextHandle set_timers].
    apply elem_of_app. right.
    exact (armed_lookup (sessions w) (now w) _ _ (first :: others) 0%nat
             (nextHandle w) (now w) k ev Hk).
Qed.

(** X13, an instance.  [seqB] is played at 1000 ms of the three-note
    example: one timer, with handle 5, due at 2000 ms. *)
Lemma playSequence_arms_every_event_witness :
  run demo_acts (init 0) = Ok demo_w /\
  event_timers (playSequence (Some seqB) demo_w)
  = [mkTimer 5 2000 (EventCb 1 1000 1000 (mkEvent "Mi" 1000) 0 1)] /\
  (isPlaying (playSequence (Some (mkEvent "Mi" 1000 :: [])) demo_w) = true /\
   progress (playSequence (Some (mkEvent "Mi" 1000 :: [])) demo_w) = JFin 0 /\
   event_timers (playSequence (Some (mkEvent "Mi" 1000 :: [])) demo_w)
   = armed_by (Some (mkEvent "Mi" 1000 :: [])) demo_w /\
   playerRef (playSequence (Some (mkEvent "Mi" 1000 :: [])) demo_w)
   = Some (tid <$> event_timers
                     (playSequence (Some (mkEvent "Mi" 1000 :: [])) demo_w)) /\
   length (event_timers (playSequence (Some (mkEvent "Mi" 1000 :: [])) demo_w))
   = length (mkEvent "Mi" 1000 :: []) /\
   forall k ev,
     (mkEvent "Mi" 1000 :: []) !! k = Some ev ->
     mkTimer (nextHandle demo_w + k) (now demo_w + Z.max 0 (time ev))
       (EventCb (sessions demo_w) (now demo_w)
          (time (List.last (mkEvent "Mi" 1000 :: []) (mkEvent "Mi" 1000))) ev k
          (length (mkEvent "Mi" 1000 :: [])))
     ∈ timers (playSequence (Some (mkEvent "Mi" 1000 :: [])) demo_w)).
Proof.
  assert (H1 : run demo_acts (init 0) = Ok demo_w) by (vm_compute; reflexivity).
  split; [exact H1|]. split; [vm_compute; reflexivity|].
  exact (playSequence_arms_every_event 0 demo_acts demo_w (mkEvent "Mi" 1000) [] H1).
Defined.

(** ** What the player shows *)

Lemma range_run (acts : list Action) :
  forall v v', wf v -> Forall positive_duration acts ->
    Forall cb_positive (timers v) -> js_between 0 100 (progress v) ->
    run acts v = Ok v' -> js_between 0 100 (progress v').
Proof.
  induction acts as [|a rest IH]; intros v v' Hwf Hpos Hcb Hpr; simpl.
  - now intros [= <-].
  - destruct (do_action a v) as [v1| |] eqn:E; try discriminate.
    inversion Hpos as [|? ? Ha Hrest]; subst.
    destruct (range_do_action _ _ _ Hwf Ha Hcb Hpr E) as [Hcb1 Hpr1].
    apply IH; eauto using wf_do_action.
Qed.

(** X14.  As long as every sequence that is played ends at a positive time,
    the number that the player shows in front of the percent sign is a whole
    number from 0 to 100. *)
Theorem progress_text_whole_percent (t0 : Z) (acts : list Action) (w : World) :
  Forall positive_duration acts ->
  run acts (init t0) = Ok w ->
  exists k : Z, progress_text w = js_of_Z k /\ 0 <= k <= 100.
Proof.
  intros Hpos Hrun.
  assert (H : js_between 0 100 (progress w)).
  { apply (range_run acts (init t0) w (wf_init t0) Hpos);
      [constructor|split; discriminate|exact Hrun]. }
  unfold progress_text. destruct (progress w) as [q| | |]; try contradiction.
  destruct H as [H0 H100]. exists (Qfloor (q + (1 # 2))%Q). split; [reflexivity|].
  split.
  - change 0 with (Qfloor (0 + (1 # 2))%Q). apply Qfloor_resp_le.
    now apply Qplus_le_l.
  - change 100 with (Qfloor (100 + (1 # 2))%Q). apply Qfloor_resp_le.
    now apply Qplus_le_l.
Qed.

(** X14, an instance.  The three-note example at 1000 ms shows 50. *)
Lemma progress_text_whole_percent_witness :
  (Forall positive_duration demo_acts /\ run demo_acts (init 0) = Ok demo_w) /\
  progress_text demo_w = js_of_Z 50 /\
  exists k : Z, progress_text demo_w = js_of_Z k /\ 0 <= k <= 100.
Proof.
  assert (H0 : Forall positive_duration demo_acts).
  { unfold demo_acts. repeat (apply Forall_cons; split; [|]);
      [reflexivity|exact I|exact I|exact I|exact I|apply Forall_nil_2]. }
  assert (H1 : run demo_acts (init 0) = Ok demo_w) by (vm_compute; reflexivity).
  split; [exact (conj H0 H1)|]. split; [vm_compute; reflexivity|].
  exact (progress_text_whole_percent 0 demo_acts demo_w H0 H1).
Defined.

(** ** The completion timer *)

(** X26.  When the callback of the last event of a session runs, it arms
    a timer for [stopPlayback] with a delay of 500 ms and a fresh handle.
    Outside edit mode the step in which the callback runs ends normally,
    and the timer is pending after it.  The timer cannot fire before the
    500 ms have elapsed, and in whatever reachable world it fires
    afterwards, the session is torn down: [isPlaying] is false, [progress]
    is 0, [playerRef.current] is null and no event timer is pending.
    Nothing is said here of other timers that run [stopPlayback] in the
    meantime. *)
Theorem completion_timer_after_grace (t0 : Z) (acts : list Action) (w : World)
    (h : nat) (t : Timer) sid st td ev index len :
  run acts (init t0) = Ok w ->
  pending h w = Some t ->
  cb t = EventCb sid st td ev index len ->
  Z.of_nat index = Z.of_nat len - 1 ->
  let g := mkTimer (nextHandle w) (now w + 500) (StopCb sid) in
  pending (tid g) (event_callback sid st td ev index len (clearTimeout h w))
  = Some g /\
  (editMode w = false -> plain_name (note ev) -> due t <= now w ->
   exists w1, do_action (Fire h) w = Ok w1) /\
  (forall w1, do_action (Fire h) w = Ok w1 -> pending (tid g) w1 = Some g) /\
  forall (acts2 : list Action) (w2 : World),
    run acts2 (init t0) = Ok w2 ->
    pending (tid g) w2 = Some g ->
    (now w2 < now w + 500 -> do_action (Fire (tid g)) w2 = NotEnabled) /\
    (now w + 500 <= now w2 ->
     exists w3,
       do_action (Fire (tid g)) w2 = Ok w3 /\
       isPlaying w3 = false /\ progress w3 = JFin 0 /\
       playerRef w3 = None /\ event_timers w3 = []).
Proof.
  intros Hrun Hp Hcb Hlast g.
  pose proof (wf_reachable _ _ _ Hrun) as Hwf.
  pose proof (event_callback_timers sid st td ev index len (clearTimeout h w)) as Ht.
  cbv zeta in Ht. apply Z.eqb_eq in Hlast. rewrite Hlast in Ht.
  destruct Ht as [Ht _].
  assert (Hfresh : Forall (fun x => tid x <> tid g) (timers (clearTimeout h w))).
  { apply (wf_handles_below (clearTimeout h w)). now apply wf_clearTimeout. }
  split; [|split; [|split]].
  - unfold pending. rewrite Ht. now apply find_fresh.
  - intros Hedit Hplain Hdue. rewrite (fire_when_due _ _ _ Hp Hdue), Hcb.
    destruct (run_event_normal sid st td ev index len (clearTimeout h w)
                Hedit Hplain) as (w1 & H1 & _).
    now exists w1.
  - intros w1 Hfire.
    destruct (fire_event _ _ _ _ _ _ _ _ _ _ Hp Hcb Hfire) as [_ Hb].
    exact (bells_step_pending_fresh _ _ _ g Hb Ht Hfresh).
  - intros acts2 w2 Hrun2 Hg. split.
    + intros Hlt. eapply fire_not_before; eauto.
    + intros Hle.
      rewrite (fire_when_due _ _ _ Hg) by exact Hle.
      eexists. split; [reflexivity|].
      pose proof (wf_reachable _ _ _ Hrun2) as Hwf2.
      repeat split.
      * apply stopPlayback_playerRef.
      * apply stopPlayback_event_timers. now apply wf_clearTimeout.
Qed.

(** X26, an instance.  The completion timer is armed when
    "Sol" rings at 1000 ms; its handle is 5 and it is due at 1500 ms. *)
Lemma completion_timer_after_grace_witness :
  (run demo_acts (init 0) = Ok demo_w /\ pending 2 demo_w = Some demo_last) /\
  (nextHandle demo_w = 5%nat /\ now demo_w + 500 = 1500) /\
  let g := mkTimer (nextHandle demo_w) (now demo_w + 500) (StopCb 0) in
  pending (tid g)
    (event_callback 0 0 1000 (mkEvent "Sol" 1000) 2 3 (clearTimeout 2 demo_w))
  = Some g /\
  (editMode demo_w = false -> plain_name "Sol" -> due demo_last <= now demo_w ->
   exists w1, do_action (Fire 2) demo_w = Ok w1) /\
  (forall w1, do_action (Fire 2) demo_w = Ok w1 -> pending (tid g) w1 = Some g) /\
  forall acts2 w2,
    run acts2 (init 0) = Ok w2 ->
    pending (tid g) w2 = Some g ->
    (now w2 < now demo_w + 500 -> do_action (Fire (tid g)) w2 = NotEnabled) /\
    (now demo_w + 500 <= now w2 ->
     exists w3,
       do_action (Fire (tid g)) w2 = Ok w3 /\
       isPlaying w3 = false /\ progress w3 = JFin 0 /\
       playerRef w3 = None /\ event_timers w3 = []).
Proof.
  assert (H1 : run demo_acts (init 0) = Ok demo_w) by (vm_compute; reflexivity).
  assert (H2 : pending 2 demo_w = Some demo_last) by (vm_compute; reflexivity).
  split; [exact (conj H1 H2)|].
  split; [split; vm_compute; reflexivity|].
  exact (completion_timer_after_grace 0 demo_acts demo_w 2 demo_last
           0%nat 0 1000 (mkEvent "Sol" 1000) 2%nat 3%nat
           H1 H2 eq_refl eq_refl).
Defined.

(** ** A melody in edit mode *)

(** X24.  In edit mode the scheduler cannot ring a bell: when the timer of
    an event fires whose note is not empty and differs from [activeNote],
    the effect calls [handleBellClick(activeNote)] without an event, and
    reading [e.target] throws. *)
Theorem event_in_edit_mode_throws (w : World) (h : nat) (t : Timer)
    sid st td ev index len :
  pending h w = Some t ->
  cb t = EventCb sid st td ev index len ->
  due t <= now w ->
  editMode w = true ->
  truthy (note ev) = true ->
  activeNote w <> Some (note ev) ->
  do_action (Fire h) w = Threw "TypeError: e is undefined".
Proof.
  intros Hp Hc Hd He Ht Ha. cbn [do_action]. rewrite Hp, Hc.
  replace (due t <=? now w) with true by lia.
  cbn [run_callback]. unfold activeNote_effect.
  destruct (event_callback_fields sid st td ev index len (clearTimeout h w))
    as (_ & _ & _ & _ & _ & Hact & _ & Hedit & _).
  cbv zeta in Hact, Hedit. rewrite Hact.
  change (activeNote (clearTimeout h w)) with (activeNote w).
  rewrite decide_False by congruence. rewrite Ht.
  unfold handleBellClick. rewrite Hedit.
  change (editMode (clearTimeout h w)) with (editMode w). now rewrite He.
Qed.

(** X24, an instance.  The three-note example is started in edit mode; the
    timer of "Do" throws. *)
Lemma event_in_edit_mode_throws_witness :
  (pending 0 edit_play_w = Some do_timer /\
   due do_timer <= now edit_play_w /\ editMode edit_play_w = true /\
   truthy (note (mkEvent "Do" 0)) = true /\
   activeNote edit_play_w <> Some (note (mkEvent "Do" 0))) /\
  do_action (Fire 0) edit_play_w = Threw "TypeError: e is undefined".
Proof.
  assert (H1 : pending 0 edit_play_w = Some do_timer)
    by (vm_compute; reflexivity).
  assert (H2 : due do_timer <= now edit_play_w) by (vm_compute; discriminate).
  assert (H3 : editMode edit_play_w = true) by (vm_compute; reflexivity).
  assert (H4 : truthy (note (mkEvent "Do" 0)) = true)
    by (vm_compute; reflexivity).
  assert (H5 : activeNote edit_play_w <> Some (note (mkEvent "Do" 0)))
    by (vm_compute; discriminate).
  split; [exact (conj H1 (conj H2 (conj H3 (conj H4 H5))))|].
  exact (event_in_edit_mode_throws edit_play_w 0 do_timer 0 0 1000
           (mkEvent "Do" 0) 0 3 H1 eq_refl H2 H3 H4 H5).
Defined.

(** ** The layout editor *)

Lemma stopPlayback_selectedBell (w : World) :
  selectedBell (stopPlayback w) = selectedBell w.
Proof. rewrite stopPlayback_unfold. now destruct (playerRef w). Qed.

Lemma playSequence_edit (sequence : option (list NoteEvent)) (w : World) :
  editMode (playSequence sequence w) = editMode w /\
  selectedBell (playSequence sequence w) = selectedBell w.
Proof.
  destruct sequence as [[|first others]|]; try now split.
  rewrite playSequence_unfold. cbv zeta. cbn.
  destruct (stopPlayback_frame w) as (_ & _ & _ & _ & _ & _ & _ & He).
  now rewrite stopPlayback_selectedBell.
Qed.

Lemma handleBellClick_edit (n : string) (e : option ClickEvent) (w w' : World) :
  handleBellClick n e w = Ok w' ->
  editMode w' = editMode w /\
  (selectedBell w' = selectedBell w \/
   (e <> None /\ editMode w = true /\ selectedBell w' = Some n)).
Proof.
  unfold handleBellClick. destruct (editMode w) eqn:E.
  - destruct e as [ev|]; [|discriminate].
    destruct (on_resize_handle ev); intros [= <-]; cbn; auto.
  - destruct (audioRefs n); [| discriminate |]; intros [= <-]; cbn; auto.
Qed.

Lemma run_callback_edit (c : Callback) (w w' : World) :
  run_callback c w = Ok w' ->
  editMode w' = editMode w /\ selectedBell w' = selectedBell w.
Proof.
  destruct c as [sid st td ev index len|sid|n]; simpl.
  - unfold activeNote_effect.
    set (v := event_callback sid st td ev index len w).
    assert (Hv : editMode v = editMode w /\ selectedBell v = selectedBell w).
    { subst v. unfold event_callback.
      destruct (Z.of_nat index =? Z.of_nat len - 1); now cbn. }
    destruct Hv as [Hv1 Hv2].
    destruct (decide (activeNote v = activeNote w)); [now intros [= <-]|].
    destruct (activeNote v) as [m|]; [|now intros [= <-]].
    destruct (truthy m); [|now intros [= <-]].
    intros H. apply handleBellClick_edit in H as [H1 [H2|(H2 & _)]];
      [split; congruence|now contradiction H2].
  - intros [= <-].
    destruct (stopPlayback_frame w) as (_ & _ & _ & _ & _ & _ & _ & He).
    now rewrite stopPlayback_selectedBell.
  - now intros [= <-].
Qed.

Lemma do_action_edit (a : Action) (w w' : World) :
  do_action a w = Ok w' ->
  (editMode w' = editMode w \/ a = ToggleEdit) /\
  (selectedBell w' = selectedBell w \/
   exists n e, a = ClickBell n e /\ editMode w = true /\
               selectedBell w' = Some n).
Proof.
  destruct a as [d|h|s|s|  | |n e| ]; simpl.
  - destruct (0 <=? d); [|discriminate]. intros [= <-]. auto.
  - destruct (pending h w) as [t|]; [|discriminate].
    destruct (due t <=? now w); [|discriminate].
    intros H. apply run_callback_edit in H as [H1 H2]. auto.
  - guarded. intros [= <-]. destruct (isPlaying w).
    + destruct (stopPlayback_frame w) as (_ & _ & _ & _ & _ & _ & _ & He).
      rewrite stopPlayback_selectedBell. auto.
    + destruct (playSequence_edit s w). auto.
  - guarded. intros [= <-]. destruct (playSequence_edit s w). auto.
  - guarded. intros [= <-].
    destruct (stopPlayback_frame w) as (_ & _ & _ & _ & _ & _ & _ & He).
    rewrite stopPlayback_selectedBell. auto.
  - guarded. intros [= <-]. unfold unmount. cbn.
    destruct (stopPlayback_frame w) as (_ & _ & _ & _ & _ & _ & _ & He).
    rewrite stopPlayback_selectedBell. auto.
  - intros H. apply handleBellClick_edit in H as [H1 [H2|(_ & H2 & H3)]].
    + auto.
    + split; [now left|]. right. now exists n, e.
  - intros [= <-]. auto.
Qed.

Lemma js_max_ge (a b : Q) : (a <= js_max a b)%Q.
Proof.
  unfold js_max. destruct (Qle_bool a b) eqn:E.
  - now apply Qle_bool_iff.
  - apply Qle_refl.
Qed.

Lemma resized_at_least_50 handle sx sy sw sh sl st (e : MouseEvent) :
  at_least_50 (resized handle sx sy sw sh sl st e).
Proof.
  unfold resized.
  destruct (includes "right" handle), (includes "left" handle),
    (includes "bottom" handle), (includes "top" handle);
    (split; eexists; (split; [reflexivity|apply js_max_ge])).
Qed.

Lemma layout_ok_init (t0 : Z) : layout_ok (container_init t0).
Proof.
  split; [split|].
  - intros n. cbn. unfold initial_positions, bell_notes.
    rewrite !lookup_insert_is_Some', lookup_empty, !elem_of_cons, elem_of_nil.
    pose proof (@is_Some_None Position) as Hnone.
    intuition congruence.
  - discriminate.
  - intros n p. cbn. unfold initial_positions.
    repeat (rewrite lookup_insert_Some;
            intros [[_ <-]|[_ H]];
            [split; eexists; (split; [reflexivity|cbn; discriminate])|];
            revert H).
    now rewrite lookup_empty.
Qed.

Lemma layout_ok_world (w : World) (c : Container) :
  (forall n, selectedBell w = Some n -> n ∈ bell_notes) ->
  layout_ok c -> layout_ok (set_world w c).
Proof. intros Hs [[H1 _] H2]. now split; [split|]. Qed.

Lemma layout_ok_insert (sel : string) (p : Position) (c : Container) :
  sel ∈ bell_notes -> at_least_50 p -> layout_ok c ->
  layout_ok (setBellPositions (<[sel := p]> (bellPositions c)) c).
Proof.
  intros Hsel Hp [[H1 H2] H3]. split; [split|]; cbn.
  - intros n. rewrite lookup_insert_is_Some'. rewrite H1.
    split; [intros [<-|H]; assumption|now right].
  - exact H2.
  - intros n q. rewrite lookup_insert_Some. intros [[_ <-]|[_ H]]; eauto.
Qed.

Lemma layout_ok_handleMouseMove (e : MouseEvent) (c : Container) :
  layout_ok c -> layout_ok (handleMouseMove e c).
Proof.
  intros Hok. unfold handleMouseMove.
  destruct (negb (editMode (world c))); [exact Hok|].
  destruct (selectedBell (world c)) as [sel|] eqn:Hsel; [|exact Hok].
  destruct (negb (truthy sel)); [exact Hok|].
  assert (Hin : sel ∈ bell_notes) by (destruct Hok as [[_ H] _]; auto).
  destruct (dragRef c) as [|sx sy|handle sx sy sw sh sl st]; [exact Hok| |].
  - apply layout_ok_insert; [exact Hin| |exact Hok].
    destruct Hok as [[H1 _] H3]. apply H1 in Hin as [p Hp].
    rewrite Hp. cbn. exact (H3 _ _ Hp).
  - apply layout_ok_insert; [exact Hin| |exact Hok].
    apply resized_at_least_50.
Qed.

Lemma layout_ok_do_ui (a : UiAction) (c c' : Container) :
  layout_ok c -> do_ui a c = Done c' -> layout_ok c'.
Proof.
  intros Hok. destruct a as [a|e note|e|]; cbn [do_ui].
  - destruct (match a with ClickBell n _ => rendered n c | _ => true end)
      eqn:Hen; [|discriminate].
    destruct (do_action a (world c)) as [w| |] eqn:Ha; try discriminate.
    intros [= <-]. apply layout_ok_world; [|exact Hok].
    intros n Hn. destruct Hok as [[H1 H2] _].
    destruct (do_action_edit _ _ _ Ha) as [_ [Hs|(m & ev & -> & _ & Hs)]].
    + apply H2. congruence.
    + rewrite Hs in Hn. injection Hn as <-. apply H1.
      unfold rendered in Hen. now apply bool_decide_eq_true in Hen.
  - destruct (rendered note c) eqn:Hr; [|discriminate].
    unfold handleMouseDown. destruct (negb (editMode (world c))).
    { now intros [= <-]. }
    destruct (bellPositions c !! note) as [p|] eqn:Hp; [|discriminate].
    intros [= <-]. destruct Hok as [[H1 H2] H3]. split; [split|]; cbn; auto.
    intros n [= <-]. apply H1. now rewrite Hp.
  - intros [= <-]. destruct (editMode (world c)); [|exact Hok].
    now apply layout_ok_handleMouseMove.
  - intros [= <-]. now destruct (editMode (world c)).
Qed.

Lemma layout_ok_run (acts : list UiAction) :
  forall c c', layout_ok c -> run_ui acts c = Done c' -> layout_ok c'.
Proof.
  induction acts as [|a rest IH]; intros c c' Hok; cbn.
  - now intros [= <-].
  - destruct (do_ui a c) as [c1| |] eqn:E; try discriminate.
    apply IH. now apply (layout_ok_do_ui a c).
Qed.

(** X15.  Whatever is done on the page, the bells that are rendered are the
    five bells, each of which has an audio clip, and no bell is ever
    narrower or lower than 50 pixels. *)
Theorem bells_stay_five_and_large (t0 : Z) (acts : list UiAction)
    (c : Container) :
  run_ui acts (container_init t0) = Done c ->
  (forall n, rendered n c = true <-> n ∈ bell_notes) /\
  (forall n, rendered n c = true -> audioRefs n = Clip) /\
  (forall n p, bellPositions c !! n = Some p -> at_least_50 p).
Proof.
  intros Hrun.
  destruct (layout_ok_run acts _ _ (layout_ok_init t0) Hrun) as [[H1 _] H3].
  assert (Hr : forall n, rendered n c = true <-> n ∈ bell_notes).
  { intros n. unfold rendered. now rewrite bool_decide_eq_true. }
  split; [exact Hr|]. split; [|exact H3].
  intros n Hn. apply Hr in Hn. unfold audioRefs.
  now rewrite bool_decide_eq_true_2.
Qed.

(** X15, an instance.  After "Do" was dragged by (20, 30). *)
Lemma bells_stay_five_and_large_witness :
  run_ui gesture (container_init 0) = Done after_gesture /\
  bellPositions after_gesture !! "Do"%string
  = Some (mkPosition 117 705 (width_px do_position) (height_px do_position)) /\
  ((forall n, rendered n after_gesture = true <-> n ∈ bell_notes) /\
   (forall n, rendered n after_gesture = true -> audioRefs n = Clip) /\
   (forall n p, bellPositions after_gesture !! n = Some p -> at_least_50 p)).
Proof.
  assert (H1 : run_ui gesture (container_init 0) = Done after_gesture)
    by (vm_compute; reflexivity).
  split; [exact H1|]. split; [vm_compute; reflexivity|].
  exact (bells_stay_five_and_large 0 gesture after_gesture H1).
Defined.

(** ** A gesture *)

Lemma run_ui_app (acts1 acts2 : list UiAction) (c : Container) :
  run_ui (acts1 ++ acts2) c =
  match run_ui acts1 c with
  | Done c' => run_ui acts2 c'
  | other => other
  end.
Proof.
  revert c. induction acts1 as [|a rest IH]; intros c; cbn; [reflexivity|].
  destruct (do_ui a c); auto.
Qed.

Lemma last_shift {A : Type} (l : list A) (a d : A) :
  List.last (a :: l) d = List.last l a.
Proof.
  revert a d. induction l as [|b l IH]; intros a d; [reflexivity|].
  change (List.last (a :: b :: l) d) with (List.last (b :: l) d).
  now rewrite (IH b d), (IH b a).
Qed.

(** Moves of a drag: the selected bell is at the pointer, less the
    offset. *)
Lemma drag_moves (sel : string) (sx sy : Z) (wd ht : option Q)
    (es : list MouseEvent) :
  forall (c : Container) (e0 : MouseEvent),
    editMode (world c) = true -> selectedBell (world c) = Some sel ->
    truthy sel = true -> dragRef c = Dragging sx sy ->
    bellPositions c !! sel
    = Some (mkPosition (clientY e0 - sy) (clientX e0 - sx) wd ht) ->
    exists c',
      run_ui (map MouseMove es) c = Done c' /\
      world c' = world c /\ dragRef c' = Dragging sx sy /\
      bellPositions c' =
      <[sel := mkPosition (clientY (List.last es e0) - sy)
                 (clientX (List.last es e0) - sx) wd ht]> (bellPositions c).
Proof.
  induction es as [|e rest IH]; intros c e0 He Hs Ht Hd Hp.
  - exists c. cbn. repeat split; [exact Hd|]. now rewrite insert_id.
  - cbn [map run_ui do_ui]. rewrite He. unfold handleMouseMove.
    rewrite He, Hs, Ht, Hd, Hp. cbn [negb mbind option_bind width_px height_px].
    set (c1 := setBellPositions _ c).
    destruct (IH c1 e) as (c' & H1 & H2 & H3 & H4); try assumption.
    { subst c1. cbn. now rewrite lookup_insert_eq. }
    exists c'. split; [exact H1|]. split; [exact H2|]. split; [exact H3|].
    rewrite H4. subst c1. cbn [bellPositions setBellPositions].
    now rewrite insert_insert_eq, last_shift.
Qed.

(** X16.  Dragging: after the mouse button went down on a bell in edit mode,
    away from its handles, every further move of the mouse puts the bell
    where it was, shifted by the way the pointer has gone since; its size
    and every other bell stay as they were.  In particular, the bell is back
    in its place when the pointer is. *)
Theorem drag_follows_pointer (c : Container) (note : string) (p : Position)
    (e0 : MouseEvent) (es : list MouseEvent) :
  editMode (world c) = true -> truthy note = true ->
  bellPositions c !! note = Some p ->
  target_handle e0 = None ->
  let e := List.last es e0 in
  exists c',
    run_ui (MouseDown e0 note :: map MouseMove es) c = Done c' /\
    selectedBell (world c') = Some note /\
    bellPositions c' =
    <[note := mkPosition (top_px p + (clientY e - clientY e0))
                (left_px p + (clientX e - clientX e0))
                (width_px p) (height_px p)]> (bellPositions c).
Proof.
  intros He Ht Hp Hh e. cbn [run_ui do_ui]. unfold rendered.
  rewrite bool_decide_eq_true_2 by (rewrite Hp; eauto).
  unfold handleMouseDown. rewrite He, Hp, Hh. cbn [negb].
  set (c1 := set_world _ _).
  destruct (drag_moves note (clientX e0 - left_px p) (clientY e0 - top_px p)
              (width_px p) (height_px p) es c1 e0)
    as (c' & H1 & H2 & H3 & H4); subst c1; cbn; auto.
  { rewrite Hp. f_equal. destruct p as [t l wd ht]. cbn. f_equal; lia. }
  exists c'. split; [exact H1|]. split; [now rewrite H2|].
  rewrite H4. cbn. f_equal. subst e. f_equal; lia.
Qed.

(** X16, an instance.  "Do" is pressed at (700, 100) and the pointer goes to
    (720, 130). *)
Lemma drag_follows_pointer_witness :
  (editMode (world edit_c) = true /\ truthy "Do" = true /\
   bellPositions edit_c !! "Do"%string = Some do_position /\
   target_handle press = None) /\
  let e := List.last [pointer 710 105; pointer 720 130] press in
  exists c',
    run_ui (MouseDown press "Do"
            :: map MouseMove [pointer 710 105; pointer 720 130]) edit_c
    = Done c' /\
    selectedBell (world c') = Some "Do"%string /\
    bellPositions c' =
    <["Do"%string :=
        mkPosition (top_px do_position + (clientY e - clientY press))
          (left_px do_position + (clientX e - clientX press))
          (width_px do_position) (height_px do_position)]>
      (bellPositions edit_c).
Proof.
  assert (H1 : editMode (world edit_c) = true) by (vm_compute; reflexivity).
  assert (H2 : truthy "Do" = true) by (vm_compute; reflexivity).
  assert (H3 : bellPositions edit_c !! "Do"%string = Some do_position)
    by (vm_compute; reflexivity).
  assert (H4 : target_handle press = None) by reflexivity.
  split; [exact (conj H1 (conj H2 (conj H3 H4)))|].
  exact (drag_follows_pointer edit_c "Do" do_position press
           [pointer 710 105; pointer 720 130] H1 H2 H3 H4).
Defined.

(** Moves of a resize: the box of the selected bell is computed from the
    geometry at the start and the pointer; nothing is accumulated. *)
Lemma resize_moves (sel handle : string) (sx sy : Z) (sw sh : Q) (sl st : Z)
    (es : list MouseEvent) :
  forall (c : Container) (e : MouseEvent),
    editMode (world c) = true -> selectedBell (world c) = Some sel ->
    truthy sel = true -> dragRef c = Resizing handle sx sy sw sh sl st ->
    exists c',
      run_ui (map MouseMove (es ++ [e])) c = Done c' /\
      world c' = world c /\
      bellPositions c' =
      <[sel := resized handle sx sy sw sh sl st e]> (bellPositions c).
Proof.
  induction es as [|e1 rest IH]; intros c e He Hs Ht Hd.
  - cbn [app map run_ui do_ui]. rewrite He. unfold handleMouseMove.
    rewrite He, Hs, Ht, Hd. cbn [negb]. eexists. repeat split.
  - cbn [app map run_ui do_ui]. rewrite He. unfold handleMouseMove.
    rewrite He, Hs, Ht, Hd. cbn [negb].
    set (c1 := setBellPositions _ c).
    destruct (IH c1 e) as (c' & H1 & H2 & H3); try assumption.
    exists c'. split; [exact H1|]. split; [exact H2|].
    rewrite H3. subst c1. cbn [bellPositions setBellPositions].
    now rewrite insert_insert_eq.
Qed.

(** X17.  Resizing: after the mouse button went down on a handle of a bell
    in edit mode, the box after any number of moves depends only on the
    geometry at the start and on where the pointer is now; every other bell
    stays as it was. *)
Theorem resize_depends_on_last_move (c : Container) (note handle : string)
    (p : Position) (e0 e : MouseEvent) (es : list MouseEvent) :
  editMode (world c) = true -> truthy note = true ->
  bellPositions c !! note = Some p ->
  target_handle e0 = Some handle ->
  exists c',
    run_ui (MouseDown e0 note :: map MouseMove (es ++ [e])) c = Done c' /\
    selectedBell (world c') = Some note /\
    bellPositions c' =
    <[note := resized handle (clientX e0) (clientY e0) (rect_width e0)
                (rect_height e0) (left_px p) (top_px p) e]> (bellPositions c).
Proof.
  intros He Ht Hp Hh. cbn [run_ui do_ui]. unfold rendered.
  rewrite bool_decide_eq_true_2 by (rewrite Hp; eauto).
  unfold handleMouseDown. rewrite He, Hp, Hh. cbn [negb].
  set (c1 := set_world _ _).
  destruct (resize_moves note handle (clientX e0) (clientY e0) (rect_width e0)
              (rect_height e0) (left_px p) (top_px p) es c1 e)
    as (c' & H1 & H2 & H3); subst c1; cbn; auto.
  exists c'. split; [exact H1|]. split; [now rewrite H2|exact H3].
Qed.

(** X17, an instance.  The top-left handle of "Do" is pressed at (685, 87),
    and the pointer goes to (675, 80). *)
Lemma resize_depends_on_last_move_witness :
  (editMode (world edit_c) = true /\ truthy "Do" = true /\
   bellPositions edit_c !! "Do"%string = Some do_position /\
   target_handle press_handle = Some "top-left"%string) /\
  exists c',
    run_ui (MouseDown press_handle "Do"
            :: map MouseMove ([pointer 690 90] ++ [pointer 675 80])) edit_c
    = Done c' /\
    selectedBell (world c') = Some "Do"%string /\
    bellPositions c' =
    <["Do"%string :=
        resized "top-left" (clientX press_handle) (clientY press_handle)
          (rect_width press_handle) (rect_height press_handle)
          (left_px do_position) (top_px do_position) (pointer 675 80)]>
      (bellPositions edit_c).
Proof.
  assert (H1 : editMode (world edit_c) = true) by (vm_compute; reflexivity).
  assert (H2 : truthy "Do" = true) by (vm_compute; reflexivity).
  assert (H3 : bellPositions edit_c !! "Do"%string = Some do_position)
    by (vm_compute; reflexivity).
  assert (H4 : target_handle press_handle = Some "top-left"%string)
    by reflexivity.
  split; [exact (conj H1 (conj H2 (conj H3 H4)))|].
  exact (resize_depends_on_last_move edit_c "Do" "top-left" do_position
           press_handle (pointer 675 80) [pointer 690 90] H1 H2 H3 H4).
Defined.

Lemma js_max_above (a b : Q) : (a < js_max a b)%Q -> js_max a b = b.
Proof.
  unfold js_max. destruct (Qle_bool a b); [reflexivity|].
  intros H. now apply Qlt_irrefl in H.
Qed.

(** X18.  With each of the four handles, the box is at least 50 pixels wide
    and high, and as long as it is wider and higher than that, the corner
    opposite to the handle stays where it was at the start. *)
Theorem resize_keeps_opposite_corner (handle : string) (sx sy : Z)
    (sw sh : Q) (sl st : Z) (e : MouseEvent) (w h : Q) :
  handle ∈ resize_handles ->
  let p := resized handle sx sy sw sh sl st e in
  width_px p = Some w -> height_px p = Some h ->
  (50 < w)%Q -> (50 < h)%Q ->
  (if includes "left" handle
   then (inject_Z (left_px p) + w == inject_Z sl + sw)%Q
   else left_px p = sl) /\
  (if includes "top" handle
   then (inject_Z (top_px p) + h == inject_Z st + sh)%Q
   else top_px p = st).
Proof.
  intros Hin p Hw Hh Hw50 Hh50. subst p. unfold resize_handles in Hin.
  repeat (apply elem_of_cons in Hin as [->|Hin]); [| | | |now apply elem_of_nil in Hin];
    unfold resized in *;
    repeat match goal with
    | H : context [includes ?a ?s] |- _ =>
        let v := eval vm_compute in (includes a s) in
        change (includes a s) with v in *
    | |- context [includes ?a ?s] =>
        let v := eval vm_compute in (includes a s) in
        change (includes a s) with v in *
    end;
    cbn [width_px height_px left_px top_px] in *;
    injection Hw as <-; injection Hh as <-;
    rewrite ?(js_max_above _ _ Hw50), ?(js_max_above _ _ Hh50);
    split; try reflexivity; rewrite inject_Z_plus; ring.
Qed.

(** X18, an instance.  A box of 100 by 120 at (685, 87), pulled by its
    top-left handle to (675, 80): 110 by 127 at (675, 80); the bottom-right
    corner stays at (785, 207). *)
Lemma resize_keeps_opposite_corner_witness :
  ("top-left"%string ∈ resize_handles /\
   width_px (resized "top-left" 685 87 100 120 685 87 (pointer 675 80))
   = Some (100 - inject_Z (675 - 685))%Q /\
   height_px (resized "top-left" 685 87 100 120 685 87 (pointer 675 80))
   = Some (120 - inject_Z (80 - 87))%Q /\
   (50 < 100 - inject_Z (675 - 685))%Q /\
   (50 < 120 - inject_Z (80 - 87))%Q) /\
  let p := resized "top-left" 685 87 100 120 685 87 (pointer 675 80) in
  (if includes "left" "top-left"
   then (inject_Z (left_px p) + (100 - inject_Z (675 - 685))
         == inject_Z 685 + 100)%Q
   else left_px p = 685) /\
  (if includes "top" "top-left"
   then (inject_Z (top_px p) + (120 - inject_Z (80 - 87))
         == inject_Z 87 + 120)%Q
   else top_px p = 87).
Proof.
  assert (H1 : "top-left"%string ∈ resize_handles) by apply list_elem_of_here.
  assert (H2 : width_px (resized "top-left" 685 87 100 120 685 87 (pointer 675 80))
               = Some (100 - inject_Z (675 - 685))%Q) by reflexivity.
  assert (H3 : height_px (resized "top-left" 685 87 100 120 685 87 (pointer 675 80))
               = Some (120 - inject_Z (80 - 87))%Q) by reflexivity.
  assert (H4 : (50 < 100 - inject_Z (675 - 685))%Q) by reflexivity.
  assert (H5 : (50 < 120 - inject_Z (80 - 87))%Q) by reflexivity.
  split; [exact (conj H1 (conj H2 (conj H3 (conj H4 H5))))|].
  exact (resize_keeps_opposite_corner "top-left" 685 87 100 120 685 87
           (pointer 675 80) _ _ H1 H2 H3 H4 H5).
Defined.



(** X20.  Outside edit mode the layout is frozen: as long as the edit toggle
    is not clicked, no press, move or release of the mouse and no click
    changes a position, starts a gesture or selects a bell. *)
Theorem layout_frozen_outside_edit_mode (acts : list UiAction)
    (c c' : Container) :
  editMode (world c) = false ->
  Forall (fun a => is_toggle a = false) acts ->
  run_ui acts c = Done c' ->
  bellPositions c' = bellPositions c /\ dragRef c' = dragRef c /\
  selectedBell (world c') = selectedBell (world c) /\
  editMode (world c') = false.
Proof.
  revert c. induction acts as [|a rest IH]; intros c He Hno; cbn [run_ui].
  - intros [= <-]. now repeat split.
  - apply Forall_cons in Hno as [Ha Hrest].
    destruct (do_ui a c) as [c1| |] eqn:E; try discriminate.
    intros Hrun.
    assert (H1 : bellPositions c1 = bellPositions c /\ dragRef c1 = dragRef c /\
                 selectedBell (world c1) = selectedBell (world c) /\
                 editMode (world c1) = false).
    { destruct a as [a|e note|e|]; cbn [do_ui] in E.
      - destruct (match a with ClickBell n _ => rendered n c | _ => true end);
          [|discriminate].
        destruct (do_action a (world c)) as [w| |] eqn:Hw; try discriminate.
        injection E as <-. cbn.
        destruct (do_action_edit _ _ _ Hw) as [[H1| ->] [H2|(n & ev & _ & H2 & _)]];
          try discriminate; try congruence.
        repeat split; congruence.
      - destruct (rendered note c); [|discriminate].
        unfold handleMouseDown in E. rewrite He in E. now injection E as <-.
      - rewrite He in E. now injection E as <-.
      - rewrite He in E. now injection E as <-. }
    destruct H1 as (H1 & H2 & H3 & H4).
    destruct (IH c1 H4 Hrest Hrun) as (H5 & H6 & H7 & H8).
    repeat split; congruence.
Qed.

(** X20, an instance.  The gesture of the drag, but outside edit mode. *)
Lemma layout_frozen_outside_edit_mode_witness :
  (editMode (world (container_init 0)) = false /\
   Forall (fun a => is_toggle a = false) outside_acts /\
   run_ui outside_acts (container_init 0)
   = Done (container_of (run_ui outside_acts (container_init 0)))) /\
  bellPositions (container_of (run_ui outside_acts (container_init 0)))
  = bellPositions (container_init 0) /\
  dragRef (container_of (run_ui outside_acts (container_init 0)))
  = dragRef (container_init 0) /\
  selectedBell (world (container_of (run_ui outside_acts (container_init 0))))
  = selectedBell (world (container_init 0)) /\
  editMode (world (container_of (run_ui outside_acts (container_init 0))))
  = false.
Proof.
  assert (H1 : editMode (world (container_init 0)) = false) by reflexivity.
  assert (H2 : Forall (fun a => is_toggle a = false) outside_acts).
  { unfold outside_acts. repeat (apply Forall_cons; split; [reflexivity|]).
    apply Forall_nil_2. }
  assert (H3 : run_ui outside_acts (container_init 0)
               = Done (container_of (run_ui outside_acts (container_init 0))))
    by (vm_compute; reflexivity).
  split; [exact (conj H1 (conj H2 H3))|].
  exact (layout_frozen_outside_edit_mode outside_acts (container_init 0) _
           H1 H2 H3).
Defined.

(** ** The uploader and the page *)

Lemma bar_inv_do_app (a : App.Action) (s s' : App.State) :
  bar_inv s -> App.do_app a s = Done s' -> bar_inv s'.
Proof.
  intros Hi. destruct a as [a|file|k r|]; cbn [App.do_app].
  - destruct (App.on_page a); [|discriminate].
    destruct (do_ui a (App.container s)); try discriminate.
    now intros [= <-].
  - destruct file as [f|]; cbn.
    + destruct (5000000 <? MidiUploader.size f); intros [= <-]; cbn.
      * exact Hi.
      * unfold bar_inv. cbn. split; [reflexivity|].
        now destruct (App.in_flight s).
    + now intros [= <-].
  - destruct (bool_decide (k ∈ App.in_flight s)); [|discriminate].
    unfold MidiUploader.handleFileUpload_settle.
    destruct (MidiUploader.received r); intros [= <-]; reflexivity.
  - destruct (App.sequence s); [|discriminate].
    destruct (do_ui _ (App.container s)); try discriminate.
    now intros [= <-].
Qed.

(** X21.  The progress bar of the uploader is rendered while [loading] is
    true; whenever it is, it shows 10 percent and a request is in flight.
    Otherwise [progress] is 0. *)
Theorem upload_bar_shows_10 (t0 : Z) (acts : list App.Action) (s : App.State) :
  App.run_app acts (App.init t0) = Done s ->
  if MidiUploader.loading (App.uploader s)
  then MidiUploader.progress (App.uploader s) = 10 /\ App.in_flight s <> []
  else MidiUploader.progress (App.uploader s) = 0.
Proof.
  enough (H : forall s0, bar_inv s0 -> App.run_app acts s0 = Done s -> bar_inv s).
  { apply H. reflexivity. }
  induction acts as [|a rest IH]; intros s0 Hi; cbn [App.run_app].
  - now intros [= <-].
  - destruct (App.do_app a s0) as [s1| |] eqn:E; try discriminate.
    apply IH. now apply (bar_inv_do_app a s0).
Qed.

(** X21, an instance.  A small file was chosen and the request is in flight.
    *)
Lemma upload_bar_shows_10_witness :
  App.run_app [App.ChooseFile (Some small_file)] (App.init 0)
  = Done loading_page /\
  MidiUploader.loading (App.uploader loading_page) = true /\
  if MidiUploader.loading (App.uploader loading_page)
  then MidiUploader.progress (App.uploader loading_page) = 10 /\
       App.in_flight loading_page <> []
  else MidiUploader.progress (App.uploader loading_page) = 0.
Proof.
  assert (H1 : App.run_app [App.ChooseFile (Some small_file)] (App.init 0)
               = Done loading_page) by (vm_compute; reflexivity).
  split; [exact H1|]. split; [vm_compute; reflexivity|].
  exact (upload_bar_shows_10 0 [App.ChooseFile (Some small_file)] loading_page H1).
Defined.










(** ** The page and the world *)

Lemma run_cat (acts1 acts2 : list Action) (w w1 w2 : World) :
  run acts1 w = Ok w1 -> run acts2 w1 = Ok w2 -> run (acts1 ++ acts2) w = Ok w2.
Proof.
  revert w. induction acts1 as [|a rest IH]; intros w; cbn.
  - now intros [= <-].
  - destruct (do_action a w); try discriminate. apply IH.
Qed.

Lemma handleMouseMove_world (e : MouseEvent) (c : Container) :
  world (handleMouseMove e c) = world c.
Proof.
  unfold handleMouseMove. destruct (negb (editMode (world c))); [reflexivity|].
  destruct (selectedBell (world c)) as [sel|]; [|reflexivity].
  destruct (negb (truthy sel)); [reflexivity|]. now destruct (dragRef c).
Qed.

(** What a step of the container does to the world is a run of the
    world; a press on a bell in edit mode selects it, as a click does. *)
Lemma do_ui_world (a : UiAction) (c c' : Container) :
  do_ui a c = Done c' -> exists acts, run acts (world c) = Ok (world c').
Proof.
  destruct a as [a|e note|e|]; cbn [do_ui].
  - destruct (match a with ClickBell n _ => rendered n c | _ => true end);
      [|discriminate].
    destruct (do_action a (world c)) as [w| |] eqn:E; try discriminate.
    intros [= <-]. exists [a]. cbn [run]. rewrite E. reflexivity.
  - destruct (rendered note c); [|discriminate].
    unfold handleMouseDown. destruct (editMode (world c)) eqn:He; cbn [negb].
    + destruct (bellPositions c !! note); [|discriminate].
      intros [= <-]. exists [ClickBell note click]. cbn [run do_action].
      unfold handleBellClick. now rewrite He.
    + intros [= <-]. now exists [].
  - intros [= <-]. exists []. cbn [run].
    destruct (editMode (world c)); [|reflexivity].
    now rewrite handleMouseMove_world.
  - intros [= <-]. exists []. now destruct (editMode (world c)).
Qed.

Lemma do_app_world (a : App.Action) (s s' : App.State) :
  App.do_app a s = Done s' ->
  exists acts,
    run acts (world (App.container s)) = Ok (world (App.container s')).
Proof.
  destruct a as [a|file|k r|]; cbn [App.do_app].
  - destruct (App.on_page a); [|discriminate].
    destruct (do_ui a (App.container s)) as [c| |] eqn:E; try discriminate.
    intros [= <-]. exact (do_ui_world a _ _ E).
  - destruct (MidiUploader.handleFileUpload_begin file (App.uploader s)).
    intros [= <-]. now exists [].
  - destruct (bool_decide (k ∈ App.in_flight s)); [|discriminate].
    destruct (MidiUploader.handleFileUpload_settle r (App.uploader s))
      as [u [notes|]]; intros [= <-]; now exists [].
  - destruct (App.sequence s) as [notes|]; [|discriminate].
    destruct (do_ui _ (App.container s)) as [c| |] eqn:E; try discriminate.
    intros [= <-]. exact (do_ui_world _ _ _ E).
Qed.

(** X25.  Whatever happens on the page (uploads, drags, resizes, clicks,
    timers), the state of the player and of the bell trigger is one that
    the player and the bells reach on their own: the uploader and the
    layout editor never touch it, except that a press on a bell in edit
    mode selects the bell, as a click does.  What holds in every
    reachable world therefore holds on the page. *)
Theorem page_world_is_reachable (t0 : Z) (acts : list App.Action)
    (s : App.State) :
  App.run_app acts (App.init t0) = Done s ->
  exists acts', run acts' (init t0) = Ok (world (App.container s)).
Proof.
  change (init t0) with (world (App.container (App.init t0))).
  generalize (App.init t0). induction acts as [|a rest IH]; intros s0;
    cbn [App.run_app].
  - intros [= <-]. now exists [].
  - destruct (App.do_app a s0) as [s1| |] eqn:E; try discriminate.
    intros H. destruct (do_app_world a s0 s1 E) as (acts1 & H1).
    destruct (IH s1 H) as (acts2 & H2).
    exists (acts1 ++ acts2). exact (run_cat _ _ _ _ _ H1 H2).
Qed.

(** X25, an instance.  A melody is uploaded and started, its first timer
    fires, and "Mi" is pressed in edit mode. *)
Lemma page_world_is_reachable_witness :
  App.run_app busy_acts (App.init 0) = Done busy_page /\
  (isPlaying (world (App.container busy_page)) = true /\
   selectedBell (world (App.container busy_page)) = Some "Mi"%string) /\
  exists acts', run acts' (init 0) = Ok (world (App.container busy_page)).
Proof.
  assert (H1 : App.run_app busy_acts (App.init 0) = Done busy_page)
    by (vm_compute; reflexivity).
  split; [exact H1|]. split; [split; vm_compute; reflexivity|].
  exact (page_world_is_reachable 0 busy_acts busy_page H1).
Defined.

(** * The claims *)

(** The example to its end: "Sol" rings at 1000 ms with [progress] at
    100, and the completion timer returns the player to idle at 1500 ms. *)
Example demo_to_the_end :
  after (fun w => (progress w, isPlaying w)) (demo_acts ++ [Fire 2])
  = Some (JFin (100 # 1), true) /\
  after (fun w => (now w, progress w, isPlaying w, playerRef w, event_timers w))
    (demo_acts ++ [Fire 2; Tick 500; Fire 5])
  = Some (1500, JFin 0, false, None, []) /\
  after bellplays (demo_acts ++ [Fire 2; Tick 500; Fire 5])
  = Some [ObsBellPlay 0 0 "Do" 0; ObsBellPlay 0 1 "Mi" 500;
          ObsBellPlay 0 2 "Sol" 1000] /\
  after progress [CallPlay (Some seq_demo); Fire 0] = Some (JFin 0) /\
  after progress [CallPlay (Some seq_demo); Fire 0; Tick 500; Fire 1]
  = Some (JFin (50 # 1)).
Proof. repeat split; vm_compute; reflexivity. Qed.

(** C9. With a null or an empty sequence [playSequence] returns at its
    first line: the world is unchanged (no timer, no write to [isPlaying],
    [progress] or [playerRef.current]), and the call, made directly or
    through the button, ends normally. *)
Theorem C9_play_nothing_is_noop (w : World) :
  playSequence None w = w /\
  playSequence (Some []) w = w /\
  (mounted w = true ->
   do_action (CallPlay None) w = Ok w /\ do_action (CallPlay (Some [])) w = Ok w) /\
  (mounted w = true -> isPlaying w = false ->
   do_action (ClickButton None) w = Ok w /\
   do_action (ClickButton (Some [])) w = Ok w).
Proof.
  split; [reflexivity|]. split; [reflexivity|]. split.
  - intros Hm. simpl. now rewrite Hm.
  - intros Hm Hp. simpl. now rewrite Hm, Hp.
Qed.

Lemma C9_play_nothing_is_noop_witness :
  playSequence None demo_w = demo_w /\
  playSequence (Some []) demo_w = demo_w /\
  do_action (CallPlay None) demo_w = Ok demo_w /\
  do_action (CallPlay (Some [])) demo_w = Ok demo_w.
Proof.
  destruct (C9_play_nothing_is_noop demo_w) as (H1 & H2 & H3 & _).
  assert (Hm : mounted demo_w = true) by (vm_compute; reflexivity).
  destruct (H3 Hm) as [H4 H5].
  exact (conj H1 (conj H2 (conj H4 H5))).
Defined.

(** ** The bell trigger *)





Lemma La_not_a_bell : "La"%string ∉ bell_notes.
Proof.
  unfold bell_notes, note_re. rewrite !not_elem_of_cons.
  repeat split; try discriminate. apply not_elem_of_nil.
Qed.

Lemma La_is_plain : plain_name "La".
Proof.
  unfold plain_name, object_prototype_keys. rewrite !not_elem_of_cons.
  repeat split; try discriminate. apply not_elem_of_nil.
Qed.

Lemma toString_not_a_bell : "toString"%string ∉ bell_notes.
Proof.
  unfold bell_notes, note_re. rewrite !not_elem_of_cons.
  repeat split; try discriminate. apply not_elem_of_nil.
Qed.

(** C6, as stated, fails.  "La" is not one of the five bells, and
    triggering it is not a no-op: it sets a flag under "La" and arms a
    timer.  "toString" is not one of the five bells either, and triggering
    it throws: [audioRefs.current["toString"]] is the function that every
    object inherits, which has no [play] method.  In edit mode every
    trigger throws, since no click event comes with it. *)
Lemma C6_counterexample :
  (("La"%string ∉ bell_notes) /\
   flag "La" (init 0) = false /\
   exists w1,
     handleBellClick "La" None (init 0) = Ok w1 /\
     flag "La" w1 = true /\
     timers w1 = [mkTimer 0 200 (ClearFlagCb "La")]) /\
  (("toString"%string ∉ bell_notes) /\
   handleBellClick "toString" None (init 0)
   = Threw "TypeError: audio.play is not a function") /\
  handleBellClick "La" None (setEditMode true (init 0))
  = Threw "TypeError: e is undefined".
Proof.
  split; [|split; [split; [exact toString_not_a_bell|reflexivity]|reflexivity]].
  split; [exact La_not_a_bell|]. split; [reflexivity|].
  eexists. split; [vm_compute; reflexivity|]. split; reflexivity.
Qed.

(** C6, amended.  Outside edit mode, triggering a name that is neither one
    of the five bells nor inherited by every object ends normally, plays
    no clip, changes the flag of none of the five bells and no state of
    the player; what it does is to set a flag under the unknown name and
    to arm the timer that clears it. *)
Theorem C6_unknown_note (w : World) (n : string) (e : option ClickEvent) :
  n ∉ bell_notes ->
  plain_name n ->
  editMode w = false ->
  exists w1,
    handleBellClick n e w = Ok w1 /\
    trace w1 = ObsRing n (now w) :: trace w /\
    (forall b, b ∈ bell_notes -> flag b w1 = flag b w) /\
    isPlaying w1 = isPlaying w /\ progress w1 = progress w /\
    playerRef w1 = playerRef w /\
    flag n w1 = true /\
    timers w1 = timers w ++ [mkTimer (nextHandle w) (now w + 200) (ClearFlagCb n)].
Proof.
  intros Hn Hplain Hedit. unfold handleBellClick, audioRefs. rewrite Hedit.
  rewrite bool_decide_eq_false_2 by exact Hn.
  rewrite bool_decide_eq_false_2 by exact Hplain.
  eexists. split; [reflexivity|]. cbn. repeat split.
  - intros b Hb. unfold flag. cbn.
    rewrite lookup_insert_ne; [reflexivity|]. intros ->. contradiction.
  - unfold flag. cbn. now rewrite lookup_insert_eq.
Qed.

Lemma C6_unknown_note_witness :
  (("La"%string ∉ bell_notes) /\ plain_name "La" /\ editMode (init 0) = false) /\
  exists w1,
    handleBellClick "La" None (init 0) = Ok w1 /\
    trace w1 = [ObsRing "La" 0] /\
    (forall b, b ∈ bell_notes -> flag b w1 = flag b (init 0)) /\
    isPlaying w1 = false /\ progress w1 = JFin 0 /\ playerRef w1 = None /\
    flag "La" w1 = true /\
    timers w1 = [mkTimer 0 200 (ClearFlagCb "La")].
Proof.
  split; [split; [exact La_not_a_bell|split; [exact La_is_plain|reflexivity]]|].
  exact (C6_unknown_note (init 0) "La" None La_not_a_bell La_is_plain eq_refl).
Defined.

(** ** Where the code departs from the claims *)

(** C1.  A sequence with a single event at [time = 0]: the timer fires in
    the millisecond in which the session started, the callback divides
    0 by 0, and [Math.min(NaN, 100)] stores [NaN] in [progress], which is
    not a number of [[0, 100]]. *)
Theorem C1_progress_nan_at_zero_duration :
  after progress [CallPlay (Some seq_single_at_zero); Fire 0] = Some JNaN /\
  ~ js_between 0 100 JNaN /\
  JNaN <> js_of_Z 100.
Proof.
  split; [vm_compute; reflexivity|]. split; [simpl; tauto|discriminate].
Qed.

(** C8.  In the session of C1 the callback that runs is the one of the
    final event, and [progress] is not 100 after it; with two events at
    [time = 0] the two readings are [NaN] and [NaN], which are not in
    non-decreasing order (no comparison with [NaN] holds). *)
Theorem C8_final_reading_not_100_at_zero_duration :
  after progress [CallPlay (Some seq_single_at_zero); Fire 0] <> Some (js_of_Z 100) /\
  (let two := [mkEvent "Do" 0; mkEvent "Mi" 0] in
   exists p1 p2,
     after progress [CallPlay (Some two); Fire 0] = Some p1 /\
     after progress [CallPlay (Some two); Fire 0; Fire 1] = Some p2 /\
     ~ js_le p1 p2).
Proof.
  split; [vm_compute; discriminate|].
  exists JNaN, JNaN. split; [vm_compute; reflexivity|].
  split; [vm_compute; reflexivity|]. simpl. tauto.
Qed.

(** C2.  The same note in two consecutive events: the scheduler calls
    [onBellPlay] for both (at 0 and at 500 ms), but [activeNote] is "Do"
    already when the second call stores "Do", the effect of
    [BellsContainer] does not run again, and the bell rings once only. *)
Theorem C2_repeated_note_rings_once :
  let acts := [CallPlay (Some seq_repeated_note); Fire 0; Tick 500; Fire 1] in
  after bellplays acts
  = Some [ObsBellPlay 0 0 "Do" 0; ObsBellPlay 0 1 "Do" 500] /\
  after rings acts = Some [ObsRing "Do" 0].
Proof. split; vm_compute; reflexivity. Qed.

(** C3.  Session 0 plays [seqA]; its last event fires at 100 ms and arms
    the completion timer (handle 1, due at 600 ms), whose handle is stored
    nowhere.  At 150 ms [playSequence(seqB)] starts session 1: the timer of
    session 0 is still pending afterwards, next to the event timer of
    session 1 (handle 3, due at 1150 ms).  At 600 ms the timer of session
    0 fires and runs [stopPlayback], which clears the timer of session 1:
    "Mi" is never triggered and the player is idle. *)
Theorem C3_stale_completion_timer_kills_next_session :
  let start := [CallPlay (Some seqA); Tick 100; Fire 0; Tick 50;
                CallPlay (Some seqB)] in
  after (session_timers 0) start = Some [mkTimer 1 600 (StopCb 0)] /\
  after (session_timers 1) start
  = Some [mkTimer 3 1150 (EventCb 1 150 1000 (mkEvent "Mi" 1000) 0 1)] /\
  after (session_timers 1) (start ++ [Tick 450; Fire 1]) = Some [] /\
  after isPlaying (start ++ [Tick 450; Fire 1]) = Some false /\
  after bellplays (start ++ [Tick 450; Fire 1]) = Some [ObsBellPlay 0 0 "Do" 100] /\
  after timers (start ++ [Tick 450; Fire 1])
  = Some [mkTimer 2 300 (ClearFlagCb "Do")].
Proof. repeat split; vm_compute; reflexivity. Qed.

(** The same defect through the button alone: Play, Stop within the 500
    ms, Play again. *)
Example C3_through_the_button :
  let acts := [ClickButton (Some seqA); Tick 100; Fire 0; Tick 50;
               ClickButton (Some seqA); ClickButton (Some seqB);
               Tick 450; Fire 1] in
  after (session_timers 1) acts = Some [] /\
  after isPlaying acts = Some false /\
  after bellplays acts = Some [ObsBellPlay 0 0 "Do" 100].
Proof. repeat split; vm_compute; reflexivity. Qed.

(** C4.  [stop()] during the 500 ms after the last event: the completion
    timer of the session (handle 1, due at 600 ms) is still pending after
    [stopPlayback] returned, and it fires at 600 ms. *)
Theorem C4_stop_leaves_completion_timer :
  let acts := [CallPlay (Some seqA); Tick 100; Fire 0; Tick 50; CallStop] in
  after (session_timers 0) acts = Some [mkTimer 1 600 (StopCb 0)] /\
  after isPlaying acts = Some false /\
  after playerRef acts = Some None /\
  after (session_timers 0) (acts ++ [Tick 450; Fire 1]) = Some [].
Proof. repeat split; vm_compute; reflexivity. Qed.

(** C7.  The session is not always torn down after a fixed 500 ms.  On
    the button alone: Play starts session 0 with [seqA]; its last event
    fires at 100 ms and arms the completion timer (handle 1, due at 600
    ms); Stop at 150 ms leaves this timer pending; Play at 160 ms starts
    session 1, whose last event fires at 260 ms, with [progress] at 100,
    and arms the completion timer of session 1 (handle 4, due at 760 ms).
    At 600 ms, 340 ms after the last event of session 1, the timer of
    session 0 fires: the player is idle and [progress] is 0, with the
    completion timer of session 1 still pending. *)
Theorem C7_grace_cut_short_by_stale_timer :
  let acts := [ClickButton (Some seqA); Tick 100; Fire 0; Tick 50;
               ClickButton (Some seqA); Tick 10; ClickButton (Some seqA);
               Tick 100; Fire 3] in
  after (session_timers 0) acts = Some [mkTimer 1 600 (StopCb 0)] /\
  after bellplays acts
  = Some [ObsBellPlay 0 0 "Do" 100; ObsBellPlay 1 0 "Do" 260] /\
  after (fun w => (now w, isPlaying w, progress w)) acts
  = Some (260, true, JFin (100 # 1)) /\
  after (session_timers 1) acts = Some [mkTimer 4 760 (StopCb 1)] /\
  after (fun w => (now w, isPlaying w, progress w, playerRef w))
    (acts ++ [Tick 340; Fire 1])
  = Some (600, false, JFin 0, None) /\
  after (session_timers 1) (acts ++ [Tick 340; Fire 1])
  = Some [mkTimer 4 760 (StopCb 1)].
Proof. repeat split; vm_compute; reflexivity. Qed.

(** C10.  Unmounting during the 500 ms after the last event: the
    completion timer of the session is still pending after the clean-up,
    and it fires on the unmounted component at 600 ms. *)
Theorem C10_unmount_leaves_completion_timer :
  let acts := [CallPlay (Some seqA); Tick 100; Fire 0; Tick 50; Unmount] in
  after (session_timers 0) acts = Some [mkTimer 1 600 (StopCb 0)] /\
  after mounted acts = Some false /\
  after (session_timers 0) (acts ++ [Tick 450; Fire 1]) = Some [] /\
  after mounted (acts ++ [Tick 450; Fire 1]) = Some false.
Proof. repeat split; vm_compute; reflexivity. Qed.
